(** * The chevrotain lexer engine ([src/scan/lexer_public.ts])

    A shallow embedding of [Lexer.constructor] and [Lexer.tokenize] and the
    properties of the scanning loop: pattern selection, position tracking,
    error recovery, mode-stack handling, termination, and the sharing of the
    group buckets between the calls on one lexer.

    Conventions of the embedding.
    - A JavaScript string value is the list of its UTF-16 code units
      ([jsstring]); [charCodeAt] is list lookup.  Property keys (mode names
      and group names) are [string]s.
    - JavaScript numbers that the engine uses (offsets, lines, columns,
      indices) are integers and are modelled in [Z].
    - [undefined] array slots and absent properties are [None].
    - A thrown exception ends the call: [Throw].  The possibly unbounded
      [while (text.length > 0)] loop takes a fuel argument; running out of
      fuel is [None] and stands for a call that has not returned yet.
    - The group buckets are arrays shared by reference.  They live in a
      [Heap] of buckets; objects hold addresses of buckets.
    - A dictionary of the instance is a plain object: [tables] and
      [emptyGroups] hold the properties it has itself, and a read under
      another key finds the members of [Object.prototype]. *)

From stdpp Require Import gmap strings list pretty sorting.
From Stdlib Require Import ZArith Lia.

Local Open Scope Z_scope.

(** ** JavaScript strings *)

Abbreviation jsstring := (list Z).

(** Embedding of an ASCII literal as a JavaScript string. *)
Definition str (s : string) : jsstring :=
  map (fun c => Z.of_N (Ascii.N_of_ascii c)) (String.list_ascii_of_string s).

(** The line feed, which a literal of Rocq cannot escape. *)
Definition LF : jsstring := [10].

(** Template-literal interpolation of an integer: [`${n}`]. *)
Definition num (n : Z) : jsstring := str (pretty n).

(** [s.charAt(i)]: the one-unit string at [i], or the empty string. *)
Definition charAt (s : jsstring) (i : Z) : jsstring :=
  if i <? 0 then []
  else match s !! Z.to_nat i with
       | Some c => [c]
       | None => []
       end.

(** [arr.join(sep)]. *)
Fixpoint join (sep : jsstring) (arr : list jsstring) : jsstring :=
  match arr with
  | [] => []
  | [x] => x
  | x :: rest => x ++ sep ++ join sep rest
  end.

(** [arr[i]] for a number [i]: [undefined] outside the array. *)
Definition array_get {A} (arr : list A) (i : Z) : option A :=
  if i <? 0 then None else arr !! Z.to_nat i.

(** A compiled pattern.  [p text] is [match[0]] of [p.exec(text)], or [None]
    when [exec] returns [null].  The validator refuses the global flag, so
    [exec] keeps no state between calls. *)
Abbreviation RegExp := (jsstring -> option jsstring).

(** [p.test(text)]. *)
Definition test (p : RegExp) (text : jsstring) : bool :=
  match p text with
  | Some _ => true
  | None => false
  end.

Inductive JsError :=
| TypeError
| Error (msg : jsstring).

Inductive LexerDefinitionErrorType :=
| MISSING_PATTERN
| INVALID_PATTERN
| EOI_ANCHOR_FOUND
| UNSUPPORTED_FLAGS_FOUND
| DUPLICATE_PATTERNS_FOUND
| INVALID_GROUP_TYPE_FOUND
| PUSH_MODE_DOES_NOT_EXIST.

Record ILexingError := mkLexingError {
  err_line : Z;
  err_column : Z;
  err_length : Z;
  err_message : jsstring }.

(** Modelled from the spec: [countLineTerminators] of [src/scan/lexer.ts],
    which is not among the sources.  A line terminator is a line feed, a
    carriage return not followed by a line feed, or the pair counted once. *)
Fixpoint countLineTerminators (s : jsstring) : Z :=
  match s with
  | [] => 0
  | c :: rest =>
      (if c =? 10 then 1
       else if c =? 13 then
         match rest with
         | c1 :: _ => if c1 =? 10 then 0 else 1
         | [] => 1
         end
       else 0) + countLineTerminators rest
  end.

(** The reverse scan of [tokenize] for the last line terminator of the
    image: [n] is [lastLTIdx + 1]; the result is [-1] when the scan falls
    off the front. *)
Fixpoint scan_lastLTIdx (matchedImage : jsstring) (n : nat) : Z :=
  match n with
  | O => -1
  | S k =>
      match matchedImage !! k with
      | Some c => if (c =? 13) || (c =? 10) then Z.of_nat k
                  else scan_lastLTIdx matchedImage k
      | None => scan_lastLTIdx matchedImage k
      end
  end.

Definition find_lastLTIdx (matchedImage : jsstring) : Z :=
  scan_lastLTIdx matchedImage (length matchedImage).

(** The test of the recovery loop on the character it drops: a line feed, or
    a carriage return that no line feed follows. *)
Definition dropped_is_line_end (text : jsstring) : bool :=
  match text with
  | [] => false
  | droppedChar :: rest =>
      (droppedChar =? 10)
      || ((droppedChar =? 13)
          && match rest with
             | [] => true
             | c1 :: _ => negb (c1 =? 10)
             end)
  end.

Section Engine.

Context {TokenConstructor : Type}.

(** Modelled from the spec: the [Token] class of [src/scan/tokens_public.ts],
    which is not among the sources.  [startOffset] is its field [offset]. *)
Record Token := mkToken {
  image : jsstring;
  startOffset : Z;
  startLine : Z;
  startColumn : Z;
  endLine : Z;
  endColumn : Z;
  tokenClass : TokenConstructor }.

(** [new tokClass(image, offset, line, column)]: the end position defaults
    to the start line and to the column of the last character. *)
Definition new_Token (tokClass : TokenConstructor) (matchedImage : jsstring)
    (offset line column : Z) : Token :=
  {| image := matchedImage; startOffset := offset;
     startLine := line; startColumn := column;
     endLine := line;
     endColumn := column + Z.of_nat (length matchedImage) - 1;
     tokenClass := tokClass |}.

Record ILexerDefinitionError := mkDefinitionError {
  def_message : jsstring;
  def_type : LexerDefinitionErrorType;
  def_tokenClasses : list TokenConstructor }.

(** ** The heap of group buckets *)

Abbreviation addr := nat.
Abbreviation Heap := (list (list Token)).

(** [arr.push(tok)] on the array at address [a]. *)
Definition heap_push (h : Heap) (a : addr) (tok : Token) : Heap :=
  alter (fun arr => arr ++ [tok]) a h.

Inductive Completion (A : Type) :=
| Normal (a : A)
| Throw (e : JsError) (h : Heap).
Global Arguments Normal {A} a.
Global Arguments Throw {A} e h.

(** ** The compiled tables *)

(** The slices for one mode of the seven per-mode dictionaries of the
    [Lexer] instance.  The constructor fills the seven under the same key in
    one block, so they are kept as one record per mode; inside a mode they
    are the parallel arrays of the source. *)
Record ModeTable := mkModeTable {
  allPatterns : list RegExp;
  patternIdxToClass : list TokenConstructor;
  patternIdxToGroup : list (option string);
  patternIdxToLongerAltIdx : list (option Z);
  patternIdxToCanLineTerminator : list bool;
  patternIdxToPushMode : list (option string);
  patternIdxToPopMode : list bool }.

(** The initial value [[]] of the eight [currMode...] locals. *)
Definition no_mode : ModeTable :=
  mkModeTable [] [] [] [] [] [] [].

(** The instance.  [tables] holds the properties that the seven per-mode
    dictionaries have themselves, one per analysed mode, and [emptyGroups]
    those of the object of that name: the address of the bucket of each
    group. *)
Record Lexer := mkLexer {
  lexerDefinitionErrors : list ILexerDefinitionError;
  modes : list string;
  tables : gmap string ModeTable;
  emptyGroups : gmap string addr }.

(** The seven dictionaries are created as [{}] (lines 50-56), so that a read
    under a key that is no analysed mode still finds the members of
    [Object.prototype].  Each of them is a function, which has the [length]
    given here (the number of its declared parameters) and no indexed
    element; but [__proto__] gives the prototype object itself, which has no
    [length].  The list is that of an ECMAScript 2015 engine with the
    legacy accessors.  (A mode named [__proto__] would not become a property
    of the dictionaries but replace their prototype; the statements about
    keys that are no mode leave such a lexer out.) *)
Definition Object_prototype : list (string * option Z) :=
  [("constructor"%string, Some 1);
   ("toString"%string, Some 0);
   ("toLocaleString"%string, Some 0);
   ("valueOf"%string, Some 0);
   ("hasOwnProperty"%string, Some 1);
   ("isPrototypeOf"%string, Some 1);
   ("propertyIsEnumerable"%string, Some 1);
   ("__defineGetter__"%string, Some 2);
   ("__defineSetter__"%string, Some 2);
   ("__lookupGetter__"%string, Some 1);
   ("__lookupSetter__"%string, Some 1);
   ("__proto__"%string, None)].

(** The [length] of the member of [Object.prototype] under [key]; the outer
    [None]: there is no such member, and the read gives [undefined]. *)
Definition inherited (key : string) : option (option Z) :=
  (list_to_map Object_prototype : gmap string (option Z)) !! key.

(** ** Pattern selection *)

(** The [for] loop of the main iteration without its body's override: the
    first index from [i] on whose pattern matches, with the image. *)
Fixpoint first_match (patterns : list RegExp) (i : nat) (text : jsstring)
    : option (nat * jsstring) :=
  match patterns with
  | [] => None
  | p :: rest =>
      match p text with
      | Some m => Some (i, m)
      | None => first_match rest (S i) text
      end
  end.

(** [if (longerAltIdx)]: a number is truthy unless it is zero. *)
Definition truthy_idx (longerAltIdx : option Z) : option Z :=
  match longerAltIdx with
  | Some n => if n =? 0 then None else Some n
  | None => None
  end.

(** The body of the [if (match !== null)] inside the [for] loop. *)
Definition longer_alt (tbl : ModeTable) (text : jsstring) (h : Heap)
    (i : nat) (m : jsstring) : Completion (nat * jsstring) :=
  match truthy_idx (mjoin (patternIdxToLongerAltIdx tbl !! i)) with
  | Some longerAltIdx =>
      match array_get (allPatterns tbl) longerAltIdx with
      | None => Throw TypeError h
      | Some alt =>
          match alt text with
          | Some matchAlt =>
              if (length m <? length matchAlt)%nat
              then Normal (Z.to_nat longerAltIdx, matchAlt)
              else Normal (i, m)
          | None => Normal (i, m)
          end
      end
  | None => Normal (i, m)
  end.

(** Lines 264-280: the selected index and image, [None] when [match] is
    still [null] after the loop. *)
Definition select_match (tbl : ModeTable) (text : jsstring) (h : Heap)
    : Completion (option (nat * jsstring)) :=
  match first_match (allPatterns tbl) 0 text with
  | None => Normal None
  | Some (i, m) =>
      match longer_alt tbl text h i m with
      | Normal r => Normal (Some r)
      | Throw e h' => Throw e h'
      end
  end.

(** ** The state of one [tokenize] call *)

(** The locals of [tokenize] and the heap.  [currMode] stands for the eight
    [currMode...] and [patternIdxTo...] locals, which [push_mode] and
    [pop_mode] always assign together.  [modeStack] grows at its end.
    [newToken] is [None] while the local is still [undefined]. *)
Record State := mkState {
  orgInput : jsstring;
  text : jsstring;
  offset : Z;
  matchedTokens : list Token;
  errors : list ILexingError;
  line : Z;
  column : Z;
  groups : gmap string addr;
  currMode : ModeTable;
  modeStack : list string;
  newToken : option Token;
  heap : Heap }.

(** The property key that a mode name gives; [undefined] as a key is the
    string of its name. *)
Definition mode_key (m : option string) : string :=
  default "undefined"%string m.

(** The eight assignments of [push_mode] and [pop_mode] (lines 238-245 and
    251-258): what the locals hold after the seven dictionaries were read
    under [newMode].
    - For an analysed mode, its arrays.
    - For a key that is nowhere, [currModePatterns] is [undefined] and
      [currModePatterns.length] throws.
    - For a member of [Object.prototype] the seven reads give that member.
      It has no indexed element, so it is read like the empty arrays of
      [no_mode], but for its [length].  Without a [length], or with the
      [length] 0, no pattern is tried in the main loop (line 265) or in the
      recovery loop (line 364): the locals are those of [no_mode].  With a
      [length] of 1 or more the main loop reads [currModePatterns[0]], which
      is [undefined], and [.exec] throws at line 266.  That happens in the
      round after the closure returned when text is left, and never when
      none is: the loop test is the next thing evaluated after either
      closure (lines 261-263 and 335-341, where the push test of line 338
      reads an index of the member and finds [undefined]), and nothing else
      reads the locals.  The state has no place for a [length] apart from
      the arrays, so the exception of that round is raised here. *)
Definition read_tables (lx : Lexer) (st : State) (newMode : string)
    : Completion ModeTable :=
  match tables lx !! newMode with
  | Some tbl => Normal tbl
  | None =>
      match inherited newMode with
      | None => Throw TypeError (heap st)
      | Some len =>
          match text st with
          | [] => Normal no_mode
          | _ :: _ =>
              if 0 <? default 0 len then Throw TypeError (heap st)
              else Normal no_mode
          end
      end
  end.

(** The closure [push_mode]. *)
Definition push_mode (lx : Lexer) (st : State) (newMode : string)
    : Completion State :=
  match read_tables lx st newMode with
  | Throw e h => Throw e h
  | Normal tbl =>
      Normal (mkState (orgInput st) (text st) (offset st) (matchedTokens st)
                (errors st) (line st) (column st) (groups st)
                tbl (modeStack st ++ [newMode]) (newToken st) (heap st))
  end.

Definition pop_message (popToken : Token) : jsstring :=
  str "Unable to pop Lexer Mode after encountering Token ->"
  ++ image popToken ++ str "<- The Mode Stack is empty".

(** The closure [pop_mode]. *)
Definition pop_mode (lx : Lexer) (st : State) (popToken : option Token)
    : Completion State :=
  if (length (modeStack st) =? 1)%nat then
    match popToken with
    | None => Throw TypeError (heap st)
    | Some tok =>
        let err := mkLexingError (startLine tok) (startColumn tok)
                     (Z.of_nat (length (image tok))) (pop_message tok) in
        Normal (mkState (orgInput st) (text st) (offset st) (matchedTokens st)
                  (errors st ++ [err]) (line st) (column st) (groups st)
                  (currMode st) (modeStack st) (newToken st) (heap st))
    end
  else
    let modeStack' := removelast (modeStack st) in
    let newMode := mode_key (last modeStack') in
    match read_tables lx st newMode with
    | Throw e h => Throw e h
    | Normal tbl =>
        Normal (mkState (orgInput st) (text st) (offset st) (matchedTokens st)
                  (errors st) (line st) (column st) (groups st)
                  tbl modeStack' (newToken st) (heap st))
    end.

(** ** A successful match (lines 282-341) *)

(** Lines 300-331: the line and column after the image, and the end position
    that a non-skipped token is given, [None] when it keeps its defaults.
    [column] is the column already advanced by the image length. *)
Definition track_lines (tbl : ModeTable) (i : nat) (matchedImage : jsstring)
    (line column : Z) : Z * Z * option (Z * Z) :=
  let imageLength := Z.of_nat (length matchedImage) in
  if default false (patternIdxToCanLineTerminator tbl !! i) then
    let lineTerminatorsInMatch := countLineTerminators matchedImage in
    if lineTerminatorsInMatch =? 0 then (line, column, None)
    else
      let line := line + lineTerminatorsInMatch in
      let lastLTIdx := find_lastLTIdx matchedImage in
      let column := imageLength - lastLTIdx in
      let lastCharIsLT := lastLTIdx =? imageLength - 1 in
      let fixForEndingInLT := if lastCharIsLT then -1 else 0 in
      if negb ((lineTerminatorsInMatch =? 1) && lastCharIsLT)
      then (line, column,
            Some (line + fixForEndingInLT, column - 1 + - fixForEndingInLT))
      else (line, column, None)
  else (line, column, None).

(** The assignments to [newToken.endLine] and [newToken.endColumn]. *)
Definition set_end (tok : Token) (fix_end : option (Z * Z)) : Token :=
  match fix_end with
  | Some (l, c) =>
      mkToken (image tok) (startOffset tok) (startLine tok) (startColumn tok)
        l c (tokenClass tok)
  | None => tok
  end.

(** Lines 285-331.  The source pushes [newToken] and assigns its end
    position afterwards through the shared reference; the token is a value
    here, so its end position is computed first and the finished token is
    pushed.  Nothing between the push and the assignments can throw. *)
Definition consume (st : State) (i : nat) (matchedImage : jsstring)
    : Completion State :=
  let tbl := currMode st in
  let imageLength := Z.of_nat (length matchedImage) in
  let group := mjoin (patternIdxToGroup tbl !! i) in
  let text' := drop (length matchedImage) (text st) in
  let offset' := offset st + imageLength in
  let '(line', column', fix_end) :=
    track_lines tbl i matchedImage (line st) (column st + imageLength) in
  match group with
  | None =>
      Normal (mkState (orgInput st) text' offset' (matchedTokens st)
                (errors st) line' column' (groups st) tbl (modeStack st)
                (newToken st) (heap st))
  | Some g =>
      match patternIdxToClass tbl !! i with
      | None => Throw TypeError (heap st)
      | Some tokClass =>
          let tok :=
            set_end (new_Token tokClass matchedImage (offset st) (line st)
                       (column st)) fix_end in
          if decide (g = "default"%string) then
            Normal (mkState (orgInput st) text' offset'
                      (matchedTokens st ++ [tok]) (errors st) line' column'
                      (groups st) tbl (modeStack st) (Some tok) (heap st))
          else
            match groups st !! g with
            | None => Throw TypeError (heap st)
            | Some a =>
                Normal (mkState (orgInput st) text' offset' (matchedTokens st)
                          (errors st) line' column' (groups st) tbl
                          (modeStack st) (Some tok) (heap_push (heap st) a tok))
            end
      end
  end.

(** [if (patternIdxToPushMode[i])]: a string is truthy unless it is empty. *)
Definition truthy_mode (pushMode : option string) : option string :=
  match pushMode with
  | Some s => if decide (s = ""%string) then None else Some s
  | None => None
  end.

(** Lines 333-340.  [patternIdxToPopMode] and [patternIdxToPushMode] are
    locals that [pop_mode] reassigns: the second test reads the array of the
    mode that is current after the pop, at the index [i] of the pattern that
    matched before it. *)
Definition switch_modes (lx : Lexer) (st : State) (i : nat)
    : Completion State :=
  match
    (if default false (patternIdxToPopMode (currMode st) !! i)
     then pop_mode lx st (newToken st)
     else Normal st)
  with
  | Throw e h => Throw e h
  | Normal st1 =>
      match truthy_mode (mjoin (patternIdxToPushMode (currMode st1) !! i)) with
      | Some newMode => push_mode lx st1 newMode
      | None => Normal st1
      end
  end.

Definition on_match (lx : Lexer) (st : State) (i : nat)
    (matchedImage : jsstring) : Completion State :=
  match consume st i matchedImage with
  | Throw e h => Throw e h
  | Normal st1 => switch_modes lx st1 i
  end.

(** ** Error recovery (lines 342-377) *)

(** The inner [for] loop over [j]: does any pattern of the mode match. *)
Definition any_matches (patterns : list RegExp) (text : jsstring) : bool :=
  existsb (fun p => test p text) patterns.

(** The [while (!foundResyncPoint && text.length > 0)] loop, entered with
    [foundResyncPoint = false].  Each round drops the first character. *)
Fixpoint resync (patterns : list RegExp) (text : jsstring)
    (offset line column : Z) : jsstring * Z * Z * Z :=
  match text with
  | [] => (text, offset, line, column)
  | droppedChar :: rest =>
      let '(line, column) :=
        if dropped_is_line_end text then (line + 1, 1)
        else (line, column + 1) in
      let offset := offset + 1 in
      if any_matches patterns rest then (rest, offset, line, column)
      else resync patterns rest offset line column
  end.

Definition unexpected_message (orgInput : jsstring)
    (errorStartOffset offset : Z) : jsstring :=
  str "unexpected character: ->" ++ charAt orgInput errorStartOffset
  ++ str "<- at offset: " ++ num errorStartOffset ++ str ","
  ++ str " skipped " ++ num (offset - errorStartOffset)
  ++ str " characters.".

Definition on_no_match (st : State) : State :=
  let errorStartOffset := offset st in
  let errorLine := line st in
  let errorColumn := column st in
  let '(text', offset', line', column') :=
    resync (allPatterns (currMode st)) (text st) (offset st) (line st)
      (column st) in
  let errLength := offset' - errorStartOffset in
  let msg := unexpected_message (orgInput st) errorStartOffset offset' in
  mkState (orgInput st) text' offset' (matchedTokens st)
    (errors st ++ [mkLexingError errorLine errorColumn errLength msg])
    line' column' (groups st) (currMode st) (modeStack st) (newToken st)
    (heap st).

(** ** The main loop *)

(** What one round of the main loop did with the characters it consumed:
    a token sent to a group, a match that was skipped, or a recovery span
    with its error record.  The spans are not part of the program's state;
    they record the rounds for the statements about them. *)
Inductive Span :=
| Emitted (group : string) (tok : Token)
| SkippedMatch (off : Z) (img : jsstring)
| ErrorSpan (off : Z) (img : jsstring) (err : ILexingError).

Definition span_offset (sp : Span) : Z :=
  match sp with
  | Emitted _ tok => startOffset tok
  | SkippedMatch off _ => off
  | ErrorSpan off _ _ => off
  end.

Definition span_image (sp : Span) : jsstring :=
  match sp with
  | Emitted _ tok => image tok
  | SkippedMatch _ img => img
  | ErrorSpan _ img _ => img
  end.

(** The span of a round, read off the states around it. *)
Definition match_span (st st' : State) (i : nat) (matchedImage : jsstring)
    : Span :=
  match mjoin (patternIdxToGroup (currMode st) !! i), newToken st' with
  | Some g, Some tok => Emitted g tok
  | _, _ => SkippedMatch (offset st) matchedImage
  end.

Definition error_span (st st' : State) : Span :=
  ErrorSpan (offset st)
    (take (Z.to_nat (offset st' - offset st)) (text st))
    (default (mkLexingError 0 0 0 []) (last (errors st'))).

(** One round of [while (text.length > 0)], for a nonempty [text]. *)
Definition loop_body (lx : Lexer) (st : State) : Completion (Span * State) :=
  match select_match (currMode st) (text st) (heap st) with
  | Throw e h => Throw e h
  | Normal (Some (i, matchedImage)) =>
      match on_match lx st i matchedImage with
      | Throw e h => Throw e h
      | Normal st' => Normal (match_span st st' i matchedImage, st')
      end
  | Normal None =>
      let st' := on_no_match st in
      Normal (error_span st st', st')
  end.

(** The main loop with its rounds recorded. *)
Fixpoint main_loop (lx : Lexer) (fuel : nat) (st : State) (trace : list Span)
    : option (Completion (list Span * State)) :=
  match text st with
  | [] => Some (Normal (trace, st))
  | _ :: _ =>
      match fuel with
      | O => None
      | S fuel' =>
          match loop_body lx st with
          | Throw e h => Some (Throw e h)
          | Normal (sp, st') => main_loop lx fuel' st' (trace ++ [sp])
          end
      end
  end.

(** ** [tokenize] *)

(** Modelled from the spec: [cloneObj] of [src/utils/utils.ts], which is not
    among the sources; the spec names the group object of a call and says
    nothing of how it is made.  It is the copy that this helper of
    chevrotain makes: a new object with the properties that the argument
    has itself, each holding the value that the argument holds.  The value
    of a group is a reference to its bucket, so the copy holds the
    addresses of the buckets of the argument, and no bucket is created: the
    heap of buckets is returned as it is. *)
Definition cloneObj (h : Heap) (obj : gmap string addr)
    : Heap * gmap string addr :=
  (h, obj).

Record ILexingResult := mkLexingResult {
  tokens : list Token;
  result_groups : gmap string addr;
  result_errors : list ILexingError }.

Definition definition_errors_message (prefix : jsstring)
    (errs : list ILexerDefinitionError) : jsstring :=
  let allErrMessages := map def_message errs in
  let allErrMessagesString := join (str "-----------------------" ++ LF)
                                allErrMessages in
  prefix ++ allErrMessagesString.

(** Lines 207-261: the locals before the loop, and [push_mode(initialMode)].
    [initialMode] defaults to [first(this.modes)]. *)
Definition start (lx : Lexer) (input : jsstring) (initialMode : option string)
    (h : Heap) : Completion State :=
  let '(h', groups) := cloneObj h (emptyGroups lx) in
  let initialMode :=
    match initialMode with
    | Some m => Some m
    | None => head (modes lx)
    end in
  push_mode lx
    (mkState input input 0 [] [] 1 1 groups no_mode [] None h')
    (mode_key initialMode).

(** [tokenize] with its rounds recorded.  [None]: the fuel ran out. *)
Definition tokenize_trace (lx : Lexer) (fuel : nat) (input : jsstring)
    (initialMode : option string) (h : Heap)
    : option (Completion (list Span * ILexingResult * Heap)) :=
  match lexerDefinitionErrors lx with
  | _ :: _ =>
      Some (Throw (Error (definition_errors_message
               (str "Unable to Tokenize because Errors detected in definition of Lexer:" ++ LF)
               (lexerDefinitionErrors lx))) h)
  | [] =>
      match start lx input initialMode h with
      | Throw e h' => Some (Throw e h')
      | Normal st =>
          match main_loop lx fuel st [] with
          | None => None
          | Some (Throw e h') => Some (Throw e h')
          | Some (Normal (trace, st')) =>
              Some (Normal (trace,
                            mkLexingResult (matchedTokens st') (groups st')
                              (errors st'),
                            heap st'))
          end
      end
  end.

(** [Lexer.tokenize(text, initialMode)] run in heap [h]: the result and the
    heap that the call leaves. *)
Definition tokenize (lx : Lexer) (fuel : nat) (input : jsstring)
    (initialMode : option string) (h : Heap)
    : option (Completion (ILexingResult * Heap)) :=
  match tokenize_trace lx fuel input initialMode h with
  | None => None
  | Some (Throw e h') => Some (Throw e h')
  | Some (Normal (_, r, h')) => Some (Normal (r, h'))
  end.

(** What the caller can read of a completed call: the exception, or the
    result with every bucket read through the heap. *)
Record ResultValue := mkResultValue {
  v_tokens : list Token;
  v_groups : gmap string (list Token);
  v_errors : list ILexingError }.

Definition read_groups (h : Heap) (g : gmap string addr)
    : gmap string (list Token) :=
  omap (fun a => h !! a) g.

Definition observe (c : Completion (ILexingResult * Heap))
    : JsError + ResultValue :=
  match c with
  | Throw e _ => inl e
  | Normal (r, h) =>
      inr (mkResultValue (tokens r) (read_groups h (result_groups r))
             (result_errors r))
  end.

Definition heap_after {A} (c : Completion (A * Heap)) : Heap :=
  match c with
  | Throw _ h => h
  | Normal (_, h) => h
  end.

(** ** The constructor (lines 143-183) *)

(** A lexer definition: an array of token constructors, or an object from
    mode names to such arrays, in the order of its keys. *)
Inductive LexerDefinition :=
| SingleMode (definition : list TokenConstructor)
| MultiMode (definition : list (string * list TokenConstructor)).

(** What [analyzeTokenClasses] returns: the seven arrays of a mode and the
    empty buckets of its groups. *)
Record AnalyzeResult := mkAnalyzeResult {
  analyzed_table : ModeTable;
  analyzed_emptyGroups : gmap string addr }.

(** Modelled from the spec: [merge] of [src/utils/utils.ts], which is not
    among the sources.  The buckets of every group of either object; the
    second object wins a shared key. *)
Definition merge (obj1 obj2 : gmap string addr) : gmap string addr :=
  obj2 ∪ obj1.

Section Constructor.

(** [validatePatterns] and [analyzeTokenClasses] of [src/scan/lexer.ts] are
    not among the sources.  The analysis allocates the empty buckets. *)
Variable validatePatterns :
  list TokenConstructor -> list string -> list ILexerDefinitionError.
Variable analyzeTokenClasses :
  list TokenConstructor -> Heap -> AnalyzeResult * Heap.

(** The callback of [forEach(lexerDefinition, ...)] on the instance under
    construction. *)
Definition add_mode (allModeNames : list string) (acc : Lexer * Heap)
    (entry : string * list TokenConstructor) : Lexer * Heap :=
  let '(this, h) := acc in
  let '(currModName, currModDef) := entry in
  let modes' := modes this ++ [currModName] in
  let errs := lexerDefinitionErrors this
              ++ validatePatterns currModDef allModeNames in
  match errs with
  | [] =>
      let '(currAnalyzeResult, h') := analyzeTokenClasses currModDef h in
      (mkLexer errs modes'
         (<[currModName := analyzed_table currAnalyzeResult]> (tables this))
         (merge (emptyGroups this) (analyzed_emptyGroups currAnalyzeResult)),
       h')
  | _ :: _ => (mkLexer errs modes' (tables this) (emptyGroups this), h)
  end.

Definition mode_definitions (lexerDefinition : LexerDefinition)
    : list (string * list TokenConstructor) :=
  match lexerDefinition with
  | SingleMode definition => [("default_mode"%string, definition)]
  | MultiMode definition => definition
  end.

(** [new Lexer(lexerDefinition, deferDefinitionErrorsHandling)]. *)
Definition new_Lexer (lexerDefinition : LexerDefinition)
    (deferDefinitionErrorsHandling : bool) (h : Heap)
    : Completion (Lexer * Heap) :=
  let definition := mode_definitions lexerDefinition in
  let allModeNames := map fst definition in
  let '(this, h') :=
    fold_left (add_mode allModeNames) definition (mkLexer [] [] ∅ ∅, h) in
  match lexerDefinitionErrors this with
  | _ :: _ =>
      if negb deferDefinitionErrorsHandling then
        Throw (Error (definition_errors_message
                 (str "Errors detected in definition of Lexer:" ++ LF)
                 (lexerDefinitionErrors this))) h'
      else Normal (this, h')
  | [] => Normal (this, h')
  end.

(** Every error that validation reports, mode after mode. *)
Definition all_definition_errors (lexerDefinition : LexerDefinition)
    : list ILexerDefinitionError :=
  let definition := mode_definitions lexerDefinition in
  concat (map (fun entry => validatePatterns (snd entry) (map fst definition))
            definition).

End Constructor.

End Engine.

Global Arguments str : simpl never.
Global Arguments pop_message : simpl never.
Global Arguments unexpected_message : simpl never.
Global Arguments Token : clear implicits.
Global Arguments ModeTable : clear implicits.
Global Arguments Lexer : clear implicits.
Global Arguments State : clear implicits.
Global Arguments Span : clear implicits.
Global Arguments ILexerDefinitionError : clear implicits.
Global Arguments ILexingResult : clear implicits.
Global Arguments ResultValue : clear implicits.
Global Arguments LexerDefinition : clear implicits.
Global Arguments AnalyzeResult : clear implicits.
Global Arguments Completion : clear implicits.

(** ** Sample patterns and lexers *)

Fixpoint take_while (f : Z -> bool) (s : jsstring) : jsstring :=
  match s with
  | [] => []
  | c :: rest => if f c then c :: take_while f rest else []
  end.

(** [/^[a-z]+/]. *)
Definition lower_run : RegExp := fun text =>
  match take_while (fun c => (97 <=? c) && (c <=? 122)) text with
  | [] => None
  | m => Some m
  end.

(** [/^a*/], which matches the empty string. *)
Definition a_star : RegExp := fun text =>
  Some (take_while (fun c => c =? 97) text).

(** [/^;/]. *)
Definition semicolon : RegExp := fun text =>
  match text with
  | 59 :: _ => Some [59]
  | _ => None
  end.

Definition single_mode (tbl : ModeTable string) : Lexer string :=
  mkLexer [] ["default_mode"%string] {[ "default_mode"%string := tbl ]} ∅.

(** The catalog of one token class [Word] with pattern [/[a-z]+/]. *)
Definition words_table : ModeTable string :=
  mkModeTable [lower_run] ["Word"%string] [Some "default"%string] [None]
    [false] [None] [false].

Definition words_lexer : Lexer string := single_mode words_table.

(** [Word] in the token stream and [Close] with pattern [/;/] in the group
    [punct], whose bucket is the object at address 0. *)
Definition grouped_lexer : Lexer string :=
  mkLexer [] ["default_mode"%string]
    {[ "default_mode"%string :=
         mkModeTable [lower_run; semicolon] ["Word"%string; "Close"%string]
           [Some "default"%string; Some "punct"%string] [None; None]
           [false; false] [None; None] [false; false] ]}
    {[ "punct"%string := 0%nat ]}.

(** The pattern of a literal: [/^do/] for [str "do"]. *)
Definition literal (lit : jsstring) : RegExp := fun text =>
  if decide (take (length lit) text = lit) then Some lit else None.


(** Identifier first: the longer alternative of [Do] resolves to index 0. *)
Definition identifier_first_table : ModeTable string :=
  mkModeTable [lower_run; literal (str "do")]
    ["Identifier"%string; "Do"%string]
    [Some "default"%string; Some "default"%string]
    [None; Some 0] [false; false] [None; None] [false; false].

(** One token class whose pattern can match line terminators. *)
Definition comment_table : ModeTable string :=
  mkModeTable [lower_run] ["Comment"%string] [Some "default"%string] [None]
    [true] [None] [false].

(** A state of a call at line 1, column 1 of [input], with tables [tbl]
    current and a mode stack of one mode. *)
Definition state_at (tbl : ModeTable string) (input : jsstring)
    : State string :=
  mkState input input 0 [] [] 1 1 ∅ tbl ["default_mode"%string] None [].

(** One token class [Close] with pattern [/;/], group [SKIPPED] and
    [POP_MODE]. *)
Definition closer_table : ModeTable string :=
  mkModeTable [semicolon] ["Close"%string] [None] [None] [false] [None]
    [true].

Definition closer_lexer : Lexer string := single_mode closer_table.

(** [Word] with pattern [/[a-z]+/], then the [Close] of [closer_table]. *)
Definition word_closer_lexer : Lexer string :=
  single_mode
    (mkModeTable [lower_run; semicolon] ["Word"%string; "Close"%string]
       [Some "default"%string; None] [None; None] [false; false]
       [None; None] [false; true]).

(** One token class [As] with pattern [/a*/]. *)
Definition a_star_table : ModeTable string :=
  mkModeTable [a_star] ["As"%string] [Some "default"%string] [None] [false]
    [None] [false].

Definition a_star_lexer : Lexer string := single_mode a_star_table.

(** Three modes.  [outer]: [Open] with pattern [/o/] pushes [inner].
    [inner]: [Swap] with pattern [/s/] pops and pushes [third].
    [third]: [Digit] with pattern [/d/]. *)
Definition swap_lexer : Lexer string :=
  mkLexer [] ["outer"%string; "inner"%string; "third"%string]
    (<["outer"%string :=
         mkModeTable [literal (str "o")] ["Open"%string]
           [Some "default"%string] [None] [false] [Some "inner"%string]
           [false]]>
     (<["inner"%string :=
          mkModeTable [literal (str "s")] ["Swap"%string]
            [Some "default"%string] [None] [false] [Some "third"%string]
            [true]]>
      {[ "third"%string :=
           mkModeTable [literal (str "d")] ["Digit"%string]
             [Some "default"%string] [None] [false] [None] [false] ]}))
    ∅.

(** A validation that reports one duplicate-pattern error for every mode,
    and an analysis that compiles nothing. *)
Definition sample_validatePatterns (definition : list string)
    (allModeNames : list string) : list (ILexerDefinitionError string) :=
  [mkDefinitionError (str "duplicate patterns") DUPLICATE_PATTERNS_FOUND
     definition].

Definition sample_analyzeTokenClasses (definition : list string)
    (h : list (list (Token string)))
    : AnalyzeResult string * list (list (Token string)) :=
  (mkAnalyzeResult no_mode ∅, h).

(** The tables of the modes [outer] and [inner] of [swap_lexer], and a
    state of a call on it in each of the two modes. *)
Definition swap_outer_table : ModeTable string :=
  mkModeTable [literal (str "o")] ["Open"%string]
    [Some "default"%string] [None] [false] [Some "inner"%string] [false].

Definition swap_inner_table : ModeTable string :=
  mkModeTable [literal (str "s")] ["Swap"%string]
    [Some "default"%string] [None] [false] [Some "third"%string] [true].

Definition swap_state_outer : State string :=
  mkState (str "osd") (str "osd") 0 [] [] 1 1 ∅ swap_outer_table
    ["outer"%string] None [].

Definition swap_state_inner : State string :=
  mkState (str "osd") (str "sd") 1 [] [] 1 2 ∅ swap_inner_table
    ["outer"%string; "inner"%string] None [].

(** The token that [grouped_lexer] builds for the input [;]. *)
Definition close_token : Token string :=
  mkToken (str ";") 0 1 1 1 1 "Close"%string.

(** A validation that reports nothing. *)
Definition clean_validatePatterns (definition : list string)
    (allModeNames : list string) : list (ILexerDefinitionError string) :=
  [].

(** ** Vocabulary of the statements *)

(** The line and column after [k] characters of [text] were dropped one at
    a time from position [(line, column)]: a line feed, or a carriage return
    that no line feed follows, starts a new line at column 1; any other
    character advances the column. *)
Fixpoint skip_chars (k : nat) (text : jsstring) (line column : Z) : Z * Z :=
  match k, text with
  | S k', _ :: rest =>
      if dropped_is_line_end text then skip_chars k' rest (line + 1) 1
      else skip_chars k' rest line (column + 1)
  | _, _ => (line, column)
  end.

Section Vocabulary.

Context {TokenConstructor : Type}.

(** A pattern is anchored when its match starts the text it is run on: the
    image is a prefix of the text. *)
Definition anchored (p : RegExp) : Prop :=
  forall text m, p text = Some m -> m `prefix_of` text.

(** A pattern that never yields a zero-length match. *)
Definition never_empty (p : RegExp) : Prop :=
  forall text m, p text = Some m -> m <> [].

(** [P] holds of every compiled pattern of every mode of the lexer. *)
Definition every_pattern (P : RegExp -> Prop) (lx : Lexer TokenConstructor)
    : Prop :=
  forall mode tbl p,
    tables lx !! mode = Some tbl -> p ∈ allPatterns tbl -> P p.

(** The tokens that the rounds sent to group [g], in order. *)
Fixpoint tokens_of (g : string) (trace : list (Span TokenConstructor))
    : list (Token TokenConstructor) :=
  match trace with
  | [] => []
  | Emitted g' tok :: rest =>
      if decide (g' = g) then tok :: tokens_of g rest else tokens_of g rest
  | _ :: rest => tokens_of g rest
  end.

(** What the bucket of group [g] holds after the rounds: tokens of the group
    ["default"] go to the token stream, not to a bucket. *)
Definition bucket_of (g : string) (trace : list (Span TokenConstructor))
    : list (Token TokenConstructor) :=
  if decide (g = "default"%string) then [] else tokens_of g trace.

(** The last token constructed by the rounds. *)
Fixpoint last_constructed (trace : list (Span TokenConstructor))
    : option (Token TokenConstructor) :=
  match trace with
  | [] => None
  | sp :: rest =>
      match last_constructed rest with
      | Some tok => Some tok
      | None => match sp with
                | Emitted _ tok => Some tok
                | _ => None
                end
      end
  end.

(** The spans lie end to end from offset [off], and none is empty. *)
Fixpoint contiguous (off : Z) (trace : list (Span TokenConstructor)) : Prop :=
  match trace with
  | [] => True
  | sp :: rest =>
      span_offset sp = off /\ span_image sp <> []
      /\ contiguous (off + Z.of_nat (length (span_image sp))) rest
  end.

(** The text covered by the spans. *)
Definition covered (trace : list (Span TokenConstructor)) : jsstring :=
  concat (map span_image trace).

(** The main loop as a relation: [reaches lx st trace st' trace'] when some
    number of rounds leads from [st] to [st'] and appends their spans. *)
Inductive reaches (lx : Lexer TokenConstructor)
    : State TokenConstructor -> list (Span TokenConstructor) ->
      State TokenConstructor -> list (Span TokenConstructor) -> Prop :=
| reaches_here st trace : reaches lx st trace st trace
| reaches_round st trace sp st1 st' trace' :
    text st <> [] ->
    loop_body lx st = Normal (sp, st1) ->
    reaches lx st1 (trace ++ [sp]) st' trace' ->
    reaches lx st trace st' trace'.

(** Every bucket of the lexer is an object of the heap. *)
Definition lexer_allocated (h : list (list (Token TokenConstructor)))
    (lx : Lexer TokenConstructor) : Prop :=
  forall g a, emptyGroups lx !! g = Some a -> (a < length h)%nat.

(** Every bucket of the lexer is empty, as the analysis leaves it. *)
Definition buckets_empty (h : list (list (Token TokenConstructor)))
    (lx : Lexer TokenConstructor) : Prop :=
  forall g a, emptyGroups lx !! g = Some a -> h !! a = Some [].

(** A sequence of [tokenize] calls on one lexer, each with its fuel, text
    and initial mode: the heap that they leave, [None] if one of them runs
    out of fuel. *)
Fixpoint run_calls (lx : Lexer TokenConstructor)
    (calls : list (nat * jsstring * option string))
    (h : list (list (Token TokenConstructor)))
    : option (list (list (Token TokenConstructor))) :=
  match calls with
  | [] => Some h
  | (fuel, input, initialMode) :: rest =>
      match tokenize lx fuel input initialMode h with
      | None => None
      | Some c => run_calls lx rest (heap_after c)
      end
  end.

(** The locals that the mode closures leave alone. *)
Definition same_scan (st st' : State TokenConstructor) : Prop :=
  text st' = text st /\ offset st' = offset st /\ line st' = line st
  /\ column st' = column st /\ matchedTokens st' = matchedTokens st
  /\ groups st' = groups st /\ heap st' = heap st
  /\ newToken st' = newToken st /\ orgInput st' = orgInput st.

(** The current tables are the initial empty ones or tables of the lexer. *)
Definition current_of (lx : Lexer TokenConstructor)
    (st : State TokenConstructor) : Prop :=
  currMode st = no_mode
  \/ exists mode, tables lx !! mode = Some (currMode st).

(** The bookkeeping of the main loop after the rounds of [trace], on the
    input [input]: the spans followed by the remaining text are the input,
    they lie end to end from offset 0, the token stream holds the tokens of
    the rounds for the group ["default"], [newToken] is the last token
    constructed, every recovery span has its error record in [errors],
    whose length is that of the span, and every other token was sent to a
    group of the group object. *)
Definition accounted (input : jsstring) (st : State TokenConstructor)
    (trace : list (Span TokenConstructor)) : Prop :=
  covered trace ++ text st = input
  /\ contiguous 0 trace
  /\ offset st = Z.of_nat (length (covered trace))
  /\ matchedTokens st = tokens_of "default" trace
  /\ newToken st = last_constructed trace
  /\ (forall off img err, ErrorSpan off img err ∈ trace ->
        err ∈ errors st /\ err_length err = Z.of_nat (length img))
  /\ (forall g tok, Emitted g tok ∈ trace ->
        g = "default"%string \/ is_Some (groups st !! g)).

(** The buckets of a group object are distinct objects: every group was
    given an array of its own. *)
Definition distinct_buckets (gs : gmap string nat) : Prop :=
  forall g g' a, gs !! g = Some a -> gs !! g' = Some a -> g = g'.

(** The buckets after the rounds of [trace] of a call that started in the
    heap [h0]: the bucket of a group holds what it held in [h0], followed by
    the tokens that the rounds sent to the group. *)
Definition buckets_accounted (h0 : list (list (Token TokenConstructor)))
    (st : State TokenConstructor) (trace : list (Span TokenConstructor))
    : Prop :=
  forall g a, groups st !! g = Some a ->
    heap st !! a = (fun toks => toks ++ bucket_of g trace) <$> h0 !! a.

(** The heap [h'] holds the buckets of [h], none shorter and none changed
    where it had tokens: a bucket of [h'] is the bucket of [h] followed by
    further tokens. *)
Definition grown_from (h h' : list (list (Token TokenConstructor))) : Prop :=
  forall a toks, h !! a = Some toks ->
    exists more, h' !! a = Some (toks ++ more).

(** The tables that the closures install under [key]: those of the mode, or
    the empty arrays that stand for a member of [Object.prototype]. *)
Definition installed (lx : Lexer TokenConstructor) (key : string)
    (tbl : ModeTable TokenConstructor) : Prop :=
  tables lx !! key = Some tbl
  \/ (tables lx !! key = None /\ is_Some (inherited key) /\ tbl = no_mode).

(** Every mode that a pattern pushes is a mode of the lexer, which is what
    validation checks ([PUSH_MODE_DOES_NOT_EXIST]). *)
Definition pushes_are_modes (lx : Lexer TokenConstructor) : Prop :=
  forall mode tbl i newMode,
    tables lx !! mode = Some tbl ->
    truthy_mode (mjoin (patternIdxToPushMode tbl !! i)) = Some newMode ->
    is_Some (tables lx !! newMode).

(** The mode that [tokenize] pushes first, as a property key: the argument
    [initialMode], or [first(this.modes)] when it is [undefined]. *)
Definition first_mode (lx : Lexer TokenConstructor)
    (initialMode : option string) : string :=
  mode_key match initialMode with
           | Some m => Some m
           | None => head (modes lx)
           end.

(** The mode stack and the current tables go together: every mode of the
    stack has tables in the lexer, the stack has a top, and the current
    tables are those of the top. *)
Definition stack_ok (lx : Lexer TokenConstructor)
    (st : State TokenConstructor) : Prop :=
  (forall m, m ∈ modeStack st -> is_Some (tables lx !! m))
  /\ exists top, last (modeStack st) = Some top
                 /\ tables lx !! top = Some (currMode st).

(** Tables with which no round can throw: a pattern that is not skipped has
    a class and, unless its group is ["default"], a bucket; a truthy longer
    alternative is an index of the pattern array; a pattern that pops is
    not skipped; a truthy push mode, at any index, is a mode of the
    lexer. *)
Definition well_formed_table (lx : Lexer TokenConstructor)
    (tbl : ModeTable TokenConstructor) : Prop :=
  (forall i g, (i < length (allPatterns tbl))%nat ->
      mjoin (patternIdxToGroup tbl !! i) = Some g ->
      is_Some (patternIdxToClass tbl !! i)
      /\ (g = "default"%string \/ is_Some (emptyGroups lx !! g)))
  /\ (forall i a, (i < length (allPatterns tbl))%nat ->
        truthy_idx (mjoin (patternIdxToLongerAltIdx tbl !! i)) = Some a ->
        0 <= a < Z.of_nat (length (allPatterns tbl)))
  /\ (forall i, (i < length (allPatterns tbl))%nat ->
        default false (patternIdxToPopMode tbl !! i) = true ->
        is_Some (mjoin (patternIdxToGroup tbl !! i)))
  /\ (forall i newMode,
        truthy_mode (mjoin (patternIdxToPushMode tbl !! i)) = Some newMode ->
        is_Some (tables lx !! newMode)).

Definition well_formed (lx : Lexer TokenConstructor) : Prop :=
  forall mode tbl, tables lx !! mode = Some tbl -> well_formed_table lx tbl.

(** No pattern of the lexer pops a mode. *)
Definition never_pops (lx : Lexer TokenConstructor) : Prop :=
  forall mode tbl i,
    tables lx !! mode = Some tbl ->
    default false (patternIdxToPopMode tbl !! i) = false.

(** The error records of the recovery spans, in order. *)
Fixpoint recovery_errors (trace : list (Span TokenConstructor))
    : list ILexingError :=
  match trace with
  | [] => []
  | ErrorSpan _ _ err :: rest => err :: recovery_errors rest
  | _ :: rest => recovery_errors rest
  end.

(** Is the span a recovery span. *)
Definition is_recovery (sp : Span TokenConstructor) : bool :=
  match sp with
  | ErrorSpan _ _ _ => true
  | _ => false
  end.

(** [input.substr(off, len)]. *)
Definition substr (input : jsstring) (off : Z) (len : nat) : jsstring :=
  take len (drop (Z.to_nat off) input).

(** The modes that the constructor analyses: those that come before the
    first mode for which validation reports an error. *)
Fixpoint analysed_modes
    (validatePatterns : list TokenConstructor -> list string ->
                        list (ILexerDefinitionError TokenConstructor))
    (allModeNames : list string)
    (definition : list (string * list TokenConstructor)) : list string :=
  match definition with
  | [] => []
  | (name, def) :: rest =>
      match validatePatterns def allModeNames with
      | [] => name :: analysed_modes validatePatterns allModeNames rest
      | _ :: _ => []
      end
  end.

End Vocabulary.

(** * Properties *)

Section Selection.

Context {TokenConstructor : Type}.
Implicit Types (tbl : ModeTable TokenConstructor) (text m : jsstring).
Implicit Types (patterns : list RegExp).

Lemma first_match_Some patterns k text i m :
  first_match patterns k text = Some (i, m) <->
  exists j p, i = (k + j)%nat /\ patterns !! j = Some p /\ p text = Some m
    /\ forall j' p', (j' < j)%nat -> patterns !! j' = Some p' ->
                     p' text = None.
Proof.
  revert k. induction patterns as [|q rest IH]; intros k; simpl.
  - split; [discriminate|]. intros (j & p & _ & Hj & _). discriminate.
  - destruct (q text) as [mq|] eqn:Hq.
    + split.
      * intros [= <- <-]. exists 0%nat, q. repeat split; auto with lia.
      * intros (j & p & -> & Hj & Hp & Hmin). destruct j as [|j].
        -- simpl in Hj. injection Hj as <-. rewrite Hq in Hp.
           injection Hp as <-. f_equal. f_equal. lia.
        -- specialize (Hmin 0%nat q ltac:(lia) eq_refl). congruence.
    + rewrite IH. split.
      * intros (j & p & -> & Hj & Hp & Hmin). exists (S j), p.
        repeat split; auto with lia.
        intros [|j'] p' Hlt Hj'; simpl in Hj'.
        -- congruence.
        -- apply (Hmin j'); auto with lia.
      * intros (j & p & -> & Hj & Hp & Hmin). destruct j as [|j].
        -- simpl in Hj. congruence.
        -- exists j, p. repeat split; auto with lia.
           intros j' p' Hlt Hj'. apply (Hmin (S j')); auto with lia.
Qed.

Lemma first_match_None patterns k text :
  first_match patterns k text = None <->
  forall p, p ∈ patterns -> p text = None.
Proof.
  revert k. induction patterns as [|q rest IH]; intros k; simpl.
  - split; [|done]. intros _ p Hp. inversion Hp.
  - destruct (q text) as [mq|] eqn:Hq.
    + split; [discriminate|]. intros H.
      rewrite (H q) in Hq; [discriminate|left].
    + rewrite IH. split.
      * intros H p Hp. inversion Hp; subst; auto.
      * intros H p Hp. apply H. by right.
Qed.

Lemma first_match_in patterns k text i m :
  first_match patterns k text = Some (i, m) ->
  exists p, p ∈ patterns /\ p text = Some m.
Proof.
  rewrite first_match_Some. intros (j & p & _ & Hj & Hp & _).
  exists p. split; [|done]. by eapply list_elem_of_lookup_2.
Qed.

Lemma array_get_Some {A} (arr : list A) (a : Z) (x : A) :
  array_get arr a = Some x <-> 0 <= a /\ arr !! Z.to_nat a = Some x.
Proof.
  unfold array_get. destruct (Z.ltb_spec a 0); split; try done.
  - intros [? _]. lia.
  - intros [_ ?]. done.
Qed.

Lemma array_get_in {A} (arr : list A) (a : Z) (x : A) :
  array_get arr a = Some x -> x ∈ arr.
Proof.
  rewrite array_get_Some. intros [_ H]. by eapply list_elem_of_lookup_2.
Qed.

(** Whatever [select_match] selects is the image of a pattern of the mode
    at the text. *)
Lemma select_match_in tbl text h i m :
  select_match tbl text h = Normal (Some (i, m)) ->
  exists p, p ∈ allPatterns tbl /\ p text = Some m.
Proof.
  unfold select_match.
  destruct (first_match _ _ _) as [[i0 m0]|] eqn:Hfm; [|discriminate].
  apply first_match_in in Hfm. unfold longer_alt.
  destruct (truthy_idx _) as [a|]; [|intros [= <- <-]; done].
  destruct (array_get _ _) as [alt|] eqn:Ha; [|discriminate].
  destruct (alt text) as [ma|] eqn:Halt; [|intros [= <- <-]; done].
  destruct (_ <? _)%nat; intros [= <- <-]; [|done].
  exists alt. split; [|done]. by eapply array_get_in.
Qed.

Lemma select_match_None tbl text h :
  select_match tbl text h = Normal None <->
  forall p, p ∈ allPatterns tbl -> p text = None.
Proof.
  rewrite <- (first_match_None _ 0%nat). unfold select_match.
  destruct (first_match _ _ _) as [[i0 m0]|]; [|done].
  split; [|discriminate]. by destruct (longer_alt _ _ _ _ _).
Qed.


(** C6.  When the longer alternative of the matched pattern resolved to
    index 0 the guard [if (longerAltIdx)] fails: the body of the override
    is not run and the match is kept, whatever pattern 0 does at the text. *)
Theorem longer_alt_index_zero_is_unset tbl text h i m :
  mjoin (patternIdxToLongerAltIdx tbl !! i) = Some 0 ->
  truthy_idx (mjoin (patternIdxToLongerAltIdx tbl !! i)) = None
  /\ longer_alt tbl text h i m = Normal (i, m)
  /\ (first_match (allPatterns tbl) 0 text = Some (i, m) ->
      select_match tbl text h = Normal (Some (i, m))).
Proof.
  intros H0. unfold select_match, longer_alt. rewrite H0. simpl.
  split; [done|]. split; [done|]. intros ->. by rewrite H0.
Qed.

End Selection.

Section Positions.

Context {TokenConstructor : Type}.
Implicit Types (st : State TokenConstructor) (m : jsstring).

Lemma scan_lastLTIdx_spec m n :
  let r := scan_lastLTIdx m n in
  -1 <= r < Z.of_nat n
  /\ (0 <= r -> exists c, m !! Z.to_nat r = Some c /\ (c = 10 \/ c = 13))
  /\ (forall j c, r < Z.of_nat j < Z.of_nat n -> m !! j = Some c ->
        c <> 10 /\ c <> 13).
Proof.
  induction n as [|k IH]; simpl.
  - split; [lia|]. split; [lia|]. intros; lia.
  - destruct IH as (Hr & Hat & Hafter).
    assert (Hrec : -1 <= scan_lastLTIdx m k < Z.of_nat (S k)
      /\ (0 <= scan_lastLTIdx m k ->
          exists c, m !! Z.to_nat (scan_lastLTIdx m k) = Some c
                    /\ (c = 10 \/ c = 13))
      /\ (forall c, m !! k = Some c -> c <> 10 /\ c <> 13) ->
      forall j c, scan_lastLTIdx m k < Z.of_nat j < Z.of_nat (S k) ->
        m !! j = Some c -> c <> 10 /\ c <> 13).
    { intros (_ & _ & Hk) j c Hj Hc.
      destruct (decide (j = k)) as [->|]; [by apply Hk|].
      apply (Hafter j); [lia|done]. }
    destruct (m !! k) as [c|] eqn:Hk.
    + destruct ((c =? 13) || (c =? 10)) eqn:Hc.
      * split; [lia|]. split.
        -- intros _. exists c. rewrite Nat2Z.id. split; [done|]. lia.
        -- intros; lia.
      * split; [lia|]. split; [done|]. apply Hrec.
        split; [lia|]. split; [done|]. intros c' [= <-]. lia.
    + split; [lia|]. split; [done|]. apply Hrec.
      split; [lia|]. split; [done|]. discriminate.
Qed.

Lemma countLineTerminators_find m :
  countLineTerminators m <> 0 ->
  exists j c, m !! j = Some c /\ (c = 10 \/ c = 13).
Proof.
  induction m as [|c rest IH]; simpl; [done|].
  intros Hne. destruct (Z.eqb_spec c 10) as [->|].
  { exists 0%nat, 10. auto. }
  destruct (Z.eqb_spec c 13) as [->|].
  { exists 0%nat, 13. auto. }
  destruct IH as (j & c' & Hj & Hc'); [lia|].
  exists (S j), c'. auto.
Qed.

(** The index that the reverse scan finds is that of the last line feed or
    carriage return of an image that counts a line terminator. *)
Lemma find_lastLTIdx_spec m :
  countLineTerminators m <> 0 ->
  0 <= find_lastLTIdx m < Z.of_nat (length m)
  /\ (exists c, m !! Z.to_nat (find_lastLTIdx m) = Some c
                /\ (c = 10 \/ c = 13))
  /\ (forall j c, find_lastLTIdx m < Z.of_nat j -> m !! j = Some c ->
        c <> 10 /\ c <> 13).
Proof.
  intros Hne. unfold find_lastLTIdx.
  destruct (scan_lastLTIdx_spec m (length m)) as (Hr & Hat & Hafter).
  assert (0 <= scan_lastLTIdx m (length m)) as Hpos.
  { destruct (countLineTerminators_find m Hne) as (j & c & Hj & Hc).
    destruct (Z.le_gt_cases 0 (scan_lastLTIdx m (length m))); [done|].
    apply lookup_lt_Some in Hj as Hlt.
    destruct (Hafter j c); [lia|done|]. lia. }
  split; [lia|]. split; [auto|].
  intros j c Hj Hc. apply lookup_lt_Some in Hc as Hlt.
  apply (Hafter j); [lia|done].
Qed.

(** C3.  A non-skipped token of a pattern that can match line terminators,
    whose image of length [L] counts at least one: the line advances by the
    count and the column becomes [L - lastLTIdx], for [lastLTIdx] the index
    of the last line feed or carriage return of the image.  If the image
    counts exactly one terminator and ends with it, the token keeps the end
    position that its constructor gave it; otherwise its end line is the
    new line less one and its end column the new column when the last
    character is a terminator, and its end line the new line and its end
    column the new column less one when it is not. *)
Theorem multiline_token_end_position st i m g st' :
  mjoin (patternIdxToGroup (currMode st) !! i) = Some g ->
  patternIdxToCanLineTerminator (currMode st) !! i = Some true ->
  countLineTerminators m <> 0 ->
  consume st i m = Normal st' ->
  let L := Z.of_nat (length m) in
  let lastLTIdx := find_lastLTIdx m in
  (0 <= lastLTIdx < L
   /\ (exists c, m !! Z.to_nat lastLTIdx = Some c /\ (c = 10 \/ c = 13))
   /\ (forall j c, lastLTIdx < Z.of_nat j -> m !! j = Some c ->
         c <> 10 /\ c <> 13))
  /\ line st' = line st + countLineTerminators m
  /\ column st' = L - lastLTIdx
  /\ exists tokClass tok,
       patternIdxToClass (currMode st) !! i = Some tokClass
       /\ newToken st' = Some tok
       /\ (g = "default"%string ->
           matchedTokens st' = matchedTokens st ++ [tok])
       /\ (g <> "default"%string ->
           exists a, groups st !! g = Some a
                     /\ heap st' = heap_push (heap st) a tok)
       /\ image tok = m /\ startOffset tok = offset st
       /\ startLine tok = line st /\ startColumn tok = column st
       /\ (countLineTerminators m = 1 /\ lastLTIdx = L - 1 ->
           tok = new_Token tokClass m (offset st) (line st) (column st))
       /\ (~ (countLineTerminators m = 1 /\ lastLTIdx = L - 1) ->
           lastLTIdx = L - 1 ->
           endLine tok = line st' - 1 /\ endColumn tok = column st' - 1 + 1)
       /\ (lastLTIdx <> L - 1 ->
           endLine tok = line st' /\ endColumn tok = column st' - 1).
Proof.
  intros Hg Hlt Hcount Hc L lastLTIdx.
  split; [by apply find_lastLTIdx_spec|].
  unfold consume, track_lines in Hc. rewrite Hg, Hlt in Hc. simpl in Hc.
  destruct (Z.eqb_spec (countLineTerminators m) 0) as [|_]; [done|].
  fold L lastLTIdx in Hc.
  destruct (patternIdxToClass (currMode st) !! i) as [tokClass|];
    [|by destruct (negb _)].
  assert (Hcases :
    (countLineTerminators m = 1 /\ lastLTIdx = L - 1
     /\ (countLineTerminators m =? 1) && (lastLTIdx =? L - 1) = true)
    \/ (~ (countLineTerminators m = 1 /\ lastLTIdx = L - 1)
        /\ (countLineTerminators m =? 1) && (lastLTIdx =? L - 1) = false)).
  { destruct (Z.eqb_spec (countLineTerminators m) 1),
      (Z.eqb_spec lastLTIdx (L - 1)); simpl; intuition. }
  destruct Hcases as [(H1 & Hlast & Hb)|(Hn & Hb)]; rewrite Hb in Hc;
    simpl in Hc.
  - destruct (decide (g = "default"%string)) as [Hd|Hd].
    + injection Hc as <-. simpl. split; [done|]. split; [done|].
      eexists _, _. repeat split; try done; try (exfalso; tauto); lia.
    + destruct (groups st !! g) as [a|] eqn:Ha; [|done].
      injection Hc as <-. simpl. split; [done|]. split; [done|].
      eexists _, _. split; [done|]. split; [done|]. split; [done|].
      split; [intros _; by exists a|].
      repeat split; try done; try (exfalso; tauto); lia.
  - assert (Hends : forall tok,
      tok = set_end (new_Token tokClass m (offset st) (line st) (column st))
              (Some (line st + countLineTerminators m
                     + (if lastLTIdx =? L - 1 then -1 else 0),
                     L - lastLTIdx - 1
                     + - (if lastLTIdx =? L - 1 then -1 else 0))) ->
      image tok = m /\ startOffset tok = offset st
      /\ startLine tok = line st /\ startColumn tok = column st
      /\ (countLineTerminators m = 1 /\ lastLTIdx = L - 1 ->
          tok = new_Token tokClass m (offset st) (line st) (column st))
      /\ (~ (countLineTerminators m = 1 /\ lastLTIdx = L - 1) ->
          lastLTIdx = L - 1 ->
          endLine tok = line st + countLineTerminators m - 1
          /\ endColumn tok = L - lastLTIdx - 1 + 1)
      /\ (lastLTIdx <> L - 1 ->
          endLine tok = line st + countLineTerminators m
          /\ endColumn tok = L - lastLTIdx - 1)).
    { intros tok ->. simpl. do 4 (split; [done|]).
      split; [intros; exfalso; tauto|].
      destruct (Z.eqb_spec lastLTIdx (L - 1)); split; intros; lia. }
    destruct (decide (g = "default"%string)) as [Hd|Hd].
    + injection Hc as <-. simpl. split; [done|]. split; [done|].
      eexists _, _. split; [done|]. split; [done|].
      split; [done|]. split; [done|]. by apply Hends.
    + destruct (groups st !! g) as [a|] eqn:Ha; [|done].
      injection Hc as <-. simpl. split; [done|]. split; [done|].
      eexists _, _. split; [done|]. split; [done|].
      split; [done|]. split; [intros _; by exists a|]. by apply Hends.
Qed.

End Positions.

Section Recovery.

Context {TokenConstructor : Type}.
Implicit Types (st : State TokenConstructor) (lx : Lexer TokenConstructor).
Implicit Types (patterns : list RegExp) (text : jsstring).

Lemma dropped_is_line_end_spec c rest :
  dropped_is_line_end (c :: rest) = true <->
  c = 10 \/ (c = 13 /\ forall rest', rest <> 10 :: rest').
Proof.
  simpl. destruct (Z.eqb_spec c 10) as [->|Hn10]; simpl.
  { split; auto. }
  destruct (Z.eqb_spec c 13) as [->|Hn13]; simpl.
  - destruct rest as [|c1 rest]; simpl.
    + split; auto.
    + destruct (Z.eqb_spec c1 10) as [->|Hc1]; simpl.
      * split; [done|]. intros [|[_ H]]; [done|]. by destruct (H rest).
      * split; [|done]. intros _. right. split; [done|]. congruence.
  - split; [done|]. intros [|[]]; done.
Qed.

Lemma any_matches_false patterns text :
  any_matches patterns text = false <->
  forall p, p ∈ patterns -> p text = None.
Proof.
  unfold any_matches. induction patterns as [|q rest IH]; simpl.
  - split; [|done]. intros _ p Hp. inversion Hp.
  - rewrite orb_false_iff, IH. unfold test. split.
    + intros [Hq Hrest] p Hp. inversion Hp; subst; [|auto].
      by destruct (q text).
    + intros H. split.
      * rewrite (H q); [done|left].
      * intros p Hp. apply H. by right.
Qed.

Lemma any_matches_true patterns text :
  any_matches patterns text = true <->
  exists p m, p ∈ patterns /\ p text = Some m.
Proof.
  unfold any_matches. rewrite existsb_exists. unfold test. split.
  - intros (p & Hin & Hp). destruct (p text) as [m|] eqn:Hm; [|done].
    exists p, m. by rewrite list_elem_of_In.
  - intros (p & m & Hin & Hp). exists p. rewrite Hp.
    by rewrite <- list_elem_of_In.
Qed.

(** The recovery loop drops [k >= 1] characters: the patterns fail at every
    position passed on the way, and the loop stops at the first position
    where one matches, or at the end of the text. *)
Lemma resync_spec patterns text offset line column :
  text <> [] ->
  exists k, (1 <= k <= length text)%nat
    /\ resync patterns text offset line column
       = (drop k text, offset + Z.of_nat k,
          (skip_chars k text line column).1,
          (skip_chars k text line column).2)
    /\ (forall j, (1 <= j < k)%nat ->
          any_matches patterns (drop j text) = false)
    /\ (any_matches patterns (drop k text) = true \/ k = length text).
Proof.
  revert offset line column.
  induction text as [|c rest IH]; intros offset line column Hne; [done|].
  cbn [resync].
  destruct (any_matches patterns rest) eqn:Hany.
  - exists 1%nat. cbn [skip_chars length drop].
    split; [lia|]. split.
    + destruct (dropped_is_line_end (c :: rest)); simpl;
        repeat f_equal; lia.
    + split; [intros; lia|]. by left.
  - destruct rest as [|c1 rest1] eqn:Hrest.
    + exists 1%nat. cbn [skip_chars length drop]. split; [lia|]. split.
      * destruct (dropped_is_line_end [c]); simpl; repeat f_equal; lia.
      * split; [intros; lia|]. by right.
    + rewrite <- Hrest in *.
      assert (Hrest_ne : rest <> []) by (subst; done).
      set (lc := if dropped_is_line_end (c :: rest)
                 then (line + 1, 1) else (line, column + 1)).
      destruct (IH (offset + 1) lc.1 lc.2 Hrest_ne)
        as (k & Hk & Heq & Hfail & Hstop).
      exists (S k). cbn [length drop]. split; [lia|]. split.
      * replace (skip_chars (S k) (c :: rest) line column)
          with (skip_chars k rest lc.1 lc.2).
        2:{ unfold lc. cbn [skip_chars].
            by destruct (dropped_is_line_end (c :: rest)). }
        replace (offset + Z.of_nat (S k)) with (offset + 1 + Z.of_nat k)
          by lia.
        unfold lc in *. destruct (dropped_is_line_end (c :: rest));
          cbn [fst snd] in *; by rewrite Heq.
      * split.
        -- intros [|j] Hj; [lia|]. cbn [drop].
           destruct j as [|j]; [by rewrite drop_0|].
           apply Hfail. lia.
        -- destruct Hstop as [?| ->]; [by left|by right].
Qed.

(** A round of the main loop at a text that no pattern of the current mode
    matches: the recovery of [resync_spec], and one error record with the
    line and column at which skipping began and the number of characters
    skipped. *)
Lemma loop_body_recovery lx st :
  text st <> [] ->
  (forall p, p ∈ allPatterns (currMode st) -> p (text st) = None) ->
  exists k err st',
    loop_body lx st
    = Normal (ErrorSpan (offset st) (take k (text st)) err, st')
    /\ (1 <= k <= length (text st))%nat
    /\ text st' = drop k (text st)
    /\ offset st' = offset st + Z.of_nat k
    /\ (line st', column st')
       = skip_chars k (text st) (line st) (column st)
    /\ (forall j p, (1 <= j < k)%nat -> p ∈ allPatterns (currMode st) ->
          p (drop j (text st)) = None)
    /\ (k = length (text st)
        \/ exists p m, p ∈ allPatterns (currMode st)
                       /\ p (drop k (text st)) = Some m)
    /\ err = mkLexingError (line st) (column st) (Z.of_nat k)
               (unexpected_message (orgInput st) (offset st)
                  (offset st + Z.of_nat k))
    /\ errors st' = errors st ++ [err]
    /\ matchedTokens st' = matchedTokens st
    /\ heap st' = heap st /\ groups st' = groups st
    /\ currMode st' = currMode st /\ modeStack st' = modeStack st
    /\ newToken st' = newToken st /\ orgInput st' = orgInput st.
Proof.
  intros Hne Hnone.
  unfold loop_body.
  rewrite (proj2 (select_match_None (currMode st) (text st) (heap st)) Hnone).
  unfold error_span, on_no_match.
  destruct (resync_spec (allPatterns (currMode st)) (text st) (offset st)
              (line st) (column st) Hne) as (k & Hk & Heq & Hfail & Hstop).
  rewrite Heq. cbn [text offset errors line column matchedTokens heap groups
                    currMode modeStack newToken orgInput].
  eexists k, _, _. split.
  { rewrite last_snoc. cbn [default].
    replace (Z.to_nat (offset st + Z.of_nat k - offset st)) with k by lia.
    replace (offset st + Z.of_nat k - offset st) with (Z.of_nat k) by lia.
    reflexivity. }
  split; [done|]. split; [done|]. split; [done|].
  split; [by destruct (skip_chars _ _ _ _)|].
  split.
  { intros j p Hj Hp. specialize (Hfail j Hj).
    rewrite any_matches_false in Hfail. auto. }
  split.
  { destruct Hstop as [Hany|Hend]; [right|by left].
    by apply any_matches_true. }
  repeat split.
Qed.

End Recovery.

Section Rounds.

Context {TokenConstructor : Type}.
Implicit Types (st : State TokenConstructor) (lx : Lexer TokenConstructor).
Implicit Types (sp : Span TokenConstructor).
Implicit Types (trace : list (Span TokenConstructor)).
Implicit Types (h : list (list (Token TokenConstructor))).

Lemma same_scan_refl st : same_scan st st.
Proof. by repeat split. Qed.

Lemma read_tables_Normal lx st key tbl :
  read_tables lx st key = Normal tbl -> installed lx key tbl.
Proof.
  unfold read_tables, installed.
  destruct (tables lx !! key) as [tbl0|]; [intros [= <-]; by left|].
  destruct (inherited key) as [len|]; [|done].
  intros Hr. right. split; [done|]. split; [by eexists|].
  destruct (text st); [by injection Hr|].
  destruct (0 <? default 0 len); [done|by injection Hr].
Qed.

Lemma read_tables_Throw lx st key e h :
  read_tables lx st key = Throw e h -> e = TypeError /\ h = heap st.
Proof.
  unfold read_tables. destruct (tables lx !! key); [done|].
  destruct (inherited key) as [len|]; [|by intros [= <- <-]].
  destruct (text st); [done|].
  destruct (0 <? default 0 len); [by intros [= <- <-]|done].
Qed.

Lemma read_tables_own lx st key tbl :
  tables lx !! key = Some tbl -> read_tables lx st key = Normal tbl.
Proof. intros Htbl. unfold read_tables. by rewrite Htbl. Qed.

Lemma installed_own lx key tbl :
  is_Some (tables lx !! key) -> installed lx key tbl ->
  tables lx !! key = Some tbl.
Proof. intros [tbl0 Hown] [Ht|(Hnone & _)]; [done|congruence]. Qed.

Lemma installed_current_of lx key st :
  installed lx key (currMode st) -> current_of lx st.
Proof. intros [Ht|(_ & _ & Hno)]; [right; by eexists|by left]. Qed.

Lemma push_mode_Normal lx st newMode st' :
  push_mode lx st newMode = Normal st' ->
  same_scan st st' /\ errors st' = errors st
  /\ installed lx newMode (currMode st')
  /\ modeStack st' = modeStack st ++ [newMode].
Proof.
  unfold push_mode.
  destruct (read_tables lx st newMode) as [tbl|] eqn:Hr; [|done].
  apply read_tables_Normal in Hr. intros [= <-]. by repeat split.
Qed.

Lemma push_mode_Throw lx st newMode e h :
  push_mode lx st newMode = Throw e h -> e = TypeError /\ h = heap st.
Proof.
  unfold push_mode.
  destruct (read_tables lx st newMode) as [tbl|] eqn:Hr; [done|].
  intros [= <- <-]. by apply read_tables_Throw in Hr.
Qed.

Lemma push_mode_own lx st newMode tbl :
  tables lx !! newMode = Some tbl ->
  push_mode lx st newMode
  = Normal (mkState (orgInput st) (text st) (offset st) (matchedTokens st)
              (errors st) (line st) (column st) (groups st)
              tbl (modeStack st ++ [newMode]) (newToken st) (heap st)).
Proof. intros Htbl. unfold push_mode. by rewrite (read_tables_own _ _ _ tbl). Qed.

Lemma pop_mode_Normal lx st popToken st' :
  pop_mode lx st popToken = Normal st' ->
  same_scan st st'
  /\ ((length (modeStack st) = 1%nat
       /\ currMode st' = currMode st /\ modeStack st' = modeStack st
       /\ exists tok, popToken = Some tok
            /\ errors st' = errors st
                 ++ [mkLexingError (startLine tok) (startColumn tok)
                       (Z.of_nat (length (image tok))) (pop_message tok)])
      \/ (length (modeStack st) <> 1%nat
          /\ errors st' = errors st
          /\ modeStack st' = removelast (modeStack st)
          /\ installed lx (mode_key (last (modeStack st')))
               (currMode st'))).
Proof.
  unfold pop_mode. destruct (Nat.eqb_spec (length (modeStack st)) 1).
  - destruct popToken as [tok|]; [|done]. intros [= <-].
    split; [by repeat split|]. left. repeat split; try done. by exists tok.
  - destruct (read_tables lx st _) as [tbl|] eqn:Htbl; [|done].
    apply read_tables_Normal in Htbl. intros [= <-].
    split; [by repeat split|]. right. by repeat split.
Qed.

Lemma pop_mode_Throw lx st popToken e h :
  pop_mode lx st popToken = Throw e h -> e = TypeError /\ h = heap st.
Proof.
  unfold pop_mode. destruct (_ =? _)%nat.
  - destruct popToken; [done|]. by intros [= <- <-].
  - destruct (read_tables lx st _) as [tbl|] eqn:Hr; [done|].
    intros [= <- <-]. by apply read_tables_Throw in Hr.
Qed.

Lemma same_scan_trans st1 st2 st3 :
  same_scan st1 st2 -> same_scan st2 st3 -> same_scan st1 st3.
Proof.
  unfold same_scan. intros (?&?&?&?&?&?&?&?&?) (?&?&?&?&?&?&?&?&?).
  repeat split; congruence.
Qed.

(** The mode handling of a round touches the error list, the mode stack and
    the current tables only; the tables it installs are tables of the
    lexer, or the empty ones. *)
Lemma switch_modes_Normal lx st i st' :
  switch_modes lx st i = Normal st' ->
  same_scan st st'
  /\ (exists es, errors st' = errors st ++ es)
  /\ (currMode st' = currMode st \/ current_of lx st').
Proof.
  unfold switch_modes.
  destruct (default false (patternIdxToPopMode (currMode st) !! i)).
  - destruct (pop_mode lx st (newToken st)) as [st1|] eqn:Hpop; [|done].
    apply pop_mode_Normal in Hpop as (Hs1 & Hpop).
    assert (Herr1 : exists es, errors st1 = errors st ++ es).
    { destruct Hpop as [(_ & _ & _ & tok & _ & ->)|(_ & -> & _)];
        [by eexists|]. exists []. by rewrite app_nil_r. }
    assert (Hmode1 : currMode st1 = currMode st \/ current_of lx st1).
    { destruct Hpop as [(_ & -> & _)|(_ & _ & _ & Ht)]; [by left|].
      right. by eapply installed_current_of. }
    destruct (truthy_mode _) as [newMode|].
    + intros Hpush. apply push_mode_Normal in Hpush as (Hs2 & He & Ht & _).
      split; [by eapply same_scan_trans|]. split.
      * destruct Herr1 as [es Hes]. exists es. congruence.
      * right. by eapply installed_current_of.
    + intros [= <-]. done.
  - destruct (truthy_mode _) as [newMode|].
    + intros Hpush. apply push_mode_Normal in Hpush as (Hs2 & He & Ht & _).
      split; [done|]. split.
      * exists []. by rewrite app_nil_r.
      * right. by eapply installed_current_of.
    + intros [= <-]. split; [apply same_scan_refl|]. split; [|by left].
      exists []. by rewrite app_nil_r.
Qed.

Lemma switch_modes_Throw lx st i e h :
  switch_modes lx st i = Throw e h -> e = TypeError /\ h = heap st.
Proof.
  unfold switch_modes.
  destruct (default false (patternIdxToPopMode (currMode st) !! i)).
  - destruct (pop_mode lx st (newToken st)) as [st1|] eqn:Hpop.
    + apply pop_mode_Normal in Hpop as ((_&_&_&_&_&_&Hh&_) & _).
      destruct (truthy_mode _); [|done].
      intros Hp. apply push_mode_Throw in Hp as [-> ->]. done.
    + intros [= <- <-]. by apply pop_mode_Throw in Hpop.
  - destruct (truthy_mode _); [|done]. apply push_mode_Throw.
Qed.

(** What consuming the image does to the locals: the text loses as many
    characters as the image has, and a token is built and routed unless the
    group of the pattern is undefined. *)
Lemma consume_Normal st i m st1 :
  consume st i m = Normal st1 ->
  text st1 = drop (length m) (text st)
  /\ offset st1 = offset st + Z.of_nat (length m)
  /\ errors st1 = errors st /\ currMode st1 = currMode st
  /\ modeStack st1 = modeStack st /\ groups st1 = groups st
  /\ orgInput st1 = orgInput st
  /\ match mjoin (patternIdxToGroup (currMode st) !! i) with
     | None =>
         matchedTokens st1 = matchedTokens st /\ heap st1 = heap st
         /\ newToken st1 = newToken st
     | Some g =>
         exists tok, newToken st1 = Some tok
           /\ image tok = m /\ startOffset tok = offset st
           /\ startLine tok = line st /\ startColumn tok = column st
           /\ if decide (g = "default"%string)
              then matchedTokens st1 = matchedTokens st ++ [tok]
                   /\ heap st1 = heap st
              else matchedTokens st1 = matchedTokens st
                   /\ exists a, groups st !! g = Some a
                        /\ heap st1 = heap_push (heap st) a tok
     end.
Proof.
  unfold consume.
  destruct (track_lines _ _ _ _ _) as [[line' column'] fix_end].
  destruct (mjoin (patternIdxToGroup (currMode st) !! i)) as [g|].
  - destruct (patternIdxToClass (currMode st) !! i) as [tokClass|]; [|done].
    assert (Htok : forall tok,
      tok = set_end (new_Token tokClass m (offset st) (line st) (column st))
              fix_end ->
      image tok = m /\ startOffset tok = offset st
      /\ startLine tok = line st /\ startColumn tok = column st).
    { intros tok ->. by destruct fix_end as [[]|]. }
    destruct (decide (g = "default"%string)).
    + intros [= <-]. cbn. do 7 (split; [done|]).
      eexists. split; [done|]. by destruct (Htok _ eq_refl) as (?&?&?&?).
    + destruct (groups st !! g) as [a|]; [|done].
      intros [= <-]. cbn. do 7 (split; [done|]).
      eexists. split; [done|]. destruct (Htok _ eq_refl) as (?&?&?&?).
      do 4 (split; [done|]). split; [done|]. by exists a.
  - intros [= <-]. by repeat split.
Qed.

Lemma consume_Throw st i m e h :
  consume st i m = Throw e h -> e = TypeError /\ h = heap st.
Proof.
  unfold consume.
  destruct (track_lines _ _ _ _ _) as [[line' column'] fix_end].
  destruct (mjoin _) as [g|]; [|done].
  destruct (_ !! i) as [tokClass|]; [|by intros [= <- <-]].
  destruct (decide _); [done|].
  destruct (groups st !! g); [done|]. by intros [= <- <-].
Qed.

Lemma select_match_Throw (tbl : ModeTable TokenConstructor) text h e h' :
  select_match tbl text h = Throw e h' -> e = TypeError /\ h' = h.
Proof.
  unfold select_match, longer_alt.
  destruct (first_match _ _ _) as [[i m]|]; [|done].
  destruct (truthy_idx _); [|done].
  destruct (array_get _ _) as [alt|]; [|by intros [= <- <-]].
  destruct (alt text); [|done]. by destruct (_ <? _)%nat.
Qed.

(** The two ways in which a round ends normally. *)
Lemma loop_body_Normal lx st sp st' :
  loop_body lx st = Normal (sp, st') ->
  (exists i m st1,
      select_match (currMode st) (text st) (heap st) = Normal (Some (i, m))
      /\ consume st i m = Normal st1
      /\ switch_modes lx st1 i = Normal st'
      /\ sp = match_span st st' i m)
  \/ ((forall p, p ∈ allPatterns (currMode st) -> p (text st) = None)
      /\ st' = on_no_match st /\ sp = error_span st st').
Proof.
  unfold loop_body, on_match.
  destruct (select_match _ _ _) as [[[i m]|]|] eqn:Hsel; [| |done].
  - destruct (consume st i m) as [st1|] eqn:Hc; [|done].
    destruct (switch_modes lx st1 i) as [st2|] eqn:Hs; [|done].
    intros [= <- <-]. left. by exists i, m, st1.
  - intros [= <- <-]. right. split; [|done].
    by apply (select_match_None _ _ (heap st)).
Qed.

(** An exception thrown by a round leaves the heap as the round found it,
    but for the token that the round may have pushed to a bucket. *)
Lemma loop_body_Throw lx st e h :
  loop_body lx st = Throw e h ->
  e = TypeError
  /\ (h = heap st
      \/ exists g a tok, groups st !! g = Some a
           /\ h = heap_push (heap st) a tok).
Proof.
  unfold loop_body, on_match.
  destruct (select_match _ _ _) as [[[i m]|]|] eqn:Hsel.
  - destruct (consume st i m) as [st1|] eqn:Hc.
    + destruct (switch_modes lx st1 i) as [st2|] eqn:Hs; [done|].
      intros [= <- <-]. apply switch_modes_Throw in Hs as [-> ->].
      split; [done|].
      apply consume_Normal in Hc as (_&_&_&_&_&_&_&Hc).
      destruct (mjoin _) as [g|]; [|left; by destruct Hc as (_&->&_)].
      destruct Hc as (tok & _ & _ & _ & _ & _ & Hc).
      destruct (decide _); [left; by destruct Hc as [_ ->]|].
      destruct Hc as (_ & a & Ha & ->). right. by exists g, a, tok.
    + intros [= <- <-]. apply consume_Throw in Hc as [-> ->]. auto.
  - done.
  - intros [= <- <-]. apply select_match_Throw in Hsel as [-> ->]. auto.
Qed.

End Rounds.

Section Termination.

Context {TokenConstructor : Type}.
Implicit Types (st : State TokenConstructor) (lx : Lexer TokenConstructor).
Implicit Types (sp : Span TokenConstructor).
Implicit Types (trace : list (Span TokenConstructor)).

Lemma current_of_patterns lx (P : RegExp -> Prop) st p :
  every_pattern P lx -> current_of lx st ->
  p ∈ allPatterns (currMode st) -> P p.
Proof.
  intros Hall [Hno|[mode Hm]] Hp.
  - rewrite Hno in Hp. inversion Hp.
  - by eapply Hall.
Qed.

Lemma loop_body_current_of lx st sp st' :
  current_of lx st -> loop_body lx st = Normal (sp, st') ->
  current_of lx st'.
Proof.
  intros Hcur Hb. apply loop_body_Normal in Hb
    as [(i & m & st1 & _ & Hc & Hs & _)|(_ & -> & _)].
  - apply consume_Normal in Hc as (_&_&_&Hm&_).
    apply switch_modes_Normal in Hs as (_ & _ & [Hs|Hs]).
    + unfold current_of. by rewrite Hs, Hm.
    + done.
  - unfold current_of, on_no_match.
    by destruct (resync _ _ _ _ _) as [[[? ?] ?] ?].
Qed.

(** Every round consumes at least one character when no pattern of the
    current mode yields a zero-length match. *)
Lemma loop_body_consumes lx st sp st' :
  (forall p, p ∈ allPatterns (currMode st) -> never_empty p) ->
  text st <> [] ->
  loop_body lx st = Normal (sp, st') ->
  (length (text st') < length (text st))%nat.
Proof.
  intros Hne Htext Hb.
  destruct (loop_body_Normal _ _ _ _ Hb)
    as [(i & m & st1 & Hsel & Hc & Hs & _)|(Hnone & _ & _)].
  - apply select_match_in in Hsel as (p & Hp & Hm).
    apply (Hne p Hp) in Hm.
    apply consume_Normal in Hc as (Ht & _).
    apply switch_modes_Normal in Hs as ((Ht' & _) & _).
    rewrite Ht', Ht, length_drop.
    destruct m; [done|]. destruct (text st); [done|]. simpl. lia.
  - destruct (loop_body_recovery lx st Htext Hnone)
      as (k & err & st2 & Heq & Hk & Ht & _).
    rewrite Hb in Heq. injection Heq as _ <-.
    rewrite Ht, length_drop. lia.
Qed.

Lemma main_loop_terminates lx fuel st trace :
  every_pattern never_empty lx -> current_of lx st ->
  (length (text st) <= fuel)%nat ->
  exists c, main_loop lx fuel st trace = Some c.
Proof.
  intros Hne. revert st trace.
  induction fuel as [|fuel IH]; intros st trace Hcur Hlen.
  - destruct (text st) eqn:Ht; [|simpl in Hlen; lia].
    simpl. rewrite Ht. by eexists.
  - simpl. destruct (text st) as [|c rest] eqn:Ht; [by eexists|].
    destruct (loop_body lx st) as [[sp st']|e h] eqn:Hb; [|by eexists].
    apply IH.
    + by eapply loop_body_current_of.
    + assert (length (text st') < length (text st))%nat.
      { eapply loop_body_consumes; [|by rewrite Ht|done].
        intros p Hp. by eapply current_of_patterns. }
      rewrite Ht in *. simpl in *. lia.
Qed.

Lemma start_current_of lx input initialMode h st :
  start lx input initialMode h = Normal st ->
  current_of lx st /\ text st = input.
Proof.
  unfold start, cloneObj.
  intros Hp. apply push_mode_Normal in Hp as ((Ht & _) & _ & Htbl & _).
  split; [by eapply installed_current_of|done].
Qed.

Lemma tokenize_trace_terminates lx fuel input initialMode h :
  every_pattern never_empty lx ->
  (length input <= fuel)%nat ->
  exists c, tokenize_trace lx fuel input initialMode h = Some c.
Proof.
  intros Hne Hlen. unfold tokenize_trace.
  destruct (lexerDefinitionErrors lx); [|by eexists].
  destruct (start lx input initialMode h) as [st|e h'] eqn:Hst;
    [|by eexists].
  apply start_current_of in Hst as [Hcur Ht].
  destruct (main_loop_terminates lx fuel st [] Hne Hcur) as [c Hc];
    [by rewrite Ht|].
  rewrite Hc. destruct c as [[tr st']|]; by eexists.
Qed.

Lemma tokenize_terminates_with lx fuel input initialMode h :
  every_pattern never_empty lx ->
  (length input <= fuel)%nat ->
  exists c, tokenize lx fuel input initialMode h = Some c.
Proof.
  intros Hne Hlen. unfold tokenize.
  destruct (tokenize_trace_terminates lx fuel input initialMode h Hne Hlen)
    as [c ->].
  destruct c as [[[tr r] h']|]; by eexists.
Qed.

(** The selection does not depend on the heap. *)
Lemma select_match_heap (tbl : ModeTable TokenConstructor) text h h' r :
  select_match tbl text h = Normal r -> select_match tbl text h' = Normal r.
Proof.
  unfold select_match, longer_alt.
  destruct (first_match _ _ _) as [[i m]|]; [|done].
  destruct (truthy_idx _); [|done].
  destruct (array_get _ _) as [alt|]; [|done]. done.
Qed.

(** Whether consuming throws depends on the tables and the group object
    only. *)
Lemma consume_Normal_again st st2 i m m' st1 :
  consume st i m = Normal st1 ->
  currMode st2 = currMode st -> groups st2 = groups st ->
  exists st3, consume st2 i m' = Normal st3.
Proof.
  unfold consume. intros Hc -> ->.
  destruct (track_lines _ _ m _ _) as [[line1 column1] fix1].
  destruct (track_lines _ _ m' _ _) as [[line2 column2] fix2].
  destruct (mjoin _) as [g|]; [|by eexists].
  destruct (_ !! i) as [tokClass|]; [|done].
  destruct (decide _); [by eexists|].
  destruct (groups st !! g); [by eexists|done].
Qed.

(** A zero-length match selected at a pattern without mode directives
    leaves the text and the tables as they are: the next round selects it
    again, and the loop never ends. *)
Lemma zero_length_match_loops lx i fuel :
  forall st trace sp st',
  text st <> [] ->
  select_match (currMode st) (text st) (heap st) = Normal (Some (i, [])) ->
  default false (patternIdxToPopMode (currMode st) !! i) = false ->
  truthy_mode (mjoin (patternIdxToPushMode (currMode st) !! i)) = None ->
  loop_body lx st = Normal (sp, st') ->
  main_loop lx fuel st trace = None.
Proof.
  induction fuel as [|fuel IH]; intros st trace sp st' Ht Hsel Hpop Hpush Hb.
  - simpl. by destruct (text st).
  - simpl. destruct (text st) as [|c rest] eqn:Htext; [done|].
    rewrite Hb.
    assert (Hfacts : text st' = text st /\ currMode st' = currMode st
                     /\ groups st' = groups st
                     /\ exists st1, consume st i [] = Normal st1).
    { unfold loop_body, on_match in Hb. rewrite Htext, Hsel in Hb.
      destruct (consume st i []) as [st1|] eqn:Hc; [|done].
      apply consume_Normal in Hc as Hc'.
      destruct Hc' as (Ht1 & _ & _ & Hm1 & _ & Hg1 & _).
      unfold switch_modes in Hb. rewrite Hm1, Hpop in Hb.
      cbn beta iota in Hb. rewrite Hm1, Hpush in Hb.
      injection Hb as _ <-. rewrite Ht1, drop_0.
      repeat split; try done. by exists st1. }
    destruct Hfacts as (Ht' & Hm' & Hg' & st1 & Hc).
    assert (Hsel' : select_match (currMode st') (text st') (heap st')
                    = Normal (Some (i, []))).
    { rewrite Hm', Ht', Htext. by eapply select_match_heap. }
    destruct (consume_Normal_again st st' i [] [] st1 Hc Hm' Hg')
      as [st3 Hc3].
    assert (Hb' : exists sp' st'', loop_body lx st' = Normal (sp', st'')).
    { unfold loop_body, on_match. rewrite Hsel', Hc3.
      apply consume_Normal in Hc3 as (_ & _ & _ & Hm3 & _).
      unfold switch_modes. rewrite Hm3, Hm', Hpop. cbn beta iota.
      rewrite Hm3, Hm', Hpush. by eexists _, _. }
    destruct Hb' as (sp' & st'' & Hb').
    eapply IH; [| | | |exact Hb']; try done.
    + rewrite Ht', Htext. done.
    + by rewrite Hm'.
    + by rewrite Hm'.
Qed.

End Termination.

Section Accounting.

Context {TokenConstructor : Type}.
Implicit Types (st : State TokenConstructor) (lx : Lexer TokenConstructor).
Implicit Types (sp : Span TokenConstructor).
Implicit Types (trace : list (Span TokenConstructor)).
Implicit Types (h : list (list (Token TokenConstructor))).

Lemma tokens_of_app g trace1 trace2 :
  tokens_of g (trace1 ++ trace2) = tokens_of g trace1 ++ tokens_of g trace2.
Proof.
  induction trace1 as [|sp rest IH]; simpl; [done|].
  destruct sp as [g' tok| |]; [|done|done].
  destruct (decide (g' = g)); simpl; by rewrite IH.
Qed.

Lemma bucket_of_app g trace1 trace2 :
  bucket_of g (trace1 ++ trace2) = bucket_of g trace1 ++ bucket_of g trace2.
Proof.
  unfold bucket_of. destruct (decide _); [done|]. apply tokens_of_app.
Qed.

Lemma covered_snoc trace sp :
  covered (trace ++ [sp]) = covered trace ++ span_image sp.
Proof.
  unfold covered. rewrite map_app, concat_app. simpl. by rewrite app_nil_r.
Qed.

Lemma last_constructed_snoc trace sp :
  last_constructed (trace ++ [sp])
  = match last_constructed [sp] with
    | Some tok => Some tok
    | None => last_constructed trace
    end.
Proof.
  induction trace as [|sp0 rest IH]; simpl.
  - by destruct sp.
  - rewrite IH. simpl. by destruct sp.
Qed.

Lemma contiguous_snoc off trace sp :
  contiguous off (trace ++ [sp]) <->
  contiguous off trace
  /\ span_offset sp = off + Z.of_nat (length (covered trace))
  /\ span_image sp <> [].
Proof.
  revert off. induction trace as [|sp0 rest IH]; intros off; simpl.
  - unfold covered. simpl. rewrite Z.add_0_r. tauto.
  - rewrite IH. unfold covered. simpl. rewrite length_app, Nat2Z.inj_add.
    fold (covered rest). rewrite Z.add_assoc. tauto.
Qed.

Lemma contiguous_lower off trace :
  contiguous off trace -> Forall (fun sp => off <= span_offset sp) trace.
Proof.
  revert off. induction trace as [|sp rest IH]; intros off; simpl.
  - constructor.
  - intros (Ho & Hne & Hrest). constructor; [lia|].
    eapply Forall_impl; [by apply IH|]. simpl. intros; lia.
Qed.



Lemma heap_push_lookup h a tok a' :
  heap_push h a tok !! a'
  = if decide (a = a') then (fun arr => arr ++ [tok]) <$> h !! a'
    else h !! a'.
Proof.
  unfold heap_push. destruct (decide (a = a')) as [->|Hne].
  - apply list_lookup_alter_eq.
  - by apply list_lookup_alter_ne.
Qed.

(** What a round adds to the bookkeeping, for anchored patterns. *)
Lemma round_span lx st sp st' :
  (forall p, p ∈ allPatterns (currMode st) -> anchored p) ->
  text st <> [] ->
  loop_body lx st = Normal (sp, st') ->
  text st = span_image sp ++ text st'
  /\ span_offset sp = offset st
  /\ offset st' = offset st + Z.of_nat (length (span_image sp))
  /\ groups st' = groups st
  /\ matchedTokens st' = matchedTokens st ++ tokens_of "default" [sp]
  /\ (forall g a, groups st !! g = Some a ->
        (forall g', groups st !! g' = Some a -> g' = g) ->
        heap st' !! a
        = (fun arr => arr ++ bucket_of g [sp]) <$> heap st !! a)
  /\ newToken st' = match last_constructed [sp] with
                    | Some tok => Some tok
                    | None => newToken st
                    end
  /\ (exists es, errors st' = errors st ++ es)
  /\ (forall off img err, sp = ErrorSpan off img err ->
        err ∈ errors st' /\ err_length err = Z.of_nat (length img))
  /\ (forall g tok, sp = Emitted g tok ->
        g = "default"%string \/ is_Some (groups st !! g)).
Proof.
  intros Hanch Htext Hb.
  assert (Hid : forall a : nat,
            (fun arr : list (Token TokenConstructor) => arr ++ [])
              <$> heap st !! a = heap st !! a).
  { intros a. destruct (heap st !! a); simpl; [|done].
    by rewrite app_nil_r. }
  destruct (loop_body_Normal _ _ _ _ Hb)
    as [(i & m & st1 & Hsel & Hc & Hs & Hsp)|(Hnone & _ & _)].
  - apply select_match_in in Hsel as (p & Hp & Hm).
    destruct (Hanch p Hp _ _ Hm) as [rest Hrest].
    apply consume_Normal in Hc
      as (Ht1 & Ho1 & He1 & _ & _ & Hg1 & _ & Hgroup).
    apply switch_modes_Normal in Hs
      as ((Ht2 & Ho2 & _ & _ & Hmt2 & Hg2 & Hh2 & Hn2 & _) & [es Hes] & _).
    assert (Hdrop : text st' = rest).
    { rewrite Ht2, Ht1, Hrest. by rewrite drop_app_length. }
    unfold match_span in Hsp. rewrite Hn2 in Hsp.
    destruct (mjoin (patternIdxToGroup (currMode st) !! i)) as [g0|].
    + destruct Hgroup as (tok & Hn1 & Him & Hoff & _ & _ & Hroute).
      rewrite Hn1 in Hsp. subst sp. cbn [span_image span_offset].
      rewrite Him. split; [congruence|]. split; [done|].
      split; [lia|]. split; [congruence|].
      cbn [tokens_of last_constructed].
      destruct (decide (g0 = "default"%string)) as [->|Hnd].
      * destruct Hroute as [Hmt1 Hh1]. split; [congruence|]. split.
        { intros g a _ _. rewrite Hh2, Hh1. unfold bucket_of.
          destruct (decide (g = "default"%string)); [by rewrite Hid|].
          cbn [tokens_of].
          destruct (decide ("default"%string = g)); [done|by rewrite Hid]. }
        split; [congruence|]. split; [exists es; congruence|].
        split; [done|]. intros g tok' [= <- _]. by left.
      * destruct Hroute as (Hmt1 & a0 & Ha0 & Hh1).
        split; [rewrite app_nil_r; congruence|]. split.
        { intros g a Ha Hinj. rewrite Hh2, Hh1, heap_push_lookup.
          unfold bucket_of. cbn [tokens_of].
          destruct (decide (a0 = a)) as [->|Hne].
          - rewrite (Hinj g0 Ha0).
            destruct (decide (g = "default"%string)) as [->|_].
            + by rewrite (Hinj g0 Ha0) in Hnd.
            + destruct (decide (g = g)); done.
          - destruct (decide (g = "default"%string)); [by rewrite Hid|].
            destruct (decide (g0 = g)) as [->|]; [congruence|].
            by rewrite Hid. }
        split; [congruence|]. split; [exists es; congruence|].
        split; [done|]. intros g tok' [= <- _]. right. by eexists.
    + destruct Hgroup as (Hmt1 & Hh1 & Hn1). subst sp.
      cbn [span_image span_offset tokens_of last_constructed].
      split; [congruence|]. split; [done|]. split; [lia|].
      split; [congruence|]. split; [rewrite app_nil_r; congruence|].
      split.
      { intros g a _ _. rewrite Hh2, Hh1. unfold bucket_of.
        destruct (decide _); by rewrite Hid. }
      split; [congruence|]. split; [exists es; congruence|]. done.
  - destruct (loop_body_recovery lx st Htext Hnone)
      as (k & err & st2 & Heq & Hk & Ht & Ho & _ & _ & _ & Herr & Herrs
          & Hmt & Hh & Hg & _ & _ & Hn & _).
    rewrite Hb in Heq. injection Heq as -> <-.
    cbn [span_image span_offset tokens_of last_constructed].
    split; [by rewrite Ht, take_drop|]. split; [done|].
    rewrite length_take. split; [lia|]. split; [done|].
    split; [by rewrite app_nil_r|]. split.
    { intros g a _ _. rewrite Hh. unfold bucket_of.
      destruct (decide _); by rewrite Hid. }
    split; [done|]. split; [by eexists|]. split; [|done].
    intros off img err' [= <- <- <-]. split.
    + rewrite Herrs. apply elem_of_app. right. left.
    + rewrite Herr. cbn. rewrite length_take. lia.
Qed.

Lemma accounted_round lx input st trace sp st' :
  every_pattern anchored lx -> every_pattern never_empty lx ->
  current_of lx st -> accounted input st trace ->
  text st <> [] -> loop_body lx st = Normal (sp, st') ->
  accounted input st' (trace ++ [sp]).
Proof.
  intros Hanch Hne Hcur (Hcov & Hcont & Hoff & Hmt & Hnew & Herr & Hem)
    Htext Hb.
  assert (Hshrink : (length (text st') < length (text st))%nat).
  { eapply loop_body_consumes; [|done|done].
    intros p Hp. by eapply current_of_patterns. }
  destruct (round_span lx st sp st') as
    (Ht & Hso & Ho' & Hg' & Hmt' & Hh' & Hn' & [es Hes] & He' & Hem');
    [|done|done|].
  { intros p Hp. by eapply current_of_patterns. }
  assert (Himg : span_image sp <> []).
  { intros Hnil. rewrite Ht, Hnil in Hshrink. simpl in Hshrink. lia. }
  unfold accounted. rewrite covered_snoc.
  split; [by rewrite <- app_assoc, <- Ht|].
  split; [apply contiguous_snoc; repeat split; [done|lia|done]|].
  split; [rewrite length_app; lia|].
  split; [by rewrite tokens_of_app, Hmt', Hmt|].
  split; [by rewrite last_constructed_snoc, Hn', Hnew|].
  split.
  - intros off img err Hin. apply elem_of_app in Hin as [Hin|Hin].
    + destruct (Herr _ _ _ Hin) as [Hin' Hlen]. split; [|done].
      rewrite Hes. apply elem_of_app. by left.
    + apply list_elem_of_singleton in Hin. by eapply He'.
  - intros g tok Hin. rewrite Hg'. apply elem_of_app in Hin as [Hin|Hin].
    + by eapply Hem.
    + apply list_elem_of_singleton in Hin. by eapply Hem'.
Qed.

Lemma accounted_reaches lx input st trace st' trace' :
  every_pattern anchored lx -> every_pattern never_empty lx ->
  reaches lx st trace st' trace' ->
  current_of lx st -> accounted input st trace ->
  current_of lx st' /\ accounted input st' trace'.
Proof.
  intros Hanch Hne Hr.
  induction Hr as [|st trace sp st1 st' trace' Htext Hb Hr IH]; [done|].
  intros Hcur Hacc. apply IH.
  - by eapply loop_body_current_of.
  - by eapply accounted_round.
Qed.

Lemma main_loop_Normal lx fuel st trace trace' st' :
  main_loop lx fuel st trace = Some (Normal (trace', st')) ->
  reaches lx st trace st' trace' /\ text st' = [].
Proof.
  revert st trace. induction fuel as [|fuel IH]; intros st trace; simpl.
  - destruct (text st) eqn:Ht; [|done]. intros [= <- <-].
    split; [constructor|done].
  - destruct (text st) eqn:Ht.
    + intros [= <- <-]. split; [constructor|done].
    + destruct (loop_body lx st) as [[sp st1]|] eqn:Hb; [|done].
      intros Hrest. destruct (IH _ _ Hrest) as [Hr Hend]. split; [|done].
      eapply reaches_round; [|done|done]. by rewrite Ht.
Qed.

(** A call that returns went from the state of [start] to a state without
    text, and its result is read off that state. *)
Lemma tokenize_trace_Normal lx fuel input initialMode h trace r h' :
  tokenize_trace lx fuel input initialMode h = Some (Normal (trace, r, h')) ->
  lexerDefinitionErrors lx = []
  /\ exists st0 st',
       start lx input initialMode h = Normal st0
       /\ reaches lx st0 [] st' trace /\ text st' = []
       /\ r = mkLexingResult (matchedTokens st') (groups st') (errors st')
       /\ h' = heap st'.
Proof.
  unfold tokenize_trace. destruct (lexerDefinitionErrors lx); [|done].
  destruct (start lx input initialMode h) as [st0|] eqn:Hst; [|done].
  destruct (main_loop lx fuel st0 []) as [[[trace1 st']|]|] eqn:Hloop;
    [|done|done].
  intros [= <- <- <-]. split; [done|]. exists st0, st'.
  apply main_loop_Normal in Hloop as [Hr Hend]. by repeat split.
Qed.

(** The state in which the main loop starts: the group object of the call
    holds the buckets of the lexer. *)
Lemma start_Normal lx input initialMode h st :
  start lx input initialMode h = Normal st ->
  text st = input /\ offset st = 0 /\ line st = 1 /\ column st = 1
  /\ matchedTokens st = [] /\ errors st = [] /\ newToken st = None
  /\ orgInput st = input /\ current_of lx st
  /\ heap st = h /\ groups st = emptyGroups lx.
Proof.
  unfold start, cloneObj. intros Hp.
  apply push_mode_Normal in Hp
    as ((Ht & Ho & Hl & Hc & Hmt & Hg & Hh & Hn & Hi) & He & Htbl & _).
  cbn in *. repeat split; try done. by eapply installed_current_of.
Qed.

Lemma start_accounted lx input initialMode h st :
  start lx input initialMode h = Normal st ->
  current_of lx st /\ accounted input st [] /\ buckets_accounted h st []
  /\ heap st = h /\ groups st = emptyGroups lx.
Proof.
  intros Hst.
  apply start_Normal in Hst
    as (Ht & Ho & _ & _ & Hmt & _ & Hn & _ & Hcur & Hh & Hg).
  split; [done|]. split; [|split; [|done]].
  - unfold accounted, covered. simpl.
    split; [done|]. split; [done|]. split; [done|]. split; [done|].
    split; [done|]. split; intros; by rewrite ?elem_of_nil in *.
  - intros g a Ha. rewrite Hh. unfold bucket_of. simpl.
    destruct (h !! a); simpl; [|done].
    destruct (decide _); by rewrite app_nil_r.
Qed.

(** What a round does to the buckets: nothing, or it pushes the token that
    it emits to the bucket of the group of the token. *)
Lemma loop_body_push lx st sp st' :
  loop_body lx st = Normal (sp, st') ->
  groups st' = groups st
  /\ ((heap st' = heap st /\ forall g, bucket_of g [sp] = [])
      \/ exists g a tok,
           g <> "default"%string /\ groups st !! g = Some a
           /\ sp = Emitted g tok /\ heap st' = heap_push (heap st) a tok).
Proof.
  intros Hb. apply loop_body_Normal in Hb
    as [(i & m & st1 & _ & Hc & Hs & ->)|(_ & -> & ->)].
  - apply consume_Normal in Hc as (_&_&_&_&_&Hg1&_&Hc).
    apply switch_modes_Normal in Hs as ((_&_&_&_&_&Hg2&Hh2&Hn2&_) & _).
    split; [congruence|]. rewrite Hh2. unfold match_span. rewrite Hn2.
    destruct (mjoin _) as [g|].
    + destruct Hc as (tok & -> & _ & _ & _ & _ & Hc).
      destruct (decide (g = "default"%string)) as [->|Hnd].
      * left. destruct Hc as [_ ->]. split; [done|].
        intros g. unfold bucket_of. destruct (decide _); [done|].
        simpl. by destruct (decide _).
      * destruct Hc as (_ & a & Ha & ->). right. by exists g, a, tok.
    + left. destruct Hc as (_ & -> & _). split; [done|].
      intros g. unfold bucket_of. by destruct (decide _).
  - unfold on_no_match, error_span.
    destruct (resync _ _ _ _ _) as [[[? ?] ?] ?]. cbn.
    split; [done|]. left. split; [done|].
    intros g. unfold bucket_of. by destruct (decide _).
Qed.

Lemma loop_body_heap lx st sp st' :
  loop_body lx st = Normal (sp, st') ->
  groups st' = groups st
  /\ (heap st' = heap st
      \/ exists g a tok, groups st !! g = Some a
           /\ heap st' = heap_push (heap st) a tok).
Proof.
  intros Hb. apply loop_body_push in Hb
    as [Hg [[Hh _]|(g & a & tok & _ & Ha & _ & Hh)]].
  - split; [done|by left].
  - split; [done|]. right. by exists g, a, tok.
Qed.

Lemma reaches_groups lx st trace st' trace' :
  reaches lx st trace st' trace' -> groups st' = groups st.
Proof.
  induction 1 as [|st trace sp st1 st' trace' Ht Hb Hr IH]; [done|].
  rewrite IH. by apply loop_body_push in Hb as [Hg _].
Qed.

Lemma buckets_accounted_round lx h0 st trace sp st' :
  distinct_buckets (groups st) -> buckets_accounted h0 st trace ->
  loop_body lx st = Normal (sp, st') ->
  buckets_accounted h0 st' (trace ++ [sp]).
Proof.
  intros Hinj Hacc Hb g a Ha.
  apply loop_body_push in Hb
    as [Hg [[Hh Hnone]|(g0 & a0 & tok & Hnd & Ha0 & -> & Hh)]];
    rewrite Hg in Ha; rewrite Hh, bucket_of_app.
  - rewrite Hnone, app_nil_r. by apply Hacc.
  - assert (Hone : bucket_of g [Emitted g0 tok]
                   = if decide (g0 = g) then [tok] else []).
    { unfold bucket_of. cbn [tokens_of].
      destruct (decide (g = "default"%string)) as [->|_];
        destruct (decide (g0 = _)); done. }
    rewrite heap_push_lookup, (Hacc g a Ha), Hone.
    destruct (decide (a0 = a)) as [->|Hne].
    + rewrite (Hinj _ _ _ Ha Ha0). destruct (decide (g0 = g0)); [|done].
      destruct (h0 !! a); simpl; [|done]. by rewrite app_assoc.
    + destruct (decide (g0 = g)) as [->|_]; [congruence|].
      by rewrite app_nil_r.
Qed.

Lemma buckets_accounted_reaches lx h0 st trace st' trace' :
  reaches lx st trace st' trace' ->
  distinct_buckets (groups st) -> buckets_accounted h0 st trace ->
  buckets_accounted h0 st' trace'.
Proof.
  induction 1 as [|st trace sp st1 st' trace' Ht Hb Hr IH]; [done|].
  intros Hinj Hacc. apply IH.
  - by apply loop_body_push in Hb as [-> _].
  - by eapply buckets_accounted_round.
Qed.


End Accounting.

Section Sharing.

Context {TokenConstructor : Type}.
Implicit Types (st : State TokenConstructor) (lx : Lexer TokenConstructor).
Implicit Types (sp : Span TokenConstructor).
Implicit Types (trace : list (Span TokenConstructor)).
Implicit Types (h : list (list (Token TokenConstructor))).

(** The group object of a result holds the buckets of the lexer itself, and
    a call that returns leaves in the bucket of each group what the bucket
    held when the call began, followed by the tokens that the call sent to
    the group. *)
Lemma call_appends_to_buckets lx fuel input initialMode h trace r h' :
  distinct_buckets (emptyGroups lx) ->
  tokenize_trace lx fuel input initialMode h = Some (Normal (trace, r, h')) ->
  result_groups r = emptyGroups lx
  /\ forall g a, emptyGroups lx !! g = Some a ->
       h' !! a = (fun toks => toks ++ bucket_of g trace) <$> h !! a.
Proof.
  intros Hinj Hrun.
  apply tokenize_trace_Normal in Hrun
    as (_ & st & st' & Hst & Hr & _ & -> & ->).
  apply start_accounted in Hst as (_ & _ & Hbacc & Hh & Hg).
  pose proof (reaches_groups _ _ _ _ _ Hr) as Hgroups. cbn.
  split; [congruence|]. intros g a Ha.
  apply (buckets_accounted_reaches lx h _ _ _ _ Hr);
    [by rewrite Hg|done|by rewrite Hgroups, Hg].
Qed.

Lemma grown_from_refl h : grown_from h h.
Proof. intros a toks Ha. exists []. by rewrite app_nil_r. Qed.

Lemma grown_from_trans h1 h2 h3 :
  grown_from h1 h2 -> grown_from h2 h3 -> grown_from h1 h3.
Proof.
  intros Hg1 Hg2 a toks Ha. destruct (Hg1 a toks Ha) as [more1 H1].
  destruct (Hg2 a _ H1) as [more2 H2]. exists (more1 ++ more2).
  by rewrite app_assoc.
Qed.

Lemma heap_push_grown h a (tok : Token TokenConstructor) :
  grown_from h (heap_push h a tok).
Proof.
  intros a' toks Ha.
  rewrite heap_push_lookup, Ha. destruct (decide (a = a')); simpl.
  - by exists [tok].
  - exists []. by rewrite app_nil_r.
Qed.

Lemma main_loop_grown lx fuel st trace c :
  main_loop lx fuel st trace = Some c ->
  grown_from (heap st) match c with
                       | Normal (_, st') => heap st'
                       | Throw _ h' => h'
                       end.
Proof.
  revert st trace. induction fuel as [|fuel IH]; intros st trace; simpl.
  - destruct (text st); [|done]. intros [= <-]. apply grown_from_refl.
  - destruct (text st); [intros [= <-]; apply grown_from_refl|].
    destruct (loop_body lx st) as [[sp st1]|e h1] eqn:Hb.
    + intros Hrest. eapply grown_from_trans; [|by eapply IH].
      apply loop_body_heap in Hb as [_ [->|(g & a & tok & _ & ->)]];
        [apply grown_from_refl|apply heap_push_grown].
    + intros [= <-]. apply loop_body_Throw in Hb
        as (_ & [->|(g & a & tok & _ & ->)]);
        [apply grown_from_refl|apply heap_push_grown].
Qed.

(** A call, whether it returns or throws, only pushes to buckets. *)
Lemma tokenize_grown lx fuel input initialMode h c :
  tokenize lx fuel input initialMode h = Some c ->
  grown_from h (heap_after c).
Proof.
  unfold tokenize, tokenize_trace.
  destruct (lexerDefinitionErrors lx);
    [|intros [= <-]; apply grown_from_refl].
  destruct (start lx input initialMode h) as [st|e h1] eqn:Hst.
  - apply start_Normal in Hst as (_&_&_&_&_&_&_&_&_&Hh&_).
    destruct (main_loop lx fuel st []) as [c1|] eqn:Hloop; [|done].
    apply main_loop_grown in Hloop. rewrite Hh in Hloop.
    destruct c1 as [[trace st']|e h1]; by intros [= <-].
  - intros [= <-]. unfold start, cloneObj in Hst.
    apply push_mode_Throw in Hst as [_ ->]. apply grown_from_refl.
Qed.

Lemma run_calls_grown lx calls h h' :
  run_calls lx calls h = Some h' -> grown_from h h'.
Proof.
  revert h. induction calls as [|[[fuel input] initialMode] rest IH];
    intros h; simpl.
  - intros [= <-]. apply grown_from_refl.
  - destruct (tokenize lx fuel input initialMode h) as [c|] eqn:Hc; [|done].
    intros Hrest. eapply grown_from_trans; [by eapply tokenize_grown|].
    by apply IH.
Qed.

End Sharing.

Section ModeStack.

Context {TokenConstructor : Type}.
Implicit Types (st : State TokenConstructor) (lx : Lexer TokenConstructor).
Implicit Types (sp : Span TokenConstructor).
Implicit Types (trace : list (Span TokenConstructor)).

(** [newToken] after a round is the token that the round constructed, or
    the one it held before when the round constructed none. *)
Lemma loop_body_newToken lx st sp st' :
  loop_body lx st = Normal (sp, st') ->
  newToken st' = match last_constructed [sp] with
                 | Some tok => Some tok
                 | None => newToken st
                 end.
Proof.
  intros Hb. apply loop_body_Normal in Hb
    as [(i & m & st1 & _ & Hc & Hs & ->)|(_ & -> & ->)].
  - apply consume_Normal in Hc as (_&_&_&_&_&_&_&Hc).
    apply switch_modes_Normal in Hs as ((_&_&_&_&_&_&_&Hn&_) & _).
    unfold match_span. rewrite Hn.
    destruct (mjoin _) as [g|].
    + destruct Hc as (tok & -> & _). done.
    + destruct Hc as (_ & _ & ->). done.
  - unfold error_span, on_no_match.
    by destruct (resync _ _ _ _ _) as [[[? ?] ?] ?].
Qed.

(** In every state that a call reaches, [newToken] is the last token that
    the call constructed: that of the last round whose match was not
    skipped. *)
Lemma newToken_is_last_constructed lx input initialMode h st0 st trace :
  start lx input initialMode h = Normal st0 ->
  reaches lx st0 [] st trace ->
  newToken st = last_constructed trace.
Proof.
  intros Hst Hr.
  assert (H0 : newToken st0 = last_constructed []).
  { unfold start, cloneObj in Hst.
    by apply push_mode_Normal in Hst as ((_&_&_&_&_&_&_&->&_) & _). }
  clear Hst. revert H0.
  induction Hr as [|st trace sp st1 st' trace' Ht Hb Hr IH]; [done|].
  intros H0. apply IH. rewrite last_constructed_snoc.
  rewrite (loop_body_newToken _ _ _ _ Hb), H0. done.
Qed.

(** A skipped match whose pattern pops, on a mode stack of one mode: no
    token is constructed for the match, and [pop_mode] receives whatever
    [newToken] held before it. *)
Lemma skipped_pop_on_last_mode lx st i m :
  mjoin (patternIdxToGroup (currMode st) !! i) = None ->
  patternIdxToPopMode (currMode st) !! i = Some true ->
  length (modeStack st) = 1%nat ->
  (exists st1, consume st i m = Normal st1
     /\ newToken st1 = newToken st /\ matchedTokens st1 = matchedTokens st
     /\ heap st1 = heap st /\ errors st1 = errors st)
  /\ (newToken st = None -> on_match lx st i m = Throw TypeError (heap st))
  /\ (forall tok st', newToken st = Some tok ->
        on_match lx st i m = Normal st' ->
        errors st'
        = errors st ++ [mkLexingError (startLine tok) (startColumn tok)
                          (Z.of_nat (length (image tok)))
                          (pop_message tok)])
  /\ (forall tok, newToken st = Some tok ->
        truthy_mode (mjoin (patternIdxToPushMode (currMode st) !! i)) = None ->
        exists st', on_match lx st i m = Normal st').
Proof.
  intros Hg Hpop Hlen. unfold on_match.
  destruct (consume st i m) as [st1|e h] eqn:Hc.
  2:{ unfold consume in Hc. rewrite Hg in Hc.
      by destruct (track_lines _ _ _ _ _) as [[? ?] ?]. }
  apply consume_Normal in Hc as Hc'. rewrite Hg in Hc'.
  destruct Hc' as (_ & _ & He1 & Hm1 & Hms1 & _ & _ & Hmt1 & Hh1 & Hn1).
  split; [by exists st1|].
  unfold switch_modes, pop_mode. rewrite Hm1, Hpop, Hms1, Hlen, Hn1. cbn.
  split; [|split].
  - intros ->. by rewrite Hh1.
  - intros tok st' ->. cbn.
    destruct (truthy_mode _) as [newMode|].
    + intros Hp. apply push_mode_Normal in Hp as (_ & -> & _). cbn.
      by rewrite He1.
    + intros [= <-]. cbn. by rewrite He1.
  - intros tok -> Hpush. cbn. rewrite Hpush. by eexists.
Qed.

(** A token that is not skipped and whose pattern pops, on a mode stack of
    one mode: the round ends normally unless a push throws, the token is
    emitted, the stack and the tables stay, and the error record carries
    the position and the image length of the token. *)
Lemma emitted_pop_on_last_mode lx st i m g :
  mjoin (patternIdxToGroup (currMode st) !! i) = Some g ->
  patternIdxToPopMode (currMode st) !! i = Some true ->
  truthy_mode (mjoin (patternIdxToPushMode (currMode st) !! i)) = None ->
  length (modeStack st) = 1%nat ->
  forall st1, consume st i m = Normal st1 ->
  exists st' tok,
    on_match lx st i m = Normal st'
    /\ newToken st' = Some tok /\ image tok = m
    /\ matchedTokens st' = matchedTokens st1 /\ heap st' = heap st1
    /\ errors st'
       = errors st ++ [mkLexingError (line st) (column st)
                         (Z.of_nat (length m)) (pop_message tok)]
    /\ modeStack st' = modeStack st /\ currMode st' = currMode st
    /\ text st' = drop (length m) (text st).
Proof.
  intros Hg Hpop Hpush Hlen st1 Hc. unfold on_match. rewrite Hc.
  apply consume_Normal in Hc. rewrite Hg in Hc.
  destruct Hc as (Ht1 & _ & He1 & Hm1 & Hms1 & _ & _ & tok & Hn1 & Him
                  & _ & Hl & Hcol & _).
  unfold switch_modes, pop_mode. rewrite Hm1, Hpop, Hms1, Hlen, Hn1. cbn.
  rewrite Hpush. eexists _, tok. split; [done|]. cbn.
  rewrite He1, Hl, Hcol, Him. by repeat split.
Qed.

End ModeStack.

(** * Statements about whole calls *)

(** C4.  When no pattern of the current mode matches the remaining text,
    the round drops [k >= 1] characters one at a time, counting a new line
    at a line feed or at a carriage return that no line feed follows and a
    column otherwise; at no position passed on the way does a pattern
    match, and the round stops where one matches or at the end of the
    text.  It appends one error record, with the line and column at which
    skipping began and length [k].  With the catalog [/[a-z]+/] the input
    [abc!!def] gives the token [abc] at offset 0, one error for the span at
    offset 3 of length 2 at line 1, column 4, and the token [def] at offset
    5, line 1, column 6. *)
Theorem recovery_skips_to_next_match :
  (forall (TokenConstructor : Type) (lx : Lexer TokenConstructor) st,
     text st <> [] ->
     (forall p, p ∈ allPatterns (currMode st) -> p (text st) = None) ->
     exists k err st',
       loop_body lx st
       = Normal (ErrorSpan (offset st) (take k (text st)) err, st')
       /\ (1 <= k <= length (text st))%nat
       /\ text st' = drop k (text st)
       /\ offset st' = offset st + Z.of_nat k
       /\ (line st', column st')
          = skip_chars k (text st) (line st) (column st)
       /\ (forall j p, (1 <= j < k)%nat -> p ∈ allPatterns (currMode st) ->
             p (drop j (text st)) = None)
       /\ (k = length (text st)
           \/ exists p m, p ∈ allPatterns (currMode st)
                          /\ p (drop k (text st)) = Some m)
       /\ err = mkLexingError (line st) (column st) (Z.of_nat k)
                  (unexpected_message (orgInput st) (offset st)
                     (offset st + Z.of_nat k))
       /\ errors st' = errors st ++ [err]
       /\ matchedTokens st' = matchedTokens st)
  /\ (forall c rest,
        dropped_is_line_end (c :: rest) = true <->
        c = 10 \/ (c = 13 /\ forall rest', rest <> 10 :: rest'))
  /\ tokenize_trace words_lexer 10 (str "abc!!def") None []
     = Some (Normal
               ([Emitted "default"
                   (mkToken (str "abc") 0 1 1 1 3 "Word"%string);
                 ErrorSpan 3 (str "!!")
                   (mkLexingError 1 4 2
                      (unexpected_message (str "abc!!def") 3 5));
                 Emitted "default"
                   (mkToken (str "def") 5 1 6 1 8 "Word"%string)],
                mkLexingResult
                  [mkToken (str "abc") 0 1 1 1 3 "Word"%string;
                   mkToken (str "def") 5 1 6 1 8 "Word"%string]
                  ∅
                  [mkLexingError 1 4 2
                     (unexpected_message (str "abc!!def") 3 5)],
                [])).
Proof.
  split; [|split].
  - intros TokenConstructor lx st Htext Hnone.
    destruct (loop_body_recovery lx st Htext Hnone)
      as (k & err & st' & H1 & H2 & H3 & H4 & H5 & H6 & H7 & H8 & H9 & H10
          & _).
    exists k, err, st'. repeat split; (done || lia || auto).
  - intros c rest. apply dropped_is_line_end_spec.
  - vm_compute. reflexivity.
Qed.

(** C5, at the input on which the code departs from it.  The lexer has one
    mode and one token class, skipped and popping; the input is its single
    match.  The pop of the last mode is met with a type error: the call
    throws and no lexing error is recorded. *)
Theorem pop_of_last_mode_by_skipped_match_throws :
  forall fuel,
    tokenize closer_lexer (S fuel) (str ";") None []
    = Some (Throw TypeError []).
Proof. intros fuel. vm_compute. reflexivity. Qed.

(** The second way in which lines 333-340 depart from the pop-then-push of
    their comment: after a pop that succeeds, the mode pushed is read from
    the tables of the mode popped to.  [Swap] pops [inner] and should push
    [third], in which [d] is a [Digit]; [inner] is pushed again instead and
    [d] is an unexpected character. *)
Lemma pop_then_push_reads_restored_tables :
  observe <$> tokenize swap_lexer 5 (str "osd") None []
  = Some (inr (mkResultValue
                 [mkToken (str "o") 0 1 1 1 1 "Open"%string;
                  mkToken (str "s") 1 1 2 1 2 "Swap"%string]
                 ∅
                 [mkLexingError 1 3 1
                    (unexpected_message (str "osd") 2 3)])).
Proof. vm_compute. reflexivity. Qed.

(** C7.  A skipped match whose pattern pops, on a mode stack of one mode:
    no token is constructed for it, and the error record is built from
    [newToken], the last token that the call constructed.  If the call has
    constructed none, the round throws a type error.  So the call on [;]
    throws, and the call on [ab;] records the error of the pop at the
    position and with the length of the token [ab]. *)
Theorem skipped_pop_of_last_mode_reads_previous_token :
  (forall (TokenConstructor : Type) (lx : Lexer TokenConstructor) st i m,
     mjoin (patternIdxToGroup (currMode st) !! i) = None ->
     patternIdxToPopMode (currMode st) !! i = Some true ->
     length (modeStack st) = 1%nat ->
     (exists st1, consume st i m = Normal st1
        /\ newToken st1 = newToken st /\ matchedTokens st1 = matchedTokens st
        /\ heap st1 = heap st /\ errors st1 = errors st)
     /\ (newToken st = None ->
         on_match lx st i m = Throw TypeError (heap st))
     /\ (forall tok st', newToken st = Some tok ->
           on_match lx st i m = Normal st' ->
           errors st'
           = errors st ++ [mkLexingError (startLine tok) (startColumn tok)
                             (Z.of_nat (length (image tok)))
                             (pop_message tok)])
     /\ (forall tok, newToken st = Some tok ->
           truthy_mode (mjoin (patternIdxToPushMode (currMode st) !! i))
           = None ->
           exists st', on_match lx st i m = Normal st'))
  /\ (forall (TokenConstructor : Type) (lx : Lexer TokenConstructor)
        input initialMode h st0 st trace,
        start lx input initialMode h = Normal st0 ->
        reaches lx st0 [] st trace ->
        newToken st = last_constructed trace)
  /\ (forall fuel,
        tokenize closer_lexer (S fuel) (str ";") None []
        = Some (Throw TypeError []))
  /\ tokenize word_closer_lexer 2 (str "ab;") None []
     = Some (Normal
               (mkLexingResult
                  [mkToken (str "ab") 0 1 1 1 2 "Word"%string]
                  ∅
                  [mkLexingError 1 1 2
                     (pop_message
                        (mkToken (str "ab") 0 1 1 1 2 "Word"%string))],
                [])).
Proof.
  split; [|split; [|split]].
  - intros TokenConstructor lx st i m. apply skipped_pop_on_last_mode.
  - intros TokenConstructor lx input initialMode h st0 st trace.
    apply newToken_is_last_constructed.
  - intros fuel. vm_compute. reflexivity.
  - vm_compute. reflexivity.
Qed.

Section Construction.

Context {TokenConstructor : Type}.
Variable validatePatterns :
  list TokenConstructor -> list string ->
  list (ILexerDefinitionError TokenConstructor).
Variable analyzeTokenClasses :
  list TokenConstructor -> list (list (Token TokenConstructor)) ->
  AnalyzeResult TokenConstructor * list (list (Token TokenConstructor)).

(** The errors of the instance after the [forEach]: those it had, followed
    by those of every mode in turn. *)
Lemma fold_add_mode_errors allModeNames definition this h :
  lexerDefinitionErrors
    (fold_left (add_mode validatePatterns analyzeTokenClasses allModeNames)
       definition (this, h)).1
  = lexerDefinitionErrors this
    ++ concat (map (fun entry => validatePatterns (snd entry) allModeNames)
                 definition).
Proof.
  revert this h.
  induction definition as [|[name def] rest IH]; intros this h; simpl.
  - by rewrite app_nil_r.
  - destruct (lexerDefinitionErrors this ++ validatePatterns def allModeNames)
      as [|e errs] eqn:Herrs.
    + destruct (analyzeTokenClasses def h) as [r h'].
      rewrite IH. cbn. apply app_eq_nil in Herrs as [-> ->]. done.
    + rewrite IH. cbn [lexerDefinitionErrors].
      by rewrite <- Herrs, <- app_assoc.
Qed.

Lemma new_Lexer_errors lexerDefinition h :
  exists this h',
    fold_left
      (add_mode validatePatterns analyzeTokenClasses
         (map fst (mode_definitions lexerDefinition)))
      (mode_definitions lexerDefinition) (mkLexer [] [] ∅ ∅, h)
    = (this, h')
    /\ lexerDefinitionErrors this
       = all_definition_errors validatePatterns lexerDefinition.
Proof.
  destruct (fold_left _ _ _) as [this h'] eqn:Hfold. exists this, h'.
  split; [done|].
  pose proof (fold_add_mode_errors
                (map fst (mode_definitions lexerDefinition))
                (mode_definitions lexerDefinition) (mkLexer [] [] ∅ ∅) h)
    as Herrs.
  rewrite Hfold in Herrs. exact Herrs.
Qed.

End Construction.

(** C8.  When validation reports an error: without deferred handling the
    constructor throws an error whose message is the heading followed by
    the messages of all the definition errors, joined by the separator
    line; with deferred handling the constructor returns the instance, its
    field [lexerDefinitionErrors] holds all the errors, and every call of
    [tokenize] on it throws, whatever its fuel, text and initial mode, and
    leaves the heap as it found it. *)
Theorem definition_errors_throw_unless_deferred :
  forall (TokenConstructor : Type) validatePatterns analyzeTokenClasses
    (lexerDefinition : LexerDefinition TokenConstructor) h,
    all_definition_errors validatePatterns lexerDefinition <> [] ->
    (exists h',
       new_Lexer validatePatterns analyzeTokenClasses lexerDefinition false h
       = Throw
           (Error
              (str "Errors detected in definition of Lexer:" ++ LF
               ++ join (str "-----------------------" ++ LF)
                    (map def_message
                       (all_definition_errors validatePatterns
                          lexerDefinition))))
           h')
    /\ exists lx h',
         new_Lexer validatePatterns analyzeTokenClasses lexerDefinition true h
         = Normal (lx, h')
         /\ lexerDefinitionErrors lx
            = all_definition_errors validatePatterns lexerDefinition
         /\ forall fuel input initialMode h1,
              tokenize lx fuel input initialMode h1
              = Some
                  (Throw
                     (Error
                        (str "Unable to Tokenize because Errors detected in definition of Lexer:"
                         ++ LF
                         ++ join (str "-----------------------" ++ LF)
                              (map def_message
                                 (all_definition_errors validatePatterns
                                    lexerDefinition))))
                     h1).
Proof.
  intros TokenConstructor validatePatterns analyzeTokenClasses
    lexerDefinition h Herrs.
  destruct (new_Lexer_errors validatePatterns analyzeTokenClasses
              lexerDefinition h) as (this & h' & Hfold & Hthis).
  unfold new_Lexer. rewrite Hfold.
  destruct (lexerDefinitionErrors this) as [|e errs] eqn:He; [congruence|].
  split.
  - exists h'. cbn. unfold definition_errors_message.
    by rewrite Hthis, <- app_assoc.
  - exists this, h'. cbn. split; [done|]. split; [by rewrite He|].
    intros fuel input initialMode h1. unfold tokenize, tokenize_trace.
    rewrite He. unfold definition_errors_message.
    by rewrite Hthis, <- app_assoc.
Qed.

(** C9.  For a lexer no pattern of which yields a zero-length match, every
    round of the main loop, a match or a recovery, leaves a shorter text,
    and a call with fuel for the length of its input returns or throws.
    Without that, a round that selects a zero-length match of a pattern
    without mode directives is followed by the same round for ever: no
    amount of fuel ends the loop.  The catalog [/a*/] on the input [b] is
    such a call. *)
Theorem tokenize_terminates_unless_empty_match :
  (forall (TokenConstructor : Type) (lx : Lexer TokenConstructor),
     every_pattern never_empty lx ->
     (forall st sp st',
        current_of lx st -> text st <> [] ->
        loop_body lx st = Normal (sp, st') ->
        (length (text st') < length (text st))%nat)
     /\ (forall fuel input initialMode h,
           (length input <= fuel)%nat ->
           exists c, tokenize lx fuel input initialMode h = Some c))
  /\ (forall (TokenConstructor : Type) (lx : Lexer TokenConstructor)
        i st sp st',
        text st <> [] ->
        select_match (currMode st) (text st) (heap st)
        = Normal (Some (i, [])) ->
        default false (patternIdxToPopMode (currMode st) !! i) = false ->
        truthy_mode (mjoin (patternIdxToPushMode (currMode st) !! i))
        = None ->
        loop_body lx st = Normal (sp, st') ->
        forall fuel trace, main_loop lx fuel st trace = None)
  /\ (a_star [] = Some []
      /\ forall fuel, tokenize a_star_lexer fuel (str "b") None [] = None).
Proof.
  split; [|split; [|split]].
  - intros TokenConstructor lx Hne. split.
    + intros st sp st' Hcur Htext Hb.
      eapply loop_body_consumes; [|done|done].
      intros p Hp. by eapply current_of_patterns.
    + intros fuel input initialMode h Hlen.
      by apply tokenize_terminates_with.
  - intros TokenConstructor lx i st sp st' Htext Hsel Hpop Hpush Hb fuel
      trace.
    by eapply zero_length_match_loops.
  - reflexivity.
  - intros fuel. unfold tokenize, tokenize_trace.
    change (lexerDefinitionErrors a_star_lexer) with
      (@nil (ILexerDefinitionError string)). cbv iota.
    destruct (start a_star_lexer (str "b") None []) as [st|e h] eqn:Hst;
      [|vm_compute in Hst; discriminate].
    vm_compute in Hst. injection Hst as <-.
    rewrite (zero_length_match_loops a_star_lexer 0%nat fuel _ []
               (Emitted "default" (mkToken [] 0 1 1 1 0 "As"%string))
               (mkState [98] [98] 0 [mkToken [] 0 1 1 1 0 "As"%string] []
                  1 1 ∅ a_star_table ["default_mode"%string]
                  (Some (mkToken [] 0 1 1 1 0 "As"%string)) [])).
    + done.
    + done.
    + vm_compute. reflexivity.
    + reflexivity.
    + reflexivity.
    + vm_compute. reflexivity.
Qed.

(** C10, at the input on which the code departs from it.  The group object
    of a call is a copy of [emptyGroups] that holds the very buckets of the
    lexer, and line 293 pushes to them: a call that returns leaves in the
    bucket of each group what the bucket held, followed by the tokens that
    the call sent to the group.  With the class [Close] in the group
    [punct], the call on [;] leaves its token in the bucket of the lexer,
    and the same call made once more finds it there and returns two tokens
    in that group: the call modified the lexer, and the two calls do not
    return the same. *)
Theorem tokenize_pushes_to_lexer_buckets :
  (forall (TokenConstructor : Type) (lx : Lexer TokenConstructor)
     fuel input initialMode h trace r h',
     distinct_buckets (emptyGroups lx) ->
     tokenize_trace lx fuel input initialMode h
     = Some (Normal (trace, r, h')) ->
     result_groups r = emptyGroups lx
     /\ forall g a, emptyGroups lx !! g = Some a ->
          h' !! a = (fun toks => toks ++ bucket_of g trace) <$> h !! a)
  /\ tokenize grouped_lexer 1 (str ";") None [[]]
     = Some (Normal (mkLexingResult [] {[ "punct"%string := 0%nat ]} [],
                     [[close_token]]))
  /\ tokenize grouped_lexer 1 (str ";") None [[close_token]]
     = Some (Normal (mkLexingResult [] {[ "punct"%string := 0%nat ]} [],
                     [[close_token; close_token]]))
  /\ observe <$> tokenize grouped_lexer 1 (str ";") None [[]]
     = Some (inr (mkResultValue []
                    {[ "punct"%string := [close_token] ]} []))
  /\ observe <$> tokenize grouped_lexer 1 (str ";") None [[close_token]]
     = Some (inr (mkResultValue []
                    {[ "punct"%string := [close_token; close_token] ]} []))
  /\ run_calls grouped_lexer
       [(1%nat, str ";", None); (1%nat, str ";", None)] [[]]
     = Some [[close_token; close_token]].
Proof.
  split; [|split; [|split; [|split; [|split]]]].
  - intros TokenConstructor lx fuel input initialMode h trace r h'.
    apply call_appends_to_buckets.
  - vm_compute. reflexivity.
  - vm_compute. reflexivity.
  - vm_compute. reflexivity.
  - vm_compute. reflexivity.
  - vm_compute. reflexivity.
Qed.

(** * The sample lexers, and the statements at them *)

Lemma take_while_prefix f (s : jsstring) : take_while f s `prefix_of` s.
Proof.
  induction s as [|c rest IH]; simpl; [done|].
  destruct (f c); [by apply prefix_cons|apply prefix_nil].
Qed.

Lemma lower_run_anchored : anchored lower_run.
Proof.
  intros text m. unfold lower_run.
  pose proof (take_while_prefix
                (fun c => (97 <=? c) && (c <=? 122)) text) as Hpre.
  destruct (take_while _ text); [done|]. by intros [= <-].
Qed.

Lemma lower_run_never_empty : never_empty lower_run.
Proof.
  intros text m. unfold lower_run.
  destruct (take_while _ text); [done|]. by intros [= <-].
Qed.

Lemma words_lexer_patterns (P : RegExp -> Prop) :
  P lower_run -> every_pattern P words_lexer.
Proof.
  intros HP mode tbl p Hmode Hp.
  unfold words_lexer, single_mode in Hmode. cbn [tables] in Hmode.
  apply lookup_singleton_Some in Hmode as [_ <-].
  apply list_elem_of_singleton in Hp. by subst.
Qed.

Lemma semicolon_anchored : anchored semicolon.
Proof.
  intros text m. unfold semicolon.
  destruct text as [|c rest]; [done|].
  destruct (decide (c = 59)) as [->|Hne].
  - intros [= <-]. by exists rest.
  - destruct c as [|p|p]; try done.
    do 6 (destruct p as [p|p|]; try done).
Qed.

Lemma semicolon_never_empty : never_empty semicolon.
Proof.
  intros text m. unfold semicolon.
  destruct text as [|c rest]; [done|].
  destruct c as [|p|p]; try done.
  do 6 (destruct p as [p|p|]; try done). by intros [= <-].
Qed.

Lemma grouped_lexer_patterns (P : RegExp -> Prop) :
  P lower_run -> P semicolon -> every_pattern P grouped_lexer.
Proof.
  intros Hl Hs mode tbl p Hmode Hp.
  unfold grouped_lexer in Hmode. cbn [tables] in Hmode.
  apply lookup_singleton_Some in Hmode as [_ <-]. cbn in Hp.
  apply elem_of_cons in Hp as [->|Hp]; [done|].
  apply list_elem_of_singleton in Hp. by subst.
Qed.

Lemma grouped_lexer_allocated : lexer_allocated [[]] grouped_lexer.
Proof.
  intros g a Ha. unfold grouped_lexer in Ha. cbn [emptyGroups] in Ha.
  apply lookup_singleton_Some in Ha as [_ <-]. simpl. lia.
Qed.

Lemma grouped_lexer_buckets_empty : buckets_empty [[]] grouped_lexer.
Proof.
  intros g a Ha. unfold grouped_lexer in Ha. cbn [emptyGroups] in Ha.
  by apply lookup_singleton_Some in Ha as [_ <-].
Qed.

Lemma grouped_lexer_distinct_buckets :
  distinct_buckets (emptyGroups grouped_lexer).
Proof.
  intros g g' a Hg Hg'. unfold grouped_lexer in Hg, Hg'.
  cbn [emptyGroups] in Hg, Hg'.
  apply lookup_singleton_Some in Hg as [<- _].
  by apply lookup_singleton_Some in Hg' as [<- _].
Qed.



Lemma longer_alt_index_zero_is_unset_witness :
  mjoin (patternIdxToLongerAltIdx identifier_first_table !! 1%nat) = Some 0
  /\ longer_alt identifier_first_table (str "do")
       (@nil (list (Token string))) 1 (str "do")
     = Normal (1%nat, str "do").
Proof.
  assert (H0 : mjoin (patternIdxToLongerAltIdx identifier_first_table
                        !! 1%nat) = Some 0) by reflexivity.
  split; [exact H0|].
  exact (proj1 (proj2 (longer_alt_index_zero_is_unset
                         identifier_first_table (str "do") [] 1%nat
                         (str "do") H0))).
Defined.

Lemma multiline_token_end_position_witness :
  exists st',
    mjoin (patternIdxToGroup
             (currMode (state_at comment_table [97; 10; 98])) !! 0%nat)
    = Some "default"%string
    /\ patternIdxToCanLineTerminator
         (currMode (state_at comment_table [97; 10; 98])) !! 0%nat
       = Some true
    /\ countLineTerminators [97; 10; 98] <> 0
    /\ consume (state_at comment_table [97; 10; 98]) 0 [97; 10; 98]
       = Normal st'
    /\ line st' = 2 /\ column st' = 2.
Proof.
  destruct (consume (state_at comment_table [97; 10; 98]) 0 [97; 10; 98])
    as [st'|e h] eqn:Hc; [|vm_compute in Hc; discriminate].
  exists st'.
  assert (H1 : mjoin (patternIdxToGroup
                        (currMode (state_at comment_table [97; 10; 98]))
                        !! 0%nat) = Some "default"%string) by reflexivity.
  assert (H2 : patternIdxToCanLineTerminator
                 (currMode (state_at comment_table [97; 10; 98])) !! 0%nat
               = Some true) by reflexivity.
  assert (H3 : countLineTerminators [97; 10; 98] <> 0)
    by (vm_compute; discriminate).
  split; [exact H1|]. split; [exact H2|]. split; [exact H3|].
  split; [reflexivity|].
  destruct (multiline_token_end_position
              (state_at comment_table [97; 10; 98]) 0%nat [97; 10; 98]
              "default"%string st' H1 H2 H3 Hc) as (_ & Hl & Hcol & _).
  split; [exact Hl|exact Hcol].
Defined.

Lemma recovery_skips_to_next_match_witness :
  text (state_at words_table (str "!!def")) <> []
  /\ (forall p, p ∈ allPatterns (currMode (state_at words_table (str "!!def"))) ->
        p (text (state_at words_table (str "!!def"))) = None)
  /\ exists k err st',
       loop_body words_lexer (state_at words_table (str "!!def"))
       = Normal (ErrorSpan 0 (take k (str "!!def")) err, st')
       /\ text st' = drop k (str "!!def")
       /\ err_length err = Z.of_nat k.
Proof.
  assert (H1 : text (state_at words_table (str "!!def")) <> [])
    by (vm_compute; discriminate).
  assert (H2 : forall p,
            p ∈ allPatterns (currMode (state_at words_table (str "!!def"))) ->
            p (text (state_at words_table (str "!!def"))) = None).
  { intros p Hp. apply list_elem_of_singleton in Hp. subst p. reflexivity. }
  split; [exact H1|]. split; [exact H2|].
  destruct (proj1 recovery_skips_to_next_match string words_lexer
              (state_at words_table (str "!!def")) H1 H2)
    as (k & err & st' & Hb & _ & Ht & _ & _ & _ & _ & Herr & _).
  exists k, err, st'. split; [exact Hb|]. split; [exact Ht|].
  rewrite Herr. reflexivity.
Defined.

Lemma skipped_pop_of_last_mode_reads_previous_token_witness :
  mjoin (patternIdxToGroup (currMode (state_at closer_table (str ";")))
           !! 0%nat) = None
  /\ patternIdxToPopMode (currMode (state_at closer_table (str ";")))
       !! 0%nat = Some true
  /\ length (modeStack (state_at closer_table (str ";"))) = 1%nat
  /\ newToken (state_at closer_table (str ";")) = None
  /\ on_match closer_lexer (state_at closer_table (str ";")) 0 (str ";")
     = Throw TypeError [].
Proof.
  assert (H1 : mjoin (patternIdxToGroup
                        (currMode (state_at closer_table (str ";")))
                        !! 0%nat) = None) by reflexivity.
  assert (H2 : patternIdxToPopMode
                 (currMode (state_at closer_table (str ";"))) !! 0%nat
               = Some true) by reflexivity.
  assert (H3 : length (modeStack (state_at closer_table (str ";")))
               = 1%nat) by reflexivity.
  assert (H4 : newToken (state_at closer_table (str ";")) = None)
    by reflexivity.
  repeat (split; [assumption|]).
  exact (proj1 (proj2 (proj1 skipped_pop_of_last_mode_reads_previous_token
                         string closer_lexer
                         (state_at closer_table (str ";")) 0%nat (str ";")
                         H1 H2 H3)) H4).
Defined.

Lemma definition_errors_throw_unless_deferred_witness :
  all_definition_errors sample_validatePatterns
    (SingleMode ["A"%string; "B"%string]) <> []
  /\ exists lx h',
       new_Lexer sample_validatePatterns sample_analyzeTokenClasses
         (SingleMode ["A"%string; "B"%string]) true []
       = Normal (lx, h')
       /\ exists msg, tokenize lx 0 (str "a") None []
                      = Some (Throw (Error msg) []).
Proof.
  assert (H1 : all_definition_errors sample_validatePatterns
                 (SingleMode ["A"%string; "B"%string]) <> [])
    by (vm_compute; discriminate).
  split; [exact H1|].
  destruct (proj2 (definition_errors_throw_unless_deferred string
                     sample_validatePatterns sample_analyzeTokenClasses
                     (SingleMode ["A"%string; "B"%string]) [] H1))
    as (lx & h' & Hnew & _ & Htok).
  exists lx, h'. split; [exact Hnew|]. eexists. apply Htok.
Defined.

Lemma tokenize_terminates_unless_empty_match_witness :
  every_pattern never_empty words_lexer
  /\ ((length (str "abc!!def") <= 8)%nat
      /\ exists c, tokenize words_lexer 8 (str "abc!!def") None [] = Some c)
  /\ (text (state_at a_star_table (str "b")) <> []
      /\ select_match (currMode (state_at a_star_table (str "b")))
           (text (state_at a_star_table (str "b")))
           (heap (state_at a_star_table (str "b")))
         = Normal (Some (0%nat, []))
      /\ main_loop a_star_lexer 1000 (state_at a_star_table (str "b")) []
         = None).
Proof.
  assert (H1 : every_pattern never_empty words_lexer)
    by exact (words_lexer_patterns never_empty lower_run_never_empty).
  assert (H2 : (length (str "abc!!def") <= 8)%nat) by (vm_compute; lia).
  assert (H3 : text (state_at a_star_table (str "b")) <> [])
    by (vm_compute; discriminate).
  assert (H4 : select_match (currMode (state_at a_star_table (str "b")))
                 (text (state_at a_star_table (str "b")))
                 (heap (state_at a_star_table (str "b")))
               = Normal (Some (0%nat, []))) by reflexivity.
  split; [exact H1|]. split.
  - split; [exact H2|].
    exact (proj2 (proj1 tokenize_terminates_unless_empty_match string
                    words_lexer H1) 8%nat (str "abc!!def") None [] H2).
  - split; [exact H3|]. split; [exact H4|].
    destruct (loop_body a_star_lexer (state_at a_star_table (str "b")))
      as [[sp st']|e h] eqn:Hb; [|vm_compute in Hb; discriminate].
    exact (proj1 (proj2 tokenize_terminates_unless_empty_match) string
             a_star_lexer 0%nat (state_at a_star_table (str "b")) sp st'
             H3 H4 eq_refl eq_refl Hb 1000%nat []).
Defined.

Lemma tokenize_pushes_to_lexer_buckets_witness :
  distinct_buckets (emptyGroups grouped_lexer)
  /\ exists trace r h',
       tokenize_trace grouped_lexer 1 (str ";") None [[close_token]]
       = Some (Normal (trace, r, h'))
       /\ result_groups r = emptyGroups grouped_lexer
       /\ h' !! 0%nat
          = (fun toks => toks ++ bucket_of "punct" trace)
              <$> [[close_token]] !! 0%nat.
Proof.
  split; [exact grouped_lexer_distinct_buckets|].
  destruct (tokenize_trace grouped_lexer 1 (str ";") None [[close_token]])
    as [[[[trace r] h']|]|] eqn:Hrun;
    [|vm_compute in Hrun; discriminate|vm_compute in Hrun; discriminate].
  exists trace, r, h'. split; [reflexivity|].
  destruct (proj1 tokenize_pushes_to_lexer_buckets string grouped_lexer
              1%nat (str ";") None [[close_token]] trace r h'
              grouped_lexer_distinct_buckets Hrun) as [Hg Hb].
  split; [exact Hg|]. exact (Hb "punct"%string 0%nat eq_refl).
Defined.

(** * Further properties of the engine *)

Section ModeStackInvariant.

Context {TokenConstructor : Type}.
Implicit Types (st : State TokenConstructor) (lx : Lexer TokenConstructor).
Implicit Types (sp : Span TokenConstructor).
Implicit Types (trace : list (Span TokenConstructor)).
Implicit Types (h : list (list (Token TokenConstructor))).

Lemma push_mode_stack_ok lx st newMode st' :
  (forall m, m ∈ modeStack st -> is_Some (tables lx !! m)) ->
  is_Some (tables lx !! newMode) ->
  push_mode lx st newMode = Normal st' -> stack_ok lx st'.
Proof.
  intros Hall Hown Hp.
  apply push_mode_Normal in Hp as (_ & _ & Htbl & Hms).
  apply installed_own in Htbl; [|done]. split.
  - intros m Hm. rewrite Hms in Hm. apply elem_of_app in Hm as [Hm|Hm].
    + by apply Hall.
    + apply list_elem_of_singleton in Hm. by subst.
  - exists newMode. by rewrite Hms, last_snoc.
Qed.

Lemma removelast_snoc {A} (l : list A) x : removelast (l ++ [x]) = l.
Proof. rewrite removelast_app by done. simpl. by rewrite app_nil_r. Qed.

Lemma pop_mode_stack_ok lx st popToken st' :
  stack_ok lx st -> pop_mode lx st popToken = Normal st' -> stack_ok lx st'.
Proof.
  intros [Hall (top & Htop & Htbl)] Hp.
  apply pop_mode_Normal in Hp as (_ & [(_ & Hm & Hms & _)|(Hlen & _ & Hms & Ht)]).
  - unfold stack_ok. rewrite Hm, Hms. split; [done|]. by exists top.
  - apply last_Some in Htop as [ms Heq].
    rewrite Heq, removelast_snoc in Hms.
    destruct ms as [|m0 ms0] using rev_ind.
    { rewrite Heq in Hlen. done. }
    clear IHms0.
    assert (Hall' : forall m, m ∈ modeStack st' -> is_Some (tables lx !! m)).
    { intros m Hm. apply Hall. rewrite Heq, <- Hms.
      apply elem_of_app. by left. }
    split; [done|].
    rewrite Hms in Ht. rewrite last_snoc in Ht. simpl in Ht.
    exists m0. rewrite Hms, last_snoc. split; [done|].
    apply installed_own; [|done]. apply Hall'. rewrite Hms.
    apply elem_of_app. right. left.
Qed.

Lemma switch_modes_stack_ok lx st i st' :
  pushes_are_modes lx ->
  stack_ok lx st -> switch_modes lx st i = Normal st' -> stack_ok lx st'.
Proof.
  intros Hpm Hok. unfold switch_modes.
  assert (Hpush : forall s, stack_ok lx s ->
    match truthy_mode (mjoin (patternIdxToPushMode (currMode s) !! i)) with
    | Some newMode => push_mode lx s newMode
    | None => Normal s
    end = Normal st' -> stack_ok lx st').
  { intros s Hs. destruct (truthy_mode _) as [newMode|] eqn:Hnm.
    - destruct Hs as (Hall & top & _ & Htbl).
      apply push_mode_stack_ok; [done|]. by eapply Hpm.
    - by intros [= <-]. }
  destruct (default false _); [|by apply Hpush].
  destruct (pop_mode lx st (newToken st)) as [s|] eqn:Hpop; [|done].
  apply Hpush. by eapply pop_mode_stack_ok.
Qed.

Lemma loop_body_stack_ok lx st sp st' :
  pushes_are_modes lx ->
  stack_ok lx st -> loop_body lx st = Normal (sp, st') -> stack_ok lx st'.
Proof.
  intros Hpm Hok Hb. apply loop_body_Normal in Hb
    as [(i & m & st1 & _ & Hc & Hs & _)|(_ & -> & _)].
  - apply consume_Normal in Hc as (_&_&_&Hm&Hms&_).
    eapply switch_modes_stack_ok; [done| |done].
    unfold stack_ok. by rewrite Hm, Hms.
  - unfold stack_ok, on_no_match.
    by destruct (resync _ _ _ _ _) as [[[? ?] ?] ?].
Qed.

Lemma start_stack_ok lx input initialMode h st :
  is_Some (tables lx !! first_mode lx initialMode) ->
  start lx input initialMode h = Normal st -> stack_ok lx st.
Proof.
  intros Hown. unfold start, cloneObj.
  apply push_mode_stack_ok; [|done]. cbn. intros m Hm.
  by apply elem_of_nil in Hm.
Qed.

Lemma reaches_stack_ok lx st trace st' trace' :
  pushes_are_modes lx ->
  reaches lx st trace st' trace' -> stack_ok lx st -> stack_ok lx st'.
Proof.
  intros Hpm.
  induction 1 as [|st trace sp st1 st' trace' Ht Hb Hr IH]; [done|].
  intros Hok. apply IH. by eapply loop_body_stack_ok.
Qed.

Lemma well_formed_pushes lx : well_formed lx -> pushes_are_modes lx.
Proof.
  intros Hwf mode tbl i newMode Htbl Hnm.
  destruct (Hwf _ _ Htbl) as (_ & _ & _ & Hmodes). by eapply Hmodes.
Qed.

(** The mode at the bottom of the stack stays where it is. *)
Lemma switch_modes_bottom lx st i st' bottom :
  head (modeStack st) = Some bottom ->
  switch_modes lx st i = Normal st' -> head (modeStack st') = Some bottom.
Proof.
  intros Hhead. unfold switch_modes.
  assert (Hpush : forall s, head (modeStack s) = Some bottom ->
    match truthy_mode (mjoin (patternIdxToPushMode (currMode s) !! i)) with
    | Some newMode => push_mode lx s newMode
    | None => Normal s
    end = Normal st' -> head (modeStack st') = Some bottom).
  { intros s Hs. destruct (truthy_mode _) as [newMode|].
    - intros Hp. apply push_mode_Normal in Hp as (_ & _ & _ & ->).
      by destruct (modeStack s).
    - by intros [= <-]. }
  destruct (default false _); [|by apply Hpush].
  destruct (pop_mode lx st (newToken st)) as [s|] eqn:Hpop; [|done].
  apply Hpush.
  apply pop_mode_Normal in Hpop as (_ & [(_ & _ & -> & _)|(Hlen & _ & -> & _)]);
    [done|].
  destruct (modeStack st) as [|m0 [|m1 ms]]; done.
Qed.

Lemma reaches_bottom lx st trace st' trace' bottom :
  reaches lx st trace st' trace' ->
  head (modeStack st) = Some bottom -> head (modeStack st') = Some bottom.
Proof.
  induction 1 as [|st trace sp st1 st' trace' Ht Hb Hr IH]; [done|].
  intros Hhead. apply IH. apply loop_body_Normal in Hb
    as [(i & m & st2 & _ & Hc & Hs & _)|(_ & -> & _)].
  - apply consume_Normal in Hc as (_&_&_&_&Hms&_).
    eapply switch_modes_bottom; [|done]. by rewrite Hms.
  - unfold on_no_match. by destruct (resync _ _ _ _ _) as [[[? ?] ?] ?].
Qed.

(** X1.  In every state that a call reaches the mode stack is not empty and
    its bottom is the mode in which the call started: a pop never empties
    the stack.  When that mode and every mode that a pattern pushes are
    modes of the lexer, every mode on the stack is a mode of the lexer and
    the tables in use are those of the top of the stack. *)
Theorem mode_stack_is_never_empty lx input initialMode h st0 st trace :
  start lx input initialMode h = Normal st0 ->
  reaches lx st0 [] st trace ->
  head (modeStack st) = Some (first_mode lx initialMode)
  /\ (is_Some (tables lx !! first_mode lx initialMode) ->
      pushes_are_modes lx ->
      (forall m, m ∈ modeStack st -> is_Some (tables lx !! m))
      /\ exists top, last (modeStack st) = Some top
                     /\ tables lx !! top = Some (currMode st)).
Proof.
  intros Hst Hr. split.
  - apply (reaches_bottom _ _ _ _ _ _ Hr).
    unfold start, cloneObj in Hst.
    by apply push_mode_Normal in Hst as (_ & _ & _ & ->).
  - intros Hown Hpm. apply (start_stack_ok _ _ _ _ _ Hown) in Hst.
    exact (reaches_stack_ok _ _ _ _ _ Hpm Hr Hst).
Qed.

(** X2.  A push followed by a pop is the identity on the state of the call:
    when the tables in use are those of the top of a stack that is not
    empty, pushing a mode of the lexer and popping it gives back the very
    state, records no error and does not look at the token it is given. *)
Theorem push_then_pop_restores lx st newMode tbl popToken :
  modeStack st <> [] ->
  tables lx !! mode_key (last (modeStack st)) = Some (currMode st) ->
  tables lx !! newMode = Some tbl ->
  exists st1,
    push_mode lx st newMode = Normal st1
    /\ currMode st1 = tbl
    /\ modeStack st1 = modeStack st ++ [newMode]
    /\ pop_mode lx st1 popToken = Normal st.
Proof.
  intros Hne Htop Hnew. rewrite (push_mode_own _ _ _ _ Hnew).
  eexists. split; [done|]. split; [done|]. split; [done|].
  assert (Hlen : (length (modeStack st ++ [newMode]) =? 1)%nat = false).
  { rewrite length_app. destruct (modeStack st); [done|].
    apply Nat.eqb_neq. simpl. lia. }
  unfold pop_mode. cbn [modeStack].
  rewrite Hlen, removelast_snoc, (read_tables_own _ _ _ _ Htop).
  by destruct st.
Qed.

End ModeStackInvariant.

Section EdgeInputs.

Context {TokenConstructor : Type}.
Implicit Types (st : State TokenConstructor) (lx : Lexer TokenConstructor).
Implicit Types (trace : list (Span TokenConstructor)).
Implicit Types (h : list (list (Token TokenConstructor))).

(** The state in which the main loop starts, when the first mode is a mode
    of the lexer. *)
Lemma start_known_mode lx input initialMode h tbl :
  tables lx !! first_mode lx initialMode = Some tbl ->
  start lx input initialMode h
  = Normal (mkState input input 0 [] [] 1 1 (emptyGroups lx) tbl
              [first_mode lx initialMode] None h).
Proof.
  intros Htbl. unfold start, cloneObj.
  fold (first_mode lx initialMode). by rewrite (push_mode_own _ _ _ _ Htbl).
Qed.

(** What the first [push_mode] does when the first mode is no mode of the
    lexer. *)
Lemma start_unknown_mode lx input initialMode h :
  tables lx !! first_mode lx initialMode = None ->
  start lx input initialMode h
  = match inherited (first_mode lx initialMode) with
    | None => Throw TypeError h
    | Some len =>
        if bool_decide (input = []) || negb (0 <? default 0 len)
        then Normal (mkState input input 0 [] [] 1 1 (emptyGroups lx) no_mode
                       [first_mode lx initialMode] None h)
        else Throw TypeError h
    end.
Proof.
  intros Htbl. unfold start, cloneObj. fold (first_mode lx initialMode).
  unfold push_mode, read_tables. cbn [tables text heap]. rewrite Htbl.
  destruct (inherited _) as [len|]; [|done].
  destruct input as [|c rest]; [done|]. cbn.
  by destruct (0 <? default 0 len).
Qed.

Lemma main_loop_empty_text lx fuel st trace :
  text st = [] -> main_loop lx fuel st trace = Some (Normal (trace, st)).
Proof. intros Ht. destruct fuel; simpl; by rewrite Ht. Qed.

Lemma main_loop_round lx fuel st trace :
  text st <> [] ->
  main_loop lx (S fuel) st trace
  = match loop_body lx st with
    | Throw e h => Some (Throw e h)
    | Normal (sp, st') => main_loop lx fuel st' (trace ++ [sp])
    end.
Proof. intros Ht. simpl. by destruct (text st). Qed.

(** A text at no position of which a pattern of the current mode matches is
    skipped in one round, which ends the loop. *)
Lemma main_loop_unmatched lx fuel st :
  text st <> [] ->
  (forall j p, (j < length (text st))%nat ->
     p ∈ allPatterns (currMode st) -> p (drop j (text st)) = None) ->
  exists trace st',
    main_loop lx (S fuel) st [] = Some (Normal (trace, st'))
    /\ matchedTokens st' = matchedTokens st
    /\ errors st'
       = errors st
         ++ [mkLexingError (line st) (column st)
               (Z.of_nat (length (text st)))
               (unexpected_message (orgInput st) (offset st)
                  (offset st + Z.of_nat (length (text st))))]
    /\ heap st' = heap st /\ groups st' = groups st.
Proof.
  intros Hne Hnone. rewrite main_loop_round by done.
  assert (Hlen : (0 < length (text st))%nat)
    by (destruct (text st); [done|simpl; lia]).
  destruct (loop_body_recovery lx st) as
    (k & err & st' & Hb & Hk & Ht & _ & _ & _ & Hstop & Herr & Herrors
     & Hmt & Hh & Hg & _);
    [done|intros p Hp; by apply (Hnone 0%nat)|].
  assert (k = length (text st)) as ->.
  { destruct Hstop as [->|(p & m & Hp & Hm)]; [done|].
    destruct (decide (k = length (text st))) as [|Hlt]; [done|].
    rewrite (Hnone k p) in Hm; [done|lia|done]. }
  rewrite Hb. rewrite drop_all in Ht.
  rewrite main_loop_empty_text by done.
  eexists _, st'. split; [done|]. by rewrite Herrors, Herr.
Qed.

(** X3.  On the empty input a call returns before its first round, whatever
    its fuel: no token, no error, and for every group of the lexer its
    bucket with what it holds. *)
Theorem empty_input_gives_empty_result lx fuel initialMode h tbl :
  lexerDefinitionErrors lx = [] ->
  lexer_allocated h lx ->
  tables lx !! first_mode lx initialMode = Some tbl ->
  observe <$> tokenize lx fuel [] initialMode h
  = Some (inr (mkResultValue [] (read_groups h (emptyGroups lx)) [])).
Proof.
  intros Herrs Halloc Htbl. unfold tokenize, tokenize_trace.
  rewrite Herrs, (start_known_mode _ _ _ _ _ Htbl).
  by rewrite main_loop_empty_text.
Qed.

(** X4.  A call whose first mode is no mode of the lexer, by its argument
    or because the lexer has no mode at all.  The dictionaries are plain
    objects, so what the call does depends on what the key finds.  A key
    that names no member of [Object.prototype] finds [undefined]: the call
    throws a type error on every input, the empty one too, before any
    round.  A key that names a member finds tables without patterns: the
    empty input gives the empty result, and on any other input the call
    throws a type error in its first round when the member is a function
    with declared parameters ([constructor], [hasOwnProperty], ...), and
    otherwise ([toString], [valueOf], [__proto__], ...) skips the whole
    input and returns no token and one error record. *)
Theorem initial_mode_without_tables lx fuel input initialMode h :
  lexerDefinitionErrors lx = [] ->
  tables lx !! first_mode lx initialMode = None ->
  tables lx !! "__proto__"%string = None ->
  (inherited (first_mode lx initialMode) = None ->
   observe <$> tokenize lx fuel input initialMode h = Some (inl TypeError))
  /\ (forall len,
        inherited (first_mode lx initialMode) = Some len ->
        (input = [] ->
         observe <$> tokenize lx fuel input initialMode h
         = Some (inr (mkResultValue [] (read_groups h (emptyGroups lx)) [])))
        /\ (input <> [] -> (1 <= fuel)%nat ->
            observe <$> tokenize lx fuel input initialMode h
            = Some (if 0 <? default 0 len then inl TypeError
                    else inr (mkResultValue []
                                (read_groups h (emptyGroups lx))
                                [mkLexingError 1 1
                                   (Z.of_nat (length input))
                                   (unexpected_message input 0
                                      (Z.of_nat (length input)))])))).
Proof.
  intros Herrs Htbl _. unfold tokenize, tokenize_trace.
  rewrite Herrs, (start_unknown_mode _ _ _ _ Htbl).
  split; [by intros ->|]. intros len ->. split.
  - intros ->. cbn [bool_decide orb]. rewrite bool_decide_eq_true_2 by done.
    cbn [orb]. by rewrite main_loop_empty_text.
  - intros Hne Hfuel. rewrite bool_decide_eq_false_2 by done. cbn [orb].
    destruct (0 <? default 0 len); [done|]. cbn [negb].
    destruct fuel as [|fuel]; [lia|].
    set (st := mkState input input 0 [] [] 1 1 _ no_mode _ None _).
    destruct (main_loop_unmatched lx fuel st) as
      (trace & st' & -> & Hmt & Herrors & Hh & Hg);
      [done|intros j p _ Hp; by apply elem_of_nil in Hp|].
    cbn. rewrite Hmt, Herrors, Hh, Hg. cbn. by rewrite Z.add_0_l.
Qed.

(** X5.  An input at no position of which a pattern of the first mode
    matches gives no token and one error record: at line 1, column 1, of
    the length of the input. *)
Theorem unmatched_input_is_one_error lx fuel input initialMode h tbl :
  lexerDefinitionErrors lx = [] ->
  lexer_allocated h lx ->
  tables lx !! first_mode lx initialMode = Some tbl ->
  input <> [] ->
  (1 <= fuel)%nat ->
  (forall j p, (j < length input)%nat -> p ∈ allPatterns tbl ->
     p (drop j input) = None) ->
  observe <$> tokenize lx fuel input initialMode h
  = Some (inr (mkResultValue []
                 (read_groups h (emptyGroups lx))
                 [mkLexingError 1 1 (Z.of_nat (length input))
                    (unexpected_message input 0
                       (Z.of_nat (length input)))])).
Proof.
  intros Herrs Halloc Htbl Hne Hfuel Hnone.
  unfold tokenize, tokenize_trace.
  rewrite Herrs, (start_known_mode _ _ _ _ _ Htbl).
  set (st := mkState input input 0 [] [] 1 1 _ tbl _ None _).
  destruct fuel as [|fuel]; [lia|].
  destruct (main_loop_unmatched lx fuel st) as
    (trace & st' & -> & Hmt & Herrors & Hh & Hg); [done|done|].
  cbn. rewrite Hmt, Herrors, Hh, Hg. cbn. by rewrite Z.add_0_l.
Qed.

(** X6.  The calls on a lexer only ever push to the buckets: after any
    sequence of calls, whether they returned or threw, each bucket holds
    the tokens it held, at the places they had, followed by the tokens
    pushed since.  No call removes, replaces or reorders a token of a
    bucket: what an earlier result shows in a group is a prefix of what it
    shows later. *)
Theorem buckets_only_grow lx calls h h' :
  run_calls lx calls h = Some h' ->
  forall a toks, h !! a = Some toks ->
    exists more, h' !! a = Some (toks ++ more).
Proof. apply run_calls_grown. Qed.

End EdgeInputs.

Section TraceInvariants.

Context {TokenConstructor : Type}.
Implicit Types (st : State TokenConstructor) (lx : Lexer TokenConstructor).
Implicit Types (sp : Span TokenConstructor).
Implicit Types (trace : list (Span TokenConstructor)).
Implicit Types (h : list (list (Token TokenConstructor))).

(** The locals with which the main loop starts; the tables in use are
    tables of the lexer, or the empty ones. *)
Lemma start_locals lx input initialMode h st :
  start lx input initialMode h = Normal st ->
  text st = input /\ offset st = 0 /\ line st = 1 /\ column st = 1
  /\ matchedTokens st = [] /\ errors st = [] /\ newToken st = None
  /\ current_of lx st.
Proof.
  intros Hst. apply start_Normal in Hst
    as (Ht & Ho & Hl & Hc & Hmt & He & Hn & _ & Hcur & _).
  by repeat split.
Qed.

Lemma match_span_not_recovery st st' i m :
  is_recovery (match_span st st' i m) = false.
Proof.
  unfold match_span. destruct (mjoin _); [|done]. by destruct (newToken st').
Qed.

(** A round at a text that some pattern of the current mode matches is not
    a recovery. *)
Lemma loop_body_match_round lx st sp st' :
  any_matches (allPatterns (currMode st)) (text st) = true ->
  loop_body lx st = Normal (sp, st') -> is_recovery sp = false.
Proof.
  intros Hany Hb. apply loop_body_Normal in Hb
    as [(i & m & st1 & _ & _ & _ & ->)|(Hnone & _ & _)].
  - apply match_span_not_recovery.
  - apply any_matches_false in Hnone. congruence.
Qed.

(** A recovery round stops at the end of the text or where a pattern of the
    current mode matches. *)
Lemma loop_body_recovery_stops lx st sp st' :
  text st <> [] -> loop_body lx st = Normal (sp, st') ->
  is_recovery sp = true ->
  text st' = []
  \/ any_matches (allPatterns (currMode st')) (text st') = true.
Proof.
  intros Ht Hb Hrec. destruct (loop_body_Normal _ _ _ _ Hb)
    as [(i & m & st1 & _ & _ & _ & ->)|(Hnone & _ & _)].
  - by rewrite match_span_not_recovery in Hrec.
  - destruct (loop_body_recovery lx st Ht Hnone)
      as (k & err & st2 & Heq & Hk & Htext & _ & _ & _ & Hstop & _ & _ & _
          & _ & _ & Hm & _).
    rewrite Hb in Heq. injection Heq as _ <-.
    rewrite Htext, Hm. destruct Hstop as [->|Hp].
    + left. apply drop_all.
    + right. by apply any_matches_true.
Qed.

Lemma no_adjacent_recoveries lx st trace st' trace' :
  reaches lx st trace st' trace' ->
  (forall k sp1 sp2, trace !! k = Some sp1 -> trace !! S k = Some sp2 ->
     is_recovery sp1 && is_recovery sp2 = false) ->
  (forall sp, last trace = Some sp -> is_recovery sp = true ->
     text st = []
     \/ any_matches (allPatterns (currMode st)) (text st) = true) ->
  forall k sp1 sp2, trace' !! k = Some sp1 -> trace' !! S k = Some sp2 ->
    is_recovery sp1 && is_recovery sp2 = false.
Proof.
  induction 1 as [|st trace sp st1 st' trace' Ht Hb Hr IH]; [done|].
  intros Hadj Hlast. apply IH.
  - intros k sp1 sp2 Hk HSk.
    destruct (decide (S k < length trace)%nat) as [Hlt|Hge].
    + rewrite lookup_app_l in Hk by lia. rewrite lookup_app_l in HSk by lia.
      by eapply Hadj.
    + apply lookup_lt_Some in HSk as Hlen. rewrite length_app in Hlen.
      simpl in Hlen. assert (S k = length trace) as Heq by lia.
      rewrite lookup_app_l in Hk by lia.
      rewrite lookup_app_r, Heq, Nat.sub_diag in HSk by lia.
      injection HSk as <-.
      destruct (is_recovery sp1) eqn:Hrec1; [|done]. simpl.
      assert (Hl : last trace = Some sp1).
      { rewrite last_lookup. rewrite <- Heq. done. }
      destruct (Hlast sp1 Hl Hrec1) as [Hnil|Hany]; [done|].
      by eapply loop_body_match_round.
  - intros sp' Hl Hrec. rewrite last_snoc in Hl. injection Hl as <-.
    by eapply loop_body_recovery_stops.
Qed.

(** X7.  No two recovery spans of a call follow each other: a run of
    characters at which no pattern matches is skipped in one round and
    reported by one error record, and the round after a recovery consumes a
    match. *)
Theorem unmatched_run_is_one_recovery lx fuel input initialMode h trace r h' :
  tokenize_trace lx fuel input initialMode h
  = Some (Normal (trace, r, h')) ->
  forall k sp1 sp2, trace !! k = Some sp1 -> trace !! S k = Some sp2 ->
    is_recovery sp1 = false \/ is_recovery sp2 = false.
Proof.
  intros Hrun k sp1 sp2 Hk HSk.
  apply tokenize_trace_Normal in Hrun as (_ & st0 & st' & _ & Hr & _).
  apply andb_false_iff.
  eapply (no_adjacent_recoveries _ _ _ _ _ Hr); [| |done|done].
  - intros k' ? ? Hk'. by rewrite lookup_nil in Hk'.
  - intros sp Hl. done.
Qed.

Lemma recovery_errors_app trace1 trace2 :
  recovery_errors (trace1 ++ trace2)
  = recovery_errors trace1 ++ recovery_errors trace2.
Proof.
  induction trace1 as [|sp rest IH]; simpl; [done|].
  destruct sp; simpl; by rewrite ?IH.
Qed.

Lemma current_of_never_pops lx st i :
  never_pops lx -> current_of lx st ->
  default false (patternIdxToPopMode (currMode st) !! i) = false.
Proof.
  intros Hnp [Hno|[mode Hm]].
  - rewrite Hno. by destruct i.
  - by eapply Hnp.
Qed.

Lemma loop_body_errors_no_pop lx st sp st' :
  never_pops lx -> current_of lx st -> text st <> [] ->
  loop_body lx st = Normal (sp, st') ->
  errors st' = errors st ++ recovery_errors [sp]
  /\ Forall (fun err => 1 <= err_length err) (recovery_errors [sp]).
Proof.
  intros Hnp Hcur Ht Hb. destruct (loop_body_Normal _ _ _ _ Hb)
    as [(i & m & st1 & _ & Hc & Hs & ->)|(Hnone & _ & _)].
  - apply consume_Normal in Hc as (_ & _ & He1 & Hm1 & _).
    assert (Herr : errors st' = errors st1).
    { unfold switch_modes in Hs.
      rewrite Hm1, (current_of_never_pops lx st i Hnp Hcur) in Hs.
      destruct (truthy_mode _) as [newMode|].
      - by apply push_mode_Normal in Hs as (_ & -> & _).
      - by injection Hs as <-. }
    assert (Hnil : recovery_errors [match_span st st' i m] = []).
    { pose proof (match_span_not_recovery st st' i m) as Hrec.
      by destruct (match_span st st' i m). }
    rewrite Hnil, app_nil_r. split; [congruence|constructor].
  - destruct (loop_body_recovery lx st Ht Hnone)
      as (k & err & st2 & Heq & Hk & _ & _ & _ & _ & _ & Herr & Herrs & _).
    rewrite Hb in Heq. injection Heq as -> <-. simpl.
    split; [done|]. constructor; [|constructor]. rewrite Herr. simpl. lia.
Qed.

Lemma reaches_errors_no_pop lx st trace st' trace' :
  never_pops lx ->
  reaches lx st trace st' trace' ->
  current_of lx st ->
  errors st = recovery_errors trace ->
  Forall (fun err => 1 <= err_length err) (errors st) ->
  errors st' = recovery_errors trace'
  /\ Forall (fun err => 1 <= err_length err) (errors st').
Proof.
  intros Hnp. induction 1 as [|st trace sp st1 st' trace' Ht Hb Hr IH];
    [done|].
  intros Hcur Herr Hpos.
  destruct (loop_body_errors_no_pop lx st sp st1 Hnp Hcur Ht Hb)
    as [He Hp].
  apply IH.
  - by eapply loop_body_current_of.
  - by rewrite recovery_errors_app, He, Herr.
  - rewrite He. by apply Forall_app.
Qed.

(** X8.  When no pattern of the lexer pops a mode, the errors of a result
    are the records of the recovery spans of the call, in order: there are
    none exactly when every round consumed a match, and each counts at least
    one skipped character. *)
Theorem errors_are_the_recoveries lx fuel input initialMode h trace r h' :
  never_pops lx ->
  tokenize_trace lx fuel input initialMode h
  = Some (Normal (trace, r, h')) ->
  result_errors r = recovery_errors trace
  /\ (result_errors r = [] <-> forall sp, sp ∈ trace -> is_recovery sp = false)
  /\ Forall (fun err => 1 <= err_length err) (result_errors r).
Proof.
  intros Hnp Hrun.
  apply tokenize_trace_Normal in Hrun
    as (_ & st0 & st' & Hst & Hr & _ & -> & _).
  apply start_locals in Hst as (_ & _ & _ & _ & _ & Herr & _ & Hcur).
  destruct (reaches_errors_no_pop lx _ _ _ _ Hnp Hr Hcur) as [He Hpos].
  { by rewrite Herr. }
  { rewrite Herr. constructor. }
  cbn. split; [done|]. split; [|done].
  rewrite He. clear. induction trace as [|sp rest IH]; simpl.
  - split; [|done]. intros _ sp Hsp. by apply elem_of_nil in Hsp.
  - split.
    + intros Hnil sp' Hsp'. destruct sp as [g tok|off img|off img err];
        try discriminate.
      * apply elem_of_cons in Hsp' as [->|Hin]; [done|]. by apply IH.
      * apply elem_of_cons in Hsp' as [->|Hin]; [done|]. by apply IH.
    + intros Hall. destruct sp as [g tok|off img|off img err].
      * apply IH. intros sp' Hsp'. apply Hall. by right.
      * apply IH. intros sp' Hsp'. apply Hall. by right.
      * specialize (Hall (ErrorSpan off img err)). simpl in Hall.
        discriminate Hall. left.
Qed.

Lemma track_lines_column (tbl : ModeTable TokenConstructor) i m line column :
  1 <= column -> 1 <= (track_lines tbl i m line column).1.2.
Proof.
  intros Hc. unfold track_lines.
  destruct (default false _); [|done].
  destruct (countLineTerminators m =? 0); [done|].
  pose proof (scan_lastLTIdx_spec m (length m)) as (Hr & _).
  fold (find_lastLTIdx m) in Hr.
  destruct (negb _); simpl; lia.
Qed.

Lemma skip_chars_column k text line column :
  1 <= column -> 1 <= (skip_chars k text line column).2.
Proof.
  revert text line column. induction k as [|k IH]; intros text line column Hc;
    simpl; [done|].
  destruct text as [|c rest]; [done|].
  destruct (dropped_is_line_end (c :: rest)); apply IH; lia.
Qed.

Lemma consume_positions st i m st1 :
  consume st i m = Normal st1 ->
  1 <= column st -> 0 <= offset st ->
  1 <= column st1 /\ 0 <= offset st1.
Proof.
  intros Hc Hcol Hoff.
  apply consume_Normal in Hc as Hfacts. destruct Hfacts as (_ & Ho & _).
  split; [|lia].
  pose proof (track_lines_column (currMode st) i m (line st)
                (column st + Z.of_nat (length m)) ltac:(lia)) as Htl.
  unfold consume in Hc.
  destruct (track_lines _ _ _ _ _) as [[line' column'] fix_end].
  simpl in Htl.
  destruct (mjoin _) as [g|]; [|by injection Hc as <-].
  destruct (_ !! i) as [tokClass|]; [|done].
  destruct (decide _); [by injection Hc as <-|].
  destruct (groups st !! g); [by injection Hc as <-|done].
Qed.

(** The error that the mode handling of a round may record is that of a
    pop of the last mode, built from [newToken]. *)
Lemma switch_modes_errors lx st i st' :
  switch_modes lx st i = Normal st' ->
  errors st' = errors st
  \/ exists tok, newToken st = Some tok
       /\ errors st'
          = errors st ++ [mkLexingError (startLine tok) (startColumn tok)
                            (Z.of_nat (length (image tok)))
                            (pop_message tok)].
Proof.
  unfold switch_modes.
  assert (Hpush : forall s,
    match truthy_mode (mjoin (patternIdxToPushMode (currMode s) !! i)) with
    | Some newMode => push_mode lx s newMode
    | None => Normal s
    end = Normal st' -> errors st' = errors s).
  { intros s. destruct (truthy_mode _) as [newMode|].
    - intros Hp. by apply push_mode_Normal in Hp as (_ & -> & _).
    - by intros [= <-]. }
  destruct (default false _); [|left; by apply Hpush].
  destruct (pop_mode lx st (newToken st)) as [s|] eqn:Hpop; [|done].
  intros Hp. apply Hpush in Hp. rewrite Hp.
  apply pop_mode_Normal in Hpop
    as (_ & [(_ & _ & _ & tok & Htok & ->)|(_ & -> & _)]); [|by left].
  right. by exists tok.
Qed.

Lemma loop_body_positions lx st sp st' :
  let good tok := 1 <= startColumn tok /\ 0 <= startOffset tok in
  text st <> [] ->
  loop_body lx st = Normal (sp, st') ->
  1 <= column st -> 0 <= offset st ->
  Forall (fun err => 1 <= err_column err) (errors st) ->
  Forall good (matchedTokens st) ->
  (forall tok, newToken st = Some tok -> good tok) ->
  1 <= column st' /\ 0 <= offset st'
  /\ Forall (fun err => 1 <= err_column err) (errors st')
  /\ Forall good (matchedTokens st')
  /\ (forall tok, newToken st' = Some tok -> good tok)
  /\ (forall g tok, sp = Emitted g tok -> good tok).
Proof.
  intros good Ht Hb Hcol Hoff Herr Hmt Hnew.
  destruct (loop_body_Normal _ _ _ _ Hb)
    as [(i & m & st1 & _ & Hc & Hs & Hsp)|(Hnone & _ & _)].
  - destruct (consume_positions _ _ _ _ Hc Hcol Hoff) as [Hcol1 Hoff1].
    apply consume_Normal in Hc as (_ & _ & He1 & _ & _ & _ & _ & Hgroup).
    pose proof (switch_modes_errors _ _ _ _ Hs) as Herrs.
    apply switch_modes_Normal in Hs
      as ((_ & Ho2 & _ & Hc2 & Hmt2 & _ & _ & Hn2 & _) & _).
    assert (Hfacts : Forall good (matchedTokens st1)
                     /\ (forall tok, newToken st1 = Some tok -> good tok)
                     /\ (forall g tok, sp = Emitted g tok -> good tok)).
    { unfold match_span in Hsp. rewrite Hn2 in Hsp.
      destruct (mjoin _) as [g|].
      - destruct Hgroup as (tok & Hn1 & _ & Hso & _ & Hsc & Hroute).
        assert (good tok) as Hgood by (unfold good; lia).
        rewrite Hn1 in Hsp. split; [|split].
        + destruct (decide _).
          * destruct Hroute as [-> _]. apply Forall_app. split; [done|].
            by constructor.
          * by destruct Hroute as [-> _].
        + intros tok' Htok'. rewrite Hn1 in Htok'. by injection Htok' as <-.
        + intros g' tok' Heq. rewrite Hsp in Heq. by injection Heq as _ <-.
      - destruct Hgroup as (-> & _ & ->). split; [done|]. split; [done|].
        intros g' tok' Heq. by rewrite Hsp in Heq. }
    destruct Hfacts as (Hmt1 & Hnew1 & Hsp1).
    rewrite Hc2, Ho2, Hmt2, Hn2. do 2 (split; [done|]).
    split; [|split; [exact Hmt1|split; [exact Hnew1|exact Hsp1]]].
    destruct Herrs as [->|(tok & Htok & ->)]; rewrite He1; [done|].
    apply Forall_app. split; [done|]. constructor; [|constructor].
    simpl. by apply Hnew1.
  - destruct (loop_body_recovery lx st Ht Hnone)
      as (k & err & st2 & Heq & Hk & _ & Ho & Hlc & _ & _ & Herr' & Herrs
          & Hmt' & _ & _ & _ & _ & Hn & _).
    rewrite Hb in Heq. injection Heq as -> <-.
    pose proof (skip_chars_column k (text st) (line st) (column st) Hcol)
      as Hsk.
    rewrite <- Hlc in Hsk. simpl in Hsk.
    rewrite Hmt', Hn, Herrs. split; [done|]. split; [lia|].
    split; [|split; [done|split; [done|done]]].
    apply Forall_app. split; [done|]. constructor; [|constructor].
    by rewrite Herr'.
Qed.

(** X9.  Columns are counted from 1 and offsets from 0 throughout a call:
    every token that a call constructs, in the token stream or in a group,
    starts at a column of at least 1 and at an offset of at least 0, also
    after tokens that span lines and after recoveries, and every error of
    the result is at a column of at least 1. *)
Theorem columns_start_at_one lx fuel input initialMode h trace r h' :
  tokenize_trace lx fuel input initialMode h
  = Some (Normal (trace, r, h')) ->
  (forall g tok, Emitted g tok ∈ trace ->
     1 <= startColumn tok /\ 0 <= startOffset tok)
  /\ Forall (fun tok => 1 <= startColumn tok /\ 0 <= startOffset tok)
       (tokens r)
  /\ Forall (fun err => 1 <= err_column err) (result_errors r).
Proof.
  intros Hrun.
  apply tokenize_trace_Normal in Hrun
    as (_ & st0 & st' & Hst & Hr & _ & -> & _).
  apply start_locals in Hst as (_ & Ho & _ & Hc & Hmt & He & Hn & _).
  cbn.
  assert (Hinv : forall st trace0 st1 trace1,
    reaches lx st trace0 st1 trace1 ->
    1 <= column st -> 0 <= offset st ->
    Forall (fun err => 1 <= err_column err) (errors st) ->
    Forall (fun tok => 1 <= startColumn tok /\ 0 <= startOffset tok)
      (matchedTokens st) ->
    (forall tok, newToken st = Some tok ->
       1 <= startColumn tok /\ 0 <= startOffset tok) ->
    (forall g tok, Emitted g tok ∈ trace0 ->
       1 <= startColumn tok /\ 0 <= startOffset tok) ->
    (forall g tok, Emitted g tok ∈ trace1 ->
       1 <= startColumn tok /\ 0 <= startOffset tok)
    /\ Forall (fun tok => 1 <= startColumn tok /\ 0 <= startOffset tok)
         (matchedTokens st1)
    /\ Forall (fun err => 1 <= err_column err) (errors st1)).
  { clear. induction 1 as [|st trace sp st1 st' trace' Ht Hb Hr IH]; [done|].
    intros Hc Ho He Hmt Hn Htr.
    destruct (loop_body_positions lx st sp st1 Ht Hb Hc Ho He Hmt Hn)
      as (Hc1 & Ho1 & He1 & Hmt1 & Hn1 & Hsp).
    apply IH; try done.
    intros g tok Hin. apply elem_of_app in Hin as [Hin|Hin].
    - by eapply Htr.
    - apply list_elem_of_singleton in Hin. by eapply Hsp. }
  apply (Hinv _ _ _ _ Hr).
  - lia.
  - lia.
  - rewrite He. constructor.
  - rewrite Hmt. constructor.
  - intros tok Htok. by rewrite Hn in Htok.
  - intros g tok Hin. by apply elem_of_nil in Hin.
Qed.


End TraceInvariants.

Section TokenPositions.

Context {TokenConstructor : Type}.
Implicit Types (st : State TokenConstructor) (lx : Lexer TokenConstructor).
Implicit Types (sp : Span TokenConstructor).
Implicit Types (trace : list (Span TokenConstructor)).
Implicit Types (h : list (list (Token TokenConstructor))).

Lemma contiguous_lookup off trace k sp :
  contiguous off trace -> trace !! k = Some sp ->
  span_offset sp = off + Z.of_nat (length (covered (take k trace)))
  /\ covered trace
     = covered (take k trace) ++ span_image sp ++ covered (drop (S k) trace).
Proof.
  revert off k. induction trace as [|sp0 rest IH]; intros off k; [done|].
  intros (Ho & _ & Hrest) Hk. destruct k as [|k]; simpl in *.
  - injection Hk as <-. unfold covered. simpl. split; [lia|done].
  - destruct (IH _ k Hrest Hk) as [Hoff Hcov]. unfold covered in *. simpl.
    rewrite length_app, Nat2Z.inj_add, Hcov, <- app_assoc.
    split; [lia|done].
Qed.

Lemma contiguous_order off trace k1 k2 sp1 sp2 :
  contiguous off trace -> (k1 < k2)%nat ->
  trace !! k1 = Some sp1 -> trace !! k2 = Some sp2 ->
  span_offset sp1 + Z.of_nat (length (span_image sp1)) <= span_offset sp2.
Proof.
  revert off k1 k2. induction trace as [|sp0 rest IH]; intros off k1 k2;
    [done|].
  intros (Ho & _ & Hrest) Hlt H1 H2.
  destruct k2 as [|k2]; [lia|]. simpl in H2. destruct k1 as [|k1].
  - injection H1 as <-. apply contiguous_lower in Hrest.
    rewrite Forall_lookup in Hrest. specialize (Hrest _ _ H2). simpl in *.
    lia.
  - simpl in H1. eapply (IH _ k1 k2); [done|lia|done|done].
Qed.

Lemma tokens_of_elem g trace (tok : Token TokenConstructor) :
  tok ∈ tokens_of g trace <-> Emitted g tok ∈ trace.
Proof.
  induction trace as [|sp rest IH]; simpl.
  - by rewrite !elem_of_nil.
  - destruct sp as [g' tok'|off img|off img err].
    + destruct (decide (g' = g)) as [->|Hne].
      * rewrite !elem_of_cons, IH. split; intros [Heq|Hin]; auto.
        -- left. by subst.
        -- left. by injection Heq.
      * rewrite elem_of_cons, IH. split; [auto|].
        intros [Heq|Hin]; [congruence|done].
    + rewrite elem_of_cons, IH. split; [auto|]. by intros [Heq|Hin].
    + rewrite elem_of_cons, IH. split; [auto|]. by intros [Heq|Hin].
Qed.

Lemma tokens_of_order g trace i j (t1 t2 : Token TokenConstructor) :
  (i < j)%nat ->
  tokens_of g trace !! i = Some t1 -> tokens_of g trace !! j = Some t2 ->
  exists k1 k2, (k1 < k2)%nat
    /\ trace !! k1 = Some (Emitted g t1)
    /\ trace !! k2 = Some (Emitted g t2).
Proof.
  revert i j. induction trace as [|sp rest IH]; intros i j Hlt H1 H2;
    [done|].
  assert (Hshift : tokens_of g rest !! i = Some t1 ->
                   tokens_of g rest !! j = Some t2 ->
                   exists k1 k2, (k1 < k2)%nat
                     /\ (sp :: rest) !! k1 = Some (Emitted g t1)
                     /\ (sp :: rest) !! k2 = Some (Emitted g t2)).
  { intros H1' H2'. destruct (IH i j Hlt H1' H2') as (k1 & k2 & Hk & ? & ?).
    exists (S k1), (S k2). split; [lia|done]. }
  simpl in H1, H2. destruct sp as [g' tok'|off img|off img err];
    [|by apply Hshift|by apply Hshift].
  destruct (decide (g' = g)) as [->|Hne]; [|by apply Hshift].
  destruct j as [|j]; [lia|]. simpl in H2. destruct i as [|i].
  - injection H1 as <-.
    apply list_elem_of_lookup_2, tokens_of_elem, list_elem_of_lookup_1 in H2
      as [k2 Hk2].
    exists 0%nat, (S k2). split; [lia|done].
  - simpl in H1. destruct (IH i j ltac:(lia) H1 H2) as (k1 & k2 & Hk & ? & ?).
    exists (S k1), (S k2). split; [lia|done].
Qed.

Lemma substr_middle (before img after : jsstring) :
  substr (before ++ img ++ after) (Z.of_nat (length before)) (length img)
  = img.
Proof.
  unfold substr. rewrite Nat2Z.id, drop_app_length.
  by rewrite take_app_length.
Qed.

Lemma reaches_trace lx st trace st' trace' :
  reaches lx st trace st' trace' -> exists more, trace' = trace ++ more.
Proof.
  induction 1 as [|st trace sp st1 st' trace' Ht Hb Hr [more ->]].
  - exists []. by rewrite app_nil_r.
  - exists (sp :: more). by rewrite <- app_assoc.
Qed.

(** Every token of a bucket was there before the rounds or was emitted by
    one of them. *)
Lemma reaches_bucket_tokens lx st trace st' trace' :
  reaches lx st trace st' trace' ->
  forall a toks tok, heap st' !! a = Some toks -> tok ∈ toks ->
    (exists toks0, heap st !! a = Some toks0 /\ tok ∈ toks0)
    \/ exists g, Emitted g tok ∈ trace'.
Proof.
  induction 1 as [|st trace sp st1 st' trace' Ht Hb Hr IH].
  - intros a toks tok Ha Hin. left. by exists toks.
  - intros a toks tok Ha Hin.
    destruct (IH a toks tok Ha Hin) as [(toks1 & Ha1 & Hin1)|Hem];
      [|by right].
    apply reaches_trace in Hr as [more ->].
    apply loop_body_push in Hb
      as [_ [[Hh _]|(g & a0 & tok0 & _ & _ & -> & Hh)]];
      rewrite Hh in Ha1.
    + left. by exists toks1.
    + rewrite heap_push_lookup in Ha1.
      destruct (decide (a0 = a)) as [->|]; [|left; by exists toks1].
      destruct (heap st !! a) as [toks0|] eqn:Ha0; [|done].
      injection Ha1 as <-. apply elem_of_app in Hin1 as [Hin1|Hin1].
      * left. by exists toks0.
      * apply list_elem_of_singleton in Hin1. subst tok0.
        right. exists g. apply elem_of_app. left.
        apply elem_of_app. right. left.
Qed.

(** X10.  The image of every token is the piece of the input at the offset
    of the token: [input.substr(tok.offset, tok.image.length)] is
    [tok.image], for the tokens of the stream and of every group, and for
    the skipped matches and recovery spans alike.  No piece is empty or
    reaches beyond the input, and a token of the stream ends where a later
    token of the stream starts, or before. *)
Theorem token_image_is_input_slice lx fuel input initialMode h trace r h' :
  every_pattern anchored lx ->
  every_pattern never_empty lx ->
  buckets_empty h lx ->
  tokenize_trace lx fuel input initialMode h
  = Some (Normal (trace, r, h')) ->
  (forall sp, sp ∈ trace ->
     0 <= span_offset sp
     /\ span_offset sp + Z.of_nat (length (span_image sp))
        <= Z.of_nat (length input)
     /\ span_image sp <> []
     /\ substr input (span_offset sp) (length (span_image sp))
        = span_image sp)
  /\ (forall tok, tok ∈ tokens r ->
        substr input (startOffset tok) (length (image tok)) = image tok)
  /\ (forall g a toks tok,
        result_groups r !! g = Some a -> h' !! a = Some toks ->
        tok ∈ toks ->
        substr input (startOffset tok) (length (image tok)) = image tok)
  /\ (forall i j t1 t2, (i < j)%nat ->
        tokens r !! i = Some t1 -> tokens r !! j = Some t2 ->
        startOffset t1 + Z.of_nat (length (image t1)) <= startOffset t2).
Proof.
  intros Hanch Hne Hempty Hrun.
  apply tokenize_trace_Normal in Hrun
    as (_ & st0 & st' & Hst & Hr & Hend & -> & ->).
  apply start_accounted in Hst as (Hcur & Hacc & _ & Hh0 & Hg0).
  pose proof (reaches_groups _ _ _ _ _ Hr) as Hgroups.
  pose proof (reaches_bucket_tokens _ _ _ _ _ Hr) as Hbuckets.
  destruct (accounted_reaches lx input _ _ _ _ Hanch Hne Hr Hcur Hacc)
    as (_ & Hcov & Hcont & _ & Hmt & _).
  rewrite Hend, app_nil_r in Hcov. cbn.
  assert (Hspan : forall sp, sp ∈ trace ->
     0 <= span_offset sp
     /\ span_offset sp + Z.of_nat (length (span_image sp))
        <= Z.of_nat (length input)
     /\ span_image sp <> []
     /\ substr input (span_offset sp) (length (span_image sp))
        = span_image sp).
  { intros sp Hsp. apply list_elem_of_lookup_1 in Hsp as [k Hk].
    destruct (contiguous_lookup 0 trace k sp Hcont Hk) as [Hoff Hsplit].
    assert (Himg : span_image sp <> []).
    { clear -Hcont Hk. revert Hcont Hk. generalize 0. revert k.
      induction trace as [|sp0 rest IH]; intros k z Hc Hk; [done|].
      destruct Hc as (_ & Hn & Hrest). destruct k as [|k].
      - by injection Hk as <-.
      - by eapply IH. }
    rewrite <- Hcov, Hsplit, Hoff, Z.add_0_l.
    rewrite !length_app. split; [lia|]. split; [lia|]. split; [done|].
    apply substr_middle. }
  split; [done|]. split; [|split].
  - intros tok Htok. rewrite Hmt in Htok. apply tokens_of_elem in Htok.
    by destruct (Hspan _ Htok) as (_ & _ & _ & Hsub).
  - intros g a toks tok Hg Ha Htok.
    rewrite Hgroups, Hg0 in Hg.
    destruct (Hbuckets a toks tok Ha Htok) as [(toks0 & Ha0 & Hin)|[g' Hin]].
    + rewrite Hh0, (Hempty g a Hg) in Ha0. injection Ha0 as <-.
      by apply elem_of_nil in Hin.
    + by destruct (Hspan _ Hin) as (_ & _ & _ & Hsub).
  - intros i j t1 t2 Hlt H1 H2. rewrite Hmt in H1, H2.
    destruct (tokens_of_order _ _ _ _ _ _ Hlt H1 H2)
      as (k1 & k2 & Hk & Hk1 & Hk2).
    exact (contiguous_order 0 trace k1 k2 _ _ Hcont Hk Hk1 Hk2).
Qed.

End TokenPositions.

Section NoThrow.

Context {TokenConstructor : Type}.
Implicit Types (st : State TokenConstructor) (lx : Lexer TokenConstructor).
Implicit Types (sp : Span TokenConstructor).
Implicit Types (trace : list (Span TokenConstructor)).
Implicit Types (h : list (list (Token TokenConstructor))).

Lemma select_match_well_formed lx (tbl : ModeTable TokenConstructor) text h :
  well_formed_table lx tbl ->
  select_match tbl text h = Normal None
  \/ exists i m, select_match tbl text h = Normal (Some (i, m))
       /\ (i < length (allPatterns tbl))%nat.
Proof.
  intros (_ & Halt & _). unfold select_match.
  destruct (first_match _ _ _) as [[i m]|] eqn:Hfm; [right|by left].
  apply first_match_Some in Hfm as (j & p & Hi & Hj & _).
  simpl in Hi. subst j. apply lookup_lt_Some in Hj as Hlt.
  unfold longer_alt.
  destruct (truthy_idx _) as [a|] eqn:Ha; [|by exists i, m].
  destruct (Halt i a Hlt Ha) as [Ha0 Ha1].
  assert (Hin : (Z.to_nat a < length (allPatterns tbl))%nat) by lia.
  apply lookup_lt_is_Some in Hin as [alt Halt'].
  assert (array_get (allPatterns tbl) a = Some alt) as ->
    by by apply array_get_Some.
  destruct (alt text) as [ma|]; [|by exists i, m].
  destruct (_ <? _)%nat; [|by exists i, m].
  exists (Z.to_nat a), ma. split; [done|lia].
Qed.

Lemma consume_well_formed lx st i m :
  well_formed_table lx (currMode st) ->
  (i < length (allPatterns (currMode st)))%nat ->
  (forall g, is_Some (emptyGroups lx !! g) -> is_Some (groups st !! g)) ->
  exists st1, consume st i m = Normal st1.
Proof.
  intros (Hgroup & _) Hi Hcover. unfold consume.
  destruct (track_lines _ _ _ _ _) as [[line' column'] fix_end].
  destruct (mjoin _) as [g|] eqn:Hg; [|by eexists].
  destruct (Hgroup i g Hi Hg) as [[tokClass ->] Hbucket].
  destruct (decide _) as [|Hnd]; [by eexists|].
  destruct Hbucket as [|Hb]; [done|].
  destruct (Hcover g Hb) as [a ->]. by eexists.
Qed.

Lemma switch_modes_well_formed lx st i :
  well_formed lx -> stack_ok lx st ->
  (default false (patternIdxToPopMode (currMode st) !! i) = true ->
   is_Some (newToken st)) ->
  exists st', switch_modes lx st i = Normal st'.
Proof.
  intros Hwf Hok Htok. unfold switch_modes.
  assert (Hpush : forall s, stack_ok lx s ->
    exists st',
      match truthy_mode (mjoin (patternIdxToPushMode (currMode s) !! i)) with
      | Some newMode => push_mode lx s newMode
      | None => Normal s
      end = Normal st').
  { intros s (_ & top & _ & Htbl).
    destruct (truthy_mode _) as [newMode|] eqn:Hnm; [|by eexists].
    destruct (Hwf _ _ Htbl) as (_ & _ & _ & Hmodes).
    destruct (Hmodes i newMode Hnm) as [tbl Hnew].
    rewrite (push_mode_own _ _ _ _ Hnew). by eexists. }
  destruct (default false _) eqn:Hpop; [|by apply Hpush].
  assert (Hpopped : exists s, pop_mode lx st (newToken st) = Normal s).
  { destruct (Htok eq_refl) as [tok Hn]. unfold pop_mode. rewrite Hn.
    destruct (_ =? 1)%nat eqn:Hlen; [by eexists|].
    destruct Hok as (Hall & top & Htop & _).
    apply last_Some in Htop as [ms Heq]. rewrite Heq, removelast_snoc.
    destruct ms as [|m0 ms0] using rev_ind.
    { rewrite Heq in Hlen. done. }
    rewrite last_snoc. simpl.
    destruct (Hall m0) as [tbl Htbl0].
    { rewrite Heq. apply elem_of_app. left. apply elem_of_app. right. left. }
    rewrite (read_tables_own _ _ _ _ Htbl0). by eexists. }
  destruct Hpopped as [s Hs]. rewrite Hs. apply Hpush.
  by eapply pop_mode_stack_ok.
Qed.

(** With well-formed tables no round throws. *)
Lemma loop_body_well_formed lx st :
  well_formed lx -> stack_ok lx st ->
  (forall g, is_Some (emptyGroups lx !! g) -> is_Some (groups st !! g)) ->
  exists sp st', loop_body lx st = Normal (sp, st').
Proof.
  intros Hwf Hok Hcover. unfold loop_body, on_match.
  destruct Hok as (Hall & top & Htop & Htbl).
  pose proof (Hwf _ _ Htbl) as Hwft.
  destruct (select_match_well_formed lx (currMode st) (text st) (heap st)
              Hwft) as [->|(i & m & -> & Hi)]; [by eexists _, _|].
  destruct (consume_well_formed lx st i m Hwft Hi Hcover) as [st1 Hc].
  rewrite Hc. apply consume_Normal in Hc
    as (_ & _ & _ & Hm1 & Hms1 & _ & _ & Hgroup).
  destruct (switch_modes_well_formed lx st1 i Hwf) as [st' ->];
    [| |by eexists _, _].
  - unfold stack_ok. rewrite Hm1, Hms1. split; [done|]. by exists top.
  - rewrite Hm1. intros Hpop.
    destruct Hwft as (_ & _ & Hpops & _).
    destruct (Hpops i Hi Hpop) as [g Hg]. rewrite Hg in Hgroup.
    destruct Hgroup as (tok & -> & _). by eexists.
Qed.

Lemma main_loop_returns lx fuel st trace :
  well_formed lx -> every_pattern never_empty lx ->
  stack_ok lx st ->
  (forall g, is_Some (emptyGroups lx !! g) -> is_Some (groups st !! g)) ->
  (length (text st) <= fuel)%nat ->
  exists trace' st', main_loop lx fuel st trace = Some (Normal (trace', st')).
Proof.
  intros Hwf Hne. revert st trace.
  induction fuel as [|fuel IH]; intros st trace Hok Hcover Hlen.
  - destruct (text st) eqn:Ht; [|simpl in Hlen; lia].
    simpl. rewrite Ht. by eexists _, _.
  - destruct (text st) as [|c rest] eqn:Ht.
    { simpl. rewrite Ht. by eexists _, _. }
    rewrite main_loop_round by (by rewrite Ht).
    destruct (loop_body_well_formed lx st Hwf Hok Hcover) as (sp & st' & Hb).
    rewrite Hb. apply IH.
    + eapply loop_body_stack_ok; [by apply well_formed_pushes|done|done].
    + apply loop_body_heap in Hb as [-> _]. done.
    + assert (length (text st') < length (text st))%nat.
      { eapply loop_body_consumes; [|by rewrite Ht|done].
        intros p Hp. destruct Hok as (_ & top & _ & Htbl). by eapply Hne. }
      rewrite Ht in *. simpl in *. lia.
Qed.

(** X11.  A call never throws when the tables are well formed: every
    pattern that is not skipped has a class and a bucket for its group,
    every truthy longer alternative is an index of the pattern array, every
    pattern that pops is not skipped, and every pushed mode exists.  If
    moreover no pattern yields a zero-length match and the first mode is a
    mode of the lexer, a call with fuel for the length of its input
    returns a result. *)
Theorem well_formed_lexer_returns lx fuel input initialMode h :
  well_formed lx ->
  every_pattern never_empty lx ->
  lexerDefinitionErrors lx = [] ->
  lexer_allocated h lx ->
  is_Some (tables lx !! first_mode lx initialMode) ->
  (length input <= fuel)%nat ->
  exists r h', tokenize lx fuel input initialMode h = Some (Normal (r, h')).
Proof.
  intros Hwf Hne Herrs Halloc [tbl Htbl] Hlen.
  unfold tokenize, tokenize_trace. rewrite Herrs.
  pose proof (start_known_mode lx input initialMode h tbl Htbl) as Hst.
  rewrite Hst.
  destruct (main_loop_returns lx fuel _ [] Hwf Hne
              (start_stack_ok _ _ _ _ _ (mk_is_Some _ _ Htbl) Hst))
    as (trace & st' & ->); [done|done|by eexists _, _].
Qed.

End NoThrow.

Section ConstructedInstance.

Context {TokenConstructor : Type}.
Variable validatePatterns :
  list TokenConstructor -> list string ->
  list (ILexerDefinitionError TokenConstructor).
Variable analyzeTokenClasses :
  list TokenConstructor -> list (list (Token TokenConstructor)) ->
  AnalyzeResult TokenConstructor * list (list (Token TokenConstructor)).

(** The instance after the [forEach]: every mode name was pushed; once an
    error is there no table is added; until then every mode is analysed. *)
Lemma fold_add_mode_tables allModeNames definition this h :
  let result :=
    fold_left (add_mode validatePatterns analyzeTokenClasses allModeNames)
      definition (this, h) in
  modes result.1 = modes this ++ map fst definition
  /\ (lexerDefinitionErrors this = [] ->
      forall name,
        is_Some (tables result.1 !! name) <->
        is_Some (tables this !! name)
        \/ name ∈ analysed_modes validatePatterns allModeNames definition)
  /\ (lexerDefinitionErrors this <> [] ->
      tables result.1 = tables this
      /\ emptyGroups result.1 = emptyGroups this /\ result.2 = h).
Proof.
  revert this h.
  induction definition as [|[name def] rest IH]; intros this h; simpl.
  - rewrite app_nil_r. split; [done|]. split; [|done].
    intros _ n. rewrite elem_of_nil. tauto.
  - destruct (lexerDefinitionErrors this) as [|e0 errs0] eqn:Hthis; simpl.
    + destruct (validatePatterns def allModeNames) as [|e errs] eqn:Hval.
      * destruct (analyzeTokenClasses def h) as [res h1].
        match goal with
        | |- context [fold_left _ rest (?this1, ?h1')] =>
            destruct (IH this1 h1') as (Hmodes & Hclean & _)
        end.
        cbn in Hmodes, Hclean.
        split; [by rewrite Hmodes, <- app_assoc|]. split; [|done].
        intros _ n. rewrite (Hclean eq_refl n), elem_of_cons.
        rewrite lookup_insert. destruct (decide (name = n)) as [->|Hne].
        -- split; [auto|]. intros _. left. by eexists.
        -- split; intros [H|H]; auto. destruct H as [H|H]; [congruence|auto].
      * match goal with
        | |- context [fold_left _ rest (?this1, ?h1')] =>
            destruct (IH this1 h1') as (Hmodes & _ & Hdirty)
        end.
        cbn in Hmodes, Hdirty.
        destruct Hdirty as (Ht & _); [done|].
        split; [by rewrite Hmodes, <- app_assoc|]. split; [|done].
        intros _ n. rewrite Ht, elem_of_nil. tauto.
    + match goal with
      | |- context [fold_left _ rest (?this1, ?h1')] =>
          destruct (IH this1 h1') as (Hmodes & _ & Hdirty)
      end.
      cbn in Hmodes, Hdirty.
      split; [by rewrite Hmodes, <- app_assoc|]. split; [done|].
      intros _. by apply Hdirty.
Qed.

Lemma analysed_modes_all allModeNames definition :
  concat (map (fun entry => validatePatterns (snd entry) allModeNames)
            definition) = [] ->
  analysed_modes validatePatterns allModeNames definition
  = map fst definition.
Proof.
  induction definition as [|[name def] rest IH]; simpl; [done|].
  intros Hnil. apply app_eq_nil in Hnil as [-> Hrest]. by rewrite IH.
Qed.

(** X12.  With deferred handling the constructor always returns an
    instance.  Its [modes] lists every mode of the definition in order and
    its errors are those of all the modes, but only the modes before the
    first one with an error have tables: analysis stops there. *)
Theorem deferred_instance_stops_analysis lexerDefinition h :
  exists lx h',
    new_Lexer validatePatterns analyzeTokenClasses lexerDefinition true h
    = Normal (lx, h')
    /\ modes lx = map fst (mode_definitions lexerDefinition)
    /\ lexerDefinitionErrors lx
       = all_definition_errors validatePatterns lexerDefinition
    /\ forall name,
         is_Some (tables lx !! name) <->
         name ∈ analysed_modes validatePatterns
                  (map fst (mode_definitions lexerDefinition))
                  (mode_definitions lexerDefinition).
Proof.
  destruct (new_Lexer_errors validatePatterns analyzeTokenClasses
              lexerDefinition h) as (this & h' & Hfold & Herrs).
  pose proof (fold_add_mode_tables
                (map fst (mode_definitions lexerDefinition))
                (mode_definitions lexerDefinition) (mkLexer [] [] ∅ ∅) h)
    as (Hmodes & Hclean & _).
  rewrite Hfold in Hmodes, Hclean. cbn in Hmodes, Hclean.
  exists this, h'. unfold new_Lexer. rewrite Hfold.
  split; [by destruct (lexerDefinitionErrors this)|].
  split; [done|]. split; [done|].
  intros name. rewrite (Hclean eq_refl name), lookup_empty.
  split; [|auto]. intros [[? ?]|?]; done.
Qed.

(** X13.  When validation reports no error the constructor returns an
    instance whether handling is deferred or not: it has no definition
    error, its modes are those of the definition in order, each with
    tables, and the default first mode of [tokenize] is one of them. *)
Theorem clean_definition_gives_instance lexerDefinition defer h :
  all_definition_errors validatePatterns lexerDefinition = [] ->
  exists lx h',
    new_Lexer validatePatterns analyzeTokenClasses lexerDefinition defer h
    = Normal (lx, h')
    /\ lexerDefinitionErrors lx = []
    /\ modes lx = map fst (mode_definitions lexerDefinition)
    /\ (forall name,
          is_Some (tables lx !! name) <->
          name ∈ map fst (mode_definitions lexerDefinition))
    /\ (mode_definitions lexerDefinition <> [] ->
        is_Some (tables lx !! first_mode lx None)).
Proof.
  intros Hnone.
  destruct (new_Lexer_errors validatePatterns analyzeTokenClasses
              lexerDefinition h) as (this & h' & Hfold & Herrs).
  pose proof (fold_add_mode_tables
                (map fst (mode_definitions lexerDefinition))
                (mode_definitions lexerDefinition) (mkLexer [] [] ∅ ∅) h)
    as (Hmodes & Hclean & _).
  rewrite Hfold in Hmodes, Hclean. cbn in Hmodes, Hclean.
  rewrite Hnone in Herrs.
  assert (Htables : forall name,
            is_Some (tables this !! name) <->
            name ∈ map fst (mode_definitions lexerDefinition)).
  { intros name. rewrite (Hclean eq_refl name), lookup_empty.
    rewrite analysed_modes_all by exact Hnone.
    split; [|auto]. intros [[? ?]|?]; done. }
  exists this, h'. unfold new_Lexer. rewrite Hfold, Herrs.
  split; [done|]. split; [done|]. split; [done|]. split; [done|].
  intros Hne. apply Htables. unfold first_mode. rewrite Hmodes.
  destruct (mode_definitions lexerDefinition) as [|[name def] rest];
    [done|]. simpl. left.
Qed.

End ConstructedInstance.

Section PopAboveLastMode.

Context {TokenConstructor : Type}.
Implicit Types (st : State TokenConstructor) (lx : Lexer TokenConstructor).

(** X14.  With more than one mode on the stack a pop always succeeds: it
    removes the top, installs the tables of the mode below it, records no
    error, and does not look at the token it is given, which may be
    missing. *)
Theorem pop_above_last_mode lx st popToken :
  stack_ok lx st ->
  (2 <= length (modeStack st))%nat ->
  exists st' below,
    pop_mode lx st popToken = Normal st'
    /\ modeStack st' = removelast (modeStack st)
    /\ last (modeStack st') = Some below
    /\ tables lx !! below = Some (currMode st')
    /\ errors st' = errors st
    /\ same_scan st st'.
Proof.
  intros (Hall & top & Htop & _) Hlen.
  apply last_Some in Htop as [ms Heq].
  destruct ms as [|below ms0] using rev_ind.
  { rewrite Heq in Hlen. simpl in Hlen. lia. }
  destruct (Hall below) as [tbl Htbl].
  { rewrite Heq. apply elem_of_app. left. apply elem_of_app. right. left. }
  unfold pop_mode.
  replace (length (modeStack st) =? 1)%nat with false
    by (symmetry; apply Nat.eqb_neq; lia).
  rewrite Heq, removelast_snoc, last_snoc. simpl.
  rewrite (read_tables_own _ _ _ _ Htbl).
  eexists _, below. split; [done|]. cbn.
  rewrite last_snoc. by repeat split.
Qed.

End PopAboveLastMode.

(** * The further properties at the sample lexers *)


Lemma grouped_lexer_well_formed : well_formed grouped_lexer.
Proof.
  intros mode tbl Hmode.
  unfold grouped_lexer in Hmode. cbn [tables] in Hmode.
  apply lookup_singleton_Some in Hmode as [_ <-].
  split; [|split; [|split]].
  - intros i g Hi Hg. cbn in Hi.
    destruct i as [|[|i]]; [| |lia]; cbn in Hg; injection Hg as <-.
    + split; [by eexists|by left].
    + split; [by eexists|]. right. by eexists.
  - intros i a Hi Ha. cbn in Hi. by destruct i as [|[|i]]; [| |lia].
  - intros i Hi Hpop. cbn in Hi. by destruct i as [|[|i]]; [| |lia].
  - intros i newMode Hpush. by destruct i as [|[|[|i]]].
Qed.

Lemma grouped_lexer_never_pops : never_pops grouped_lexer.
Proof.
  intros mode tbl i Hmode.
  unfold grouped_lexer in Hmode. cbn [tables] in Hmode.
  apply lookup_singleton_Some in Hmode as [_ <-].
  by destruct i as [|[|[|i]]].
Qed.

Lemma swap_lexer_pushes_are_modes : pushes_are_modes swap_lexer.
Proof.
  assert (Hinner : is_Some (tables swap_lexer !! "inner"%string))
    by (by exists swap_inner_table).
  assert (Hthird : is_Some (tables swap_lexer !! "third"%string))
    by (by eexists).
  intros mode tbl i newMode Htbl Hnm.
  unfold swap_lexer in Htbl. cbn [tables] in Htbl.
  apply lookup_insert_Some in Htbl as [[_ <-]|[_ Htbl]].
  { destruct i as [|i]; [|by destruct i]. by injection Hnm as <-. }
  apply lookup_insert_Some in Htbl as [[_ <-]|[_ Htbl]].
  { destruct i as [|i]; [|by destruct i]. by injection Hnm as <-. }
  apply lookup_singleton_Some in Htbl as [_ <-].
  destruct i as [|i]; [done|by destruct i].
Qed.

Lemma mode_stack_is_never_empty_witness :
  is_Some (tables swap_lexer !! first_mode swap_lexer None)
  /\ pushes_are_modes swap_lexer
  /\ exists st0 sp st1,
       start swap_lexer (str "os") None [] = Normal st0
       /\ reaches swap_lexer st0 [] st1 [sp]
       /\ head (modeStack st1) = Some "outer"%string
       /\ exists top, last (modeStack st1) = Some top
            /\ tables swap_lexer !! top = Some (currMode st1).
Proof.
  assert (H1 : is_Some (tables swap_lexer !! first_mode swap_lexer None))
    by (by exists swap_outer_table).
  split; [exact H1|]. split; [exact swap_lexer_pushes_are_modes|].
  destruct (start swap_lexer (str "os") None []) as [st0|e h] eqn:Hst;
    [|vm_compute in Hst; discriminate].
  destruct (loop_body swap_lexer st0) as [[sp st1]|e h] eqn:Hb.
  2:{ exfalso. vm_compute in Hst. injection Hst as <-.
      vm_compute in Hb. discriminate. }
  assert (Hr : reaches swap_lexer st0 [] st1 [sp]).
  { eapply reaches_round; [|exact Hb|apply reaches_here].
    apply start_locals in Hst as (-> & _). discriminate. }
  exists st0, sp, st1. split; [reflexivity|]. split; [exact Hr|].
  destruct (mode_stack_is_never_empty swap_lexer (str "os") None []
              st0 st1 [sp] Hst Hr) as [Hbottom Hok].
  split; [exact Hbottom|].
  exact (proj2 (Hok H1 swap_lexer_pushes_are_modes)).
Defined.

Lemma push_then_pop_restores_witness :
  modeStack swap_state_outer <> []
  /\ tables swap_lexer !! mode_key (last (modeStack swap_state_outer))
     = Some (currMode swap_state_outer)
  /\ tables swap_lexer !! "inner"%string = Some swap_inner_table
  /\ exists st1,
       push_mode swap_lexer swap_state_outer "inner" = Normal st1
       /\ pop_mode swap_lexer st1 None = Normal swap_state_outer.
Proof.
  assert (H1 : modeStack swap_state_outer <> []) by discriminate.
  assert (H2 : tables swap_lexer
                 !! mode_key (last (modeStack swap_state_outer))
               = Some (currMode swap_state_outer)) by reflexivity.
  assert (H3 : tables swap_lexer !! "inner"%string = Some swap_inner_table)
    by reflexivity.
  split; [exact H1|]. split; [exact H2|]. split; [exact H3|].
  destruct (push_then_pop_restores swap_lexer swap_state_outer "inner"
              swap_inner_table None H1 H2 H3) as (st1 & Hpush & _ & _ & Hpop).
  exists st1. split; [exact Hpush|exact Hpop].
Defined.

Lemma empty_input_gives_empty_result_witness :
  lexerDefinitionErrors grouped_lexer = []
  /\ lexer_allocated [[]] grouped_lexer
  /\ is_Some (tables grouped_lexer !! first_mode grouped_lexer None)
  /\ observe <$> tokenize grouped_lexer 0 [] None [[]]
     = Some (inr (mkResultValue []
                    (read_groups [[]] (emptyGroups grouped_lexer)) [])).
Proof.
  split; [reflexivity|]. split; [exact grouped_lexer_allocated|].
  destruct (tables grouped_lexer !! first_mode grouped_lexer None)
    as [tbl|] eqn:Htbl; [|vm_compute in Htbl; discriminate].
  split; [by eexists|].
  exact (empty_input_gives_empty_result grouped_lexer 0 None [[]] tbl
           eq_refl grouped_lexer_allocated Htbl).
Defined.

Lemma initial_mode_without_tables_witness :
  lexerDefinitionErrors words_lexer = []
  /\ tables words_lexer !! "__proto__"%string = None
  /\ (tables words_lexer !! first_mode words_lexer (Some "nowhere"%string)
      = None
      /\ inherited (first_mode words_lexer (Some "nowhere"%string)) = None
      /\ observe <$> tokenize words_lexer 5 (str "abc")
                       (Some "nowhere"%string) []
         = Some (inl TypeError))
  /\ (tables words_lexer !! first_mode words_lexer (Some "toString"%string)
      = None
      /\ inherited (first_mode words_lexer (Some "toString"%string))
         = Some (Some 0)
      /\ str "abc" <> []
      /\ observe <$> tokenize words_lexer 5 (str "abc")
                       (Some "toString"%string) []
         = Some (inr (mkResultValue []
                        (read_groups [] (emptyGroups words_lexer))
                        [mkLexingError 1 1 (Z.of_nat (length (str "abc")))
                           (unexpected_message (str "abc") 0
                              (Z.of_nat (length (str "abc"))))])))
  /\ (tables words_lexer
        !! first_mode words_lexer (Some "constructor"%string) = None
      /\ inherited (first_mode words_lexer (Some "constructor"%string))
         = Some (Some 1)
      /\ observe <$> tokenize words_lexer 5 [] (Some "constructor"%string) []
         = Some (inr (mkResultValue []
                        (read_groups [] (emptyGroups words_lexer)) []))
      /\ observe <$> tokenize words_lexer 5 (str "abc")
                       (Some "constructor"%string) []
         = Some (inl TypeError)).
Proof.
  assert (Hp : tables words_lexer !! "__proto__"%string = None)
    by reflexivity.
  assert (Hne : str "abc" <> []) by (vm_compute; discriminate).
  assert (H1 : tables words_lexer
                 !! first_mode words_lexer (Some "nowhere"%string) = None)
    by reflexivity.
  assert (H1' : inherited (first_mode words_lexer (Some "nowhere"%string))
                = None) by reflexivity.
  assert (H2 : tables words_lexer
                 !! first_mode words_lexer (Some "toString"%string) = None)
    by reflexivity.
  assert (H2' : inherited (first_mode words_lexer (Some "toString"%string))
                = Some (Some 0)) by reflexivity.
  assert (H3 : tables words_lexer
                 !! first_mode words_lexer (Some "constructor"%string)
               = None) by reflexivity.
  assert (H3' : inherited
                  (first_mode words_lexer (Some "constructor"%string))
                = Some (Some 1)) by reflexivity.
  split; [reflexivity|]. split; [exact Hp|]. split; [|split].
  - split; [exact H1|]. split; [exact H1'|].
    exact (proj1 (initial_mode_without_tables words_lexer 5 (str "abc")
                    (Some "nowhere"%string) [] eq_refl H1 Hp) H1').
  - split; [exact H2|]. split; [exact H2'|]. split; [exact Hne|].
    exact (proj2 (proj2 (initial_mode_without_tables words_lexer 5
                           (str "abc") (Some "toString"%string) []
                           eq_refl H2 Hp) (Some 0) H2')
             Hne (le_S _ _ (le_S _ _ (le_S _ _ (le_S _ _ (le_n 1)))))).
  - split; [exact H3|]. split; [exact H3'|]. split.
    + exact (proj1 (proj2 (initial_mode_without_tables words_lexer 5 []
                             (Some "constructor"%string) [] eq_refl H3 Hp)
                      (Some 1) H3') eq_refl).
    + exact (proj2 (proj2 (initial_mode_without_tables words_lexer 5
                             (str "abc") (Some "constructor"%string) []
                             eq_refl H3 Hp) (Some 1) H3')
               Hne (le_S _ _ (le_S _ _ (le_S _ _ (le_S _ _ (le_n 1)))))).
Defined.

Lemma unmatched_input_is_one_error_witness :
  (forall j p, (j < length (str "!?!"))%nat -> p ∈ allPatterns words_table ->
     p (drop j (str "!?!")) = None)
  /\ observe <$> tokenize words_lexer 1 (str "!?!") None []
     = Some (inr (mkResultValue []
                    (read_groups [] (emptyGroups words_lexer))
                    [mkLexingError 1 1 (Z.of_nat (length (str "!?!")))
                       (unexpected_message (str "!?!") 0
                          (Z.of_nat (length (str "!?!"))))])).
Proof.
  assert (Hnone : forall j p, (j < length (str "!?!"))%nat ->
            p ∈ allPatterns words_table -> p (drop j (str "!?!")) = None).
  { intros j p Hj Hp. apply list_elem_of_singleton in Hp. subst p.
    destruct j as [|[|[|j]]]; [reflexivity|reflexivity|reflexivity|].
    vm_compute in Hj. lia. }
  assert (Halloc : lexer_allocated [] words_lexer).
  { intros g a Ha. simpl in Ha. by rewrite lookup_empty in Ha. }
  split; [exact Hnone|].
  exact (unmatched_input_is_one_error words_lexer 1 (str "!?!") None []
           words_table eq_refl Halloc eq_refl ltac:(discriminate)
           (le_n 1) Hnone).
Defined.

Lemma buckets_only_grow_witness :
  exists h',
    run_calls grouped_lexer
      [(5%nat, str "a;", None); (5%nat, str ";;", None)] [[close_token]]
    = Some h'
    /\ exists more, h' !! 0%nat = Some ([close_token] ++ more).
Proof.
  destruct (run_calls grouped_lexer
              [(5%nat, str "a;", None); (5%nat, str ";;", None)]
              [[close_token]])
    as [h'|] eqn:Hcalls; [|vm_compute in Hcalls; discriminate].
  exists h'. split; [reflexivity|].
  exact (buckets_only_grow grouped_lexer
           [(5%nat, str "a;", None); (5%nat, str ";;", None)]
           [[close_token]] h' Hcalls 0%nat [close_token] eq_refl).
Defined.

Lemma unmatched_run_is_one_recovery_witness :
  exists trace r h',
    tokenize_trace grouped_lexer 9 (str "a!!;b") None [[]]
    = Some (Normal (trace, r, h'))
    /\ forall k sp1 sp2, trace !! k = Some sp1 -> trace !! S k = Some sp2 ->
         is_recovery sp1 = false \/ is_recovery sp2 = false.
Proof.
  destruct (tokenize_trace grouped_lexer 9 (str "a!!;b") None [[]])
    as [[[[trace r] h']|]|] eqn:Hrun;
    [|vm_compute in Hrun; discriminate|vm_compute in Hrun; discriminate].
  exists trace, r, h'. split; [reflexivity|].
  exact (unmatched_run_is_one_recovery grouped_lexer 9 (str "a!!;b") None
           [[]] trace r h' Hrun).
Defined.

Lemma errors_are_the_recoveries_witness :
  never_pops grouped_lexer
  /\ exists trace r h',
       tokenize_trace grouped_lexer 9 (str "a!!;b") None [[]]
       = Some (Normal (trace, r, h'))
       /\ result_errors r = recovery_errors trace.
Proof.
  split; [exact grouped_lexer_never_pops|].
  destruct (tokenize_trace grouped_lexer 9 (str "a!!;b") None [[]])
    as [[[[trace r] h']|]|] eqn:Hrun;
    [|vm_compute in Hrun; discriminate|vm_compute in Hrun; discriminate].
  exists trace, r, h'. split; [reflexivity|].
  exact (proj1 (errors_are_the_recoveries grouped_lexer 9 (str "a!!;b") None
                  [[]] trace r h' grouped_lexer_never_pops Hrun)).
Defined.

Lemma columns_start_at_one_witness :
  exists trace r h',
    tokenize_trace grouped_lexer 9 (str "a!!;b") None [[]]
    = Some (Normal (trace, r, h'))
    /\ Forall (fun err => 1 <= err_column err) (result_errors r).
Proof.
  destruct (tokenize_trace grouped_lexer 9 (str "a!!;b") None [[]])
    as [[[[trace r] h']|]|] eqn:Hrun;
    [|vm_compute in Hrun; discriminate|vm_compute in Hrun; discriminate].
  exists trace, r, h'. split; [reflexivity|].
  exact (proj2 (proj2 (columns_start_at_one grouped_lexer 9 (str "a!!;b")
                         None [[]] trace r h' Hrun))).
Defined.

Lemma token_image_is_input_slice_witness :
  every_pattern anchored grouped_lexer
  /\ every_pattern never_empty grouped_lexer
  /\ buckets_empty [[]] grouped_lexer
  /\ exists trace r h',
       tokenize_trace grouped_lexer 9 (str "a!!;b") None [[]]
       = Some (Normal (trace, r, h'))
       /\ forall tok, tok ∈ tokens r ->
            substr (str "a!!;b") (startOffset tok) (length (image tok))
            = image tok.
Proof.
  assert (H1 : every_pattern anchored grouped_lexer)
    by exact (grouped_lexer_patterns anchored lower_run_anchored
                semicolon_anchored).
  assert (H2 : every_pattern never_empty grouped_lexer)
    by exact (grouped_lexer_patterns never_empty lower_run_never_empty
                semicolon_never_empty).
  split; [exact H1|]. split; [exact H2|].
  split; [exact grouped_lexer_buckets_empty|].
  destruct (tokenize_trace grouped_lexer 9 (str "a!!;b") None [[]])
    as [[[[trace r] h']|]|] eqn:Hrun;
    [|vm_compute in Hrun; discriminate|vm_compute in Hrun; discriminate].
  exists trace, r, h'. split; [reflexivity|].
  exact (proj1 (proj2 (token_image_is_input_slice grouped_lexer 9
                         (str "a!!;b") None [[]] trace r h' H1 H2
                         grouped_lexer_buckets_empty Hrun))).
Defined.

Lemma well_formed_lexer_returns_witness :
  well_formed grouped_lexer
  /\ every_pattern never_empty grouped_lexer
  /\ lexerDefinitionErrors grouped_lexer = []
  /\ lexer_allocated [[]] grouped_lexer
  /\ is_Some (tables grouped_lexer !! first_mode grouped_lexer None)
  /\ (length (str "a!!;b") <= 5)%nat
  /\ exists r h',
       tokenize grouped_lexer 5 (str "a!!;b") None [[]]
       = Some (Normal (r, h')).
Proof.
  assert (H2 : every_pattern never_empty grouped_lexer)
    by exact (grouped_lexer_patterns never_empty lower_run_never_empty
                semicolon_never_empty).
  assert (H5 : is_Some (tables grouped_lexer
                          !! first_mode grouped_lexer None)).
  { destruct (tables grouped_lexer !! first_mode grouped_lexer None)
      as [tbl|] eqn:Htbl; [by eexists|vm_compute in Htbl; discriminate]. }
  assert (H6 : (length (str "a!!;b") <= 5)%nat) by (vm_compute; lia).
  split; [exact grouped_lexer_well_formed|]. split; [exact H2|].
  split; [reflexivity|]. split; [exact grouped_lexer_allocated|].
  split; [exact H5|]. split; [exact H6|].
  exact (well_formed_lexer_returns grouped_lexer 5 (str "a!!;b") None [[]]
           grouped_lexer_well_formed H2 eq_refl grouped_lexer_allocated
           H5 H6).
Defined.

Lemma clean_definition_gives_instance_witness :
  all_definition_errors clean_validatePatterns
    (MultiMode [("one"%string, ["A"%string]); ("two"%string, ["B"%string])])
  = []
  /\ exists lx h',
       new_Lexer clean_validatePatterns sample_analyzeTokenClasses
         (MultiMode [("one"%string, ["A"%string]);
                     ("two"%string, ["B"%string])]) false []
       = Normal (lx, h')
       /\ modes lx = ["one"%string; "two"%string]
       /\ is_Some (tables lx !! first_mode lx None).
Proof.
  split; [reflexivity|].
  destruct (clean_definition_gives_instance clean_validatePatterns
              sample_analyzeTokenClasses
              (MultiMode [("one"%string, ["A"%string]);
                          ("two"%string, ["B"%string])]) false [] eq_refl)
    as (lx & h' & Hnew & _ & Hmodes & _ & Hfirst).
  exists lx, h'. split; [exact Hnew|]. split; [exact Hmodes|].
  apply Hfirst. discriminate.
Defined.

Lemma pop_above_last_mode_witness :
  stack_ok swap_lexer swap_state_inner
  /\ (2 <= length (modeStack swap_state_inner))%nat
  /\ exists st',
       pop_mode swap_lexer swap_state_inner None = Normal st'
       /\ modeStack st' = ["outer"%string]
       /\ errors st' = [].
Proof.
  assert (H1 : stack_ok swap_lexer swap_state_inner).
  { split.
    - intros m Hm. cbn in Hm.
      apply elem_of_cons in Hm as [->|Hm]; [by eexists|].
      apply list_elem_of_singleton in Hm. subst m. by eexists.
    - exists "inner"%string. split; reflexivity. }
  assert (H2 : (2 <= length (modeStack swap_state_inner))%nat)
    by (simpl; lia).
  split; [exact H1|]. split; [exact H2|].
  destruct (pop_above_last_mode swap_lexer swap_state_inner None H1 H2)
    as (st' & below & Hpop & Hms & _ & _ & Herr & _).
  exists st'. split; [exact Hpop|]. split; [exact Hms|exact Herr].
Defined.
